(** * uniasset: [ImageAsset] (Native/src/uniasset/image/ImageAsset.cpp)

    A shallow embedding of the image asset of the uniasset native library:
    the pixel buffer with its origin tag, the image metadata, the single-slot
    error channel, the two geometric transforms ([Clip], [Resize]) and the
    lifecycle operations ([Load], [Unload], [CopyTo], [Clone]).

    Pixel memory is a store of blocks addressed by location, shared by the
    caller and by every asset, so that ownership, release and aliasing are
    visible.  The C++ integer types are unbounded integers with their
    wrap-around written out, and [float] is IEEE-754 binary32 as specified by
    the standard library's [SpecFloat]. *)

From Stdlib Require Import ZArith Lia String SpecFloat.
From stdpp Require Import base numbers option list gmap strings pretty.

Local Open Scope Z_scope.

(** ** Machine integers *)

Module Int.

(** [int32_t] / [int]: two's complement wrap-around. *)
Definition int32 (z : Z) : Z := (z + 2 ^ 31) `mod` 2 ^ 32 - 2 ^ 31.

(** [uint32_t]: conversion from any integer type is reduction modulo 2^32. *)
Definition uint32 (z : Z) : Z := z `mod` 2 ^ 32.

(** [size_t] (64 bit): conversion from [int] sign-extends, i.e. reduces
    modulo 2^64. *)
Definition size_t (z : Z) : Z := z `mod` 2 ^ 64.

Definition INT_MIN : Z := - 2 ^ 31.
Definition INT_MAX : Z := 2 ^ 31 - 1.

(** Largest size an allocation can have ([PTRDIFF_MAX]); [new uint8_t[n]]
    throws for anything larger. *)
Definition PTRDIFF_MAX : Z := 2 ^ 63 - 1.

End Int.

(** ** Single precision floating point *)

Module Float32.

Definition prec : Z := 24.
Definition emax : Z := 128.

Definition float : Type := spec_float.

(** [(float) z] for an integer [z]: round to nearest, ties to even. *)
Definition of_Z (z : Z) : float := binary_normalize prec emax z 0 false.

Definition div (a b : float) : float := SFdiv prec emax a b.
Definition mul (a b : float) : float := SFmul prec emax a b.

(** [(int) f]: truncation toward zero.  Out of the range of [int], and for
    infinities and NaN, the conversion yields [INT_MIN] (what the x86
    conversion instruction returns). *)
Definition to_int (f : float) : Z :=
  match f with
  | S754_zero _ => 0
  | S754_finite s m e =>
      let t := if 0 <=? e then Z.pos m * 2 ^ e else Z.pos m `div` 2 ^ (- e) in
      let v := if s then - t else t in
      if (Int.INT_MIN <=? v) && (v <=? Int.INT_MAX) then v else Int.INT_MIN
  | _ => Int.INT_MIN
  end.

End Float32.

(** ** Memory *)

(** A byte of memory is either a value or indeterminate (freshly allocated
    and not yet written). *)
Abbreviation mbyte := (option Byte.byte).

Abbreviation loc := positive.

(** The store: each live allocation is a block of cells. *)
Abbreviation heap := (gmap loc (list mbyte)).

(** A [uint8_t*]: null, or an offset into a block. *)
Inductive ptr : Type :=
| Null
| Ptr (b : loc) (o : Z).

Definition is_null (p : ptr) : bool :=
  match p with Null => true | Ptr _ _ => false end.

(** Pointer arithmetic [p + k].  Null stays null (it is then only ever used by
    a zero-length copy). *)
Definition ptr_add (p : ptr) (k : Z) : ptr :=
  match p with Null => Null | Ptr b o => Ptr b (o + k) end.

(** Abnormal termination: an allocation that throws, an access outside of a
    live block, or a loop counter running past [INT_MAX]. *)
Inductive fault : Type := BadAlloc | SegFault | IntOverflow.

Inductive outcome (S A : Type) : Type :=
| Done (a : A) (s : S)
| Crash (f : fault) (s : S).
Arguments Done {S A} a s.
Arguments Crash {S A} f s.

(** Computations over a state [S] that may terminate abnormally. *)
Definition M (S A : Type) : Type := S → outcome S A.

Global Instance M_ret {S} : MRet (M S) := λ A a s, Done a s.

Global Instance M_bind {S} : MBind (M S) :=
  λ A B k m s, match m s with
               | Done a s' => k a s'
               | Crash f s' => Crash f s'
               end.

Definition crash {S A} (f : fault) : M S A := λ s, Crash f s.

(** The state reached by a computation, however it ended. *)
Definition final {S A} (o : outcome S A) : S :=
  match o with Done _ s => s | Crash _ s => s end.

(** A counted loop [for (int i = lo; i < lo + n; i++) body(i)].  The counter
    is an [int]: an increment that takes it past [INT_MAX] is not defined,
    and the model stops there with a fault. *)
Fixpoint for_loop {S} (n : nat) (i : Z) (body : Z → M S unit) : M S unit :=
  if Int.INT_MAX <? i then crash IntOverflow
  else match n with
       | O => mret tt
       | S n' => body i;; for_loop n' (i + 1) body
       end.

(** [n] cells starting at [p]; [None] when the range is not inside a live
    block. *)
Definition load_cells (h : heap) (p : ptr) (n : Z) : option (list mbyte) :=
  match p with
  | Null => None
  | Ptr b o =>
      match h !! b with
      | None => None
      | Some cs =>
          if (0 <=? o) && (0 <=? n) && (o + n <=? Z.of_nat (length cs))
          then Some (take (Z.to_nat n) (drop (Z.to_nat o) cs))
          else None
      end
  end.

(** Overwrite the cells starting at [p] with [vs]. *)
Definition store_cells (h : heap) (p : ptr) (vs : list mbyte) : option heap :=
  match p with
  | Null => None
  | Ptr b o =>
      match h !! b with
      | None => None
      | Some cs =>
          if (0 <=? o) && (o + Z.of_nat (length vs) <=? Z.of_nat (length cs))
          then Some (<[b := take (Z.to_nat o) cs ++ vs
                              ++ drop (Z.to_nat o + length vs) cs]> h)
          else None
      end
  end.

(** [memcpy(dst, src, n)].  A zero-length copy touches no memory, whatever the
    pointers are. *)
Definition memcpy (dst src : ptr) (n : Z) : M heap unit :=
  λ h,
    if n =? 0 then Done tt h
    else match load_cells h src n with
         | None => Crash SegFault h
         | Some vs =>
             match store_cells h dst vs with
             | None => Crash SegFault h
             | Some h' => Done tt h'
             end
         end.

(** [dst[i] = src[j]] on single bytes. *)
Definition copy_byte (dst : ptr) (i : Z) (src : ptr) (j : Z) : M heap unit :=
  memcpy (ptr_add dst i) (ptr_add src j) 1.

(** [new uint8_t[size]]: a fresh block of indeterminate bytes; throws when the
    size is above [PTRDIFF_MAX]. *)
Definition new_array (size : Z) : M heap ptr :=
  λ h,
    if Int.PTRDIFF_MAX <? size then Crash BadAlloc h
    else let b := fresh (dom h) in
         Done (Ptr b 0) (<[b := replicate (Z.to_nat size) None]> h).

(** [delete[] p] / [free(p)] for non-null [p]: the block must be live and [p]
    must be its start. *)
Definition free_block (p : ptr) : M heap unit :=
  λ h,
    match p with
    | Ptr b 0 =>
        match h !! b with
        | Some _ => Done tt (delete b h)
        | None => Crash SegFault h
        end
    | _ => Crash SegFault h
    end.

(** A fresh block holding the given bytes: what a decoder that allocates its
    own output returns. *)
Definition alloc_with (vs : list mbyte) : M heap ptr :=
  λ h, let b := fresh (dom h) in Done (Ptr b 0) (<[b := vs]> h).

(** ** The error channel *)

Module ErrorHandler.

(** A call made on the error channel. *)
Inductive event : Type :=
| Cleared
| Raised (msg : string).

(** Modelled from the spec: the error-message holder (the class
    [ErrorHandler] of common/, which is not among the sources): a single
    slot holding the most recent message, empty when there is none, which
    can be cleared, set and read.  [calls] is a ghost history of the calls
    made on the holder; no operation reads it. *)
Record t : Type := mk {
  error_ : string;
  calls : list event
}.

Definition init : t := {| error_ := EmptyString; calls := [] |}.

Definition Clear (e : t) : t :=
  {| error_ := EmptyString; calls := calls e ++ [Cleared] |}.

Definition SetError (msg : string) (e : t) : t :=
  {| error_ := msg; calls := calls e ++ [Raised msg] |}.

Definition GetError (e : t) : string := error_ e.

End ErrorHandler.

(** ** External collaborators *)

(** What [fopen] hands back for a path that can be opened: whether each seek
    succeeds, what [ftell] reports at the end, and the bytes [fread] delivers
    ([None] when the read fails). *)
Record File : Type := {
  seek_end_ok : bool;
  file_size : Z;
  seek_begin_ok : bool;
  file_data : option (list Byte.byte)
}.

(** A decoded image as the generic decoder returns it. *)
Record StbImage : Type := {
  stb_width : Z;
  stb_height : Z;
  stb_channels : Z;
  stb_pixels : list Byte.byte
}.

(** The libraries and the file system the asset calls into.  They are outside
    of the asset and are taken as given: the file system, the format sniffer
    of common/Utils, the generic decoder (stb_image), libwebp and TurboJPEG.
    A decoder that fails leaves its out-parameters untouched. *)
Record Env : Type := {
  (** [fopen(path, "rb")]; [inl msg] is [strerror(errno)] of a failed open. *)
  fopen : string → string + File;
  (** The message [ERROR_HANDLER_ERRNO] builds from its text and [errno]. *)
  errno_message : string → string;
  IsWebPFileData : list Byte.byte → bool;
  IsJpegFileData : list Byte.byte → bool;
  (** [stbi_load] and [stbi_load_from_memory], called with the vertical flip
      switched on; [inl msg] is [stbi_failure_reason()]. *)
  stbi_load : string → string + StbImage;
  stbi_load_from_memory : list Byte.byte → string + StbImage;
  (** [WebPGetInfo]: the dimensions, or failure. *)
  WebPGetInfo : list Byte.byte → option (Z * Z);
  WebPInitDecoderConfig : bool;
  (** [WebPGetFeatures]: the status code, [0] being [VP8_STATUS_OK]. *)
  WebPGetFeatures : list Byte.byte → Z;
  (** [WebPDecode]: the status code and the rows it has written, first image
      row first. *)
  WebPDecode : list Byte.byte → Z * list (list Byte.byte);
  (** [tjInitTransform] / [tjInitDecompress]: [Some msg] is [tjGetErrorStr()]
      of a failed initialisation. *)
  tjInitTransform : option string;
  tjInitDecompress : option string;
  (** [tjTransform] with [TJXOP_VFLIP]: the transformed stream, or
      [tjGetErrorStr2]. *)
  tjTransform : list Byte.byte → string + list Byte.byte;
  (** [tjDecompressHeader3]: width and height, or [tjGetErrorStr2]. *)
  tjDecompressHeader3 : list Byte.byte → string + (Z * Z);
  (** [tjDecompress2] to [TJPF_RGB] at the given width and height: the pixels
      written, or [tjGetErrorStr2]. *)
  tjDecompress2 : list Byte.byte → Z → Z → string + list Byte.byte
}.

(** ** The asset *)

(** Who allocated a buffer, hence how it is released. *)
Inductive Source : Type := Self | Stb.

Record Buffer : Type := {
  buffer : ptr;
  source : Source
}.

Record ImageAsset : Type := {
  buffer_ : Buffer;
  width_ : Z;
  height_ : Z;
  channelCount_ : Z;
  errorHandler_ : ErrorHandler.t
}.

(** The memory together with the object a member function runs on. *)
Record World : Type := {
  mem : heap;
  self : ImageAsset
}.

Definition ERROR_STR_IMAGE_NOT_LOADED : string := "image asset is not loaded".
Definition ERROR_STR_IMAGE_SIZE_OVERFLOW : string := "range exceeds image size".

(** Modelled from the spec: a freshly constructed instance
    ([ImageAsset::ImageAsset() = default]; the member initialisers are in the
    header, which is not among the sources) is unloaded, with no error. *)
Definition new_ImageAsset : ImageAsset :=
  {| buffer_ := {| buffer := Null; source := Self |};
     width_ := 0; height_ := 0; channelCount_ := 0;
     errorHandler_ := ErrorHandler.init |}.

Definition with_buffer (b : Buffer) (a : ImageAsset) : ImageAsset :=
  {| buffer_ := b; width_ := width_ a; height_ := height_ a;
     channelCount_ := channelCount_ a; errorHandler_ := errorHandler_ a |}.
Definition with_width (z : Z) (a : ImageAsset) : ImageAsset :=
  {| buffer_ := buffer_ a; width_ := z; height_ := height_ a;
     channelCount_ := channelCount_ a; errorHandler_ := errorHandler_ a |}.
Definition with_height (z : Z) (a : ImageAsset) : ImageAsset :=
  {| buffer_ := buffer_ a; width_ := width_ a; height_ := z;
     channelCount_ := channelCount_ a; errorHandler_ := errorHandler_ a |}.
Definition with_channelCount (z : Z) (a : ImageAsset) : ImageAsset :=
  {| buffer_ := buffer_ a; width_ := width_ a; height_ := height_ a;
     channelCount_ := z; errorHandler_ := errorHandler_ a |}.
Definition with_errorHandler (e : ErrorHandler.t) (a : ImageAsset) : ImageAsset :=
  {| buffer_ := buffer_ a; width_ := width_ a; height_ := height_ a;
     channelCount_ := channelCount_ a; errorHandler_ := e |}.

(** Run a memory operation in the world of an object. *)
Definition on_mem {A} (m : M heap A) : M World A :=
  λ w, match m (mem w) with
       | Done a h => Done a {| mem := h; self := self w |}
       | Crash f h => Crash f {| mem := h; self := self w |}
       end.

(** A scope that holds block [p] in a [std::unique_ptr]: the block is given
    back when the scope is left, by a return or by an exception that passes
    through it.  Nothing follows a fault. *)
Definition scoped {A} (p : ptr) (m : M World A) : M World A :=
  λ w, match m w with
       | Done a w' => (on_mem (free_block p);; mret a) w'
       | Crash BadAlloc w' => (on_mem (free_block p);; crash BadAlloc) w'
       | Crash f w' => Crash f w'
       end.

(** Read and update the members of [this]. *)
Definition this : M World ImageAsset := λ w, Done (self w) w.
Definition set_this (g : ImageAsset → ImageAsset) : M World unit :=
  λ w, Done tt {| mem := mem w; self := g (self w) |}.

Definition errorHandler_Clear : M World unit :=
  set_this (λ a, with_errorHandler (ErrorHandler.Clear (errorHandler_ a)) a).
Definition errorHandler_SetError (msg : string) : M World unit :=
  set_this (λ a, with_errorHandler (ErrorHandler.SetError msg (errorHandler_ a)) a).

(** Nearest-neighbour scaling, [ScaleImage<PixelSize>].  The dimensions are
    [uint32_t], the loop counters and the source coordinates are [int], the
    scale factors are [float]; pixel indices are computed in [uint32_t]. *)
Definition ScaleImage (PixelSize : Z) (srcBuffer destBuffer : ptr)
    (srcWidth srcHeight destWidth destHeight : Z) : M heap unit :=
  let scaleX := Float32.div (Float32.of_Z srcWidth) (Float32.of_Z destWidth) in
  let scaleY := Float32.div (Float32.of_Z srcHeight) (Float32.of_Z destHeight) in
  for_loop (Z.to_nat destWidth) 0 (λ ix,
    for_loop (Z.to_nat destHeight) 0 (λ iy,
      let px := Float32.to_int (Float32.mul (Float32.of_Z ix) scaleX) in
      let py := Float32.to_int (Float32.mul (Float32.of_Z iy) scaleY) in
      let destPixelBegin := Int.uint32 (destWidth * iy + ix) in
      let srcPixelBegin := Int.uint32 (srcWidth * py + px) in
      for_loop (Z.to_nat PixelSize) 0 (λ i,
        copy_byte destBuffer (Int.uint32 (destPixelBegin * PixelSize + i))
                  srcBuffer (Int.uint32 (srcPixelBegin * PixelSize + i))))).

(** [ImageAsset::AllocateBuffer]: no block at all for a size of zero. *)
Definition AllocateBuffer (size : Z) : M heap Buffer :=
  if size =? 0 then mret {| buffer := Null; source := Self |}
  else p ← new_array size; mret {| buffer := p; source := Self |}.

(** [ImageAsset::ReleaseBuffer(Buffer&)]: the buffer as it is after the call.
    Both deallocation routines give the block back to the store. *)
Definition ReleaseBuffer (b : Buffer) : M heap Buffer :=
  if is_null (buffer b) then mret b
  else
    match source b with
    | Self => free_block (buffer b)
    | Stb => free_block (buffer b)
    end;;
    mret {| buffer := Null; source := source b |}.

(** [ReleaseBuffer(buffer_)]. *)
Definition ReleaseBuffer_ : M World unit :=
  a ← this;
  b ← on_mem (ReleaseBuffer (buffer_ a));
  set_this (with_buffer b).

Definition cells_of (bs : list Byte.byte) : list mbyte := Some <$> bs.

(** Write the bytes [vs] at [p]; writing nothing touches no memory. *)
Definition write_bytes (p : ptr) (vs : list Byte.byte) : M heap unit :=
  λ h, match vs with
       | [] => Done tt h
       | _ => match store_cells h p (cells_of vs) with
              | Some h' => Done tt h'
              | None => Crash SegFault h
              end
       end.

(** Rows written one after the other, row [r] at [p + r * stride]. *)
Fixpoint store_rows (p : ptr) (stride : Z) (r : Z) (rows : list (list Byte.byte))
    : M heap unit :=
  match rows with
  | [] => mret tt
  | row :: rows' =>
      write_bytes (ptr_add p (r * stride)) row;;
      store_rows p stride (r + 1) rows'
  end.

(** [ImageAsset::Load(uint8_t* pixelData, size_t size, int32_t width,
    int32_t height, int32_t channelCount)]. *)
Definition Load_pixels (pixelData : ptr) (size width height channelCount : Z)
    : M World unit :=
  errorHandler_Clear;;
  ReleaseBuffer_;;
  b ← on_mem (AllocateBuffer size);
  set_this (with_buffer b);;
  on_mem (memcpy (buffer b) pixelData size);;
  set_this (with_width width);;
  set_this (with_height height);;
  set_this (with_channelCount channelCount).

Section Loading.

Context (env : Env).

Definition ERROR_HANDLER_ERRNO (msg : string) : M World unit :=
  errorHandler_SetError (errno_message env msg).

(** [fread(buf, n, 1, file)]: the [n] bytes, or failure. *)
Definition fread (file : File) (n : Z) : option (list Byte.byte) :=
  match file_data file with
  | Some bs =>
      if n <=? Z.of_nat (length bs) then Some (take (Z.to_nat n) bs) else None
  | None => None
  end.

(** [ImageAsset::LoadFromFile]. *)
Definition LoadFromFile (path : string) : M World unit :=
  errorHandler_Clear;;
  match stbi_load env path with
  | inl reason => errorHandler_SetError reason
  | inr img =>
      set_this (with_width (stb_width img));;
      set_this (with_height (stb_height img));;
      set_this (with_channelCount (stb_channels img));;
      data ← on_mem (alloc_with (cells_of (stb_pixels img)));
      ReleaseBuffer_;;
      set_this (with_buffer {| buffer := data; source := Stb |})
  end.

(** [ImageAsset::LoadFile]. *)
Definition LoadFile (fileData : list Byte.byte) : M World unit :=
  errorHandler_Clear;;
  match stbi_load_from_memory env fileData with
  | inl reason => errorHandler_SetError reason
  | inr img =>
      set_this (with_width (stb_width img));;
      set_this (with_height (stb_height img));;
      set_this (with_channelCount (stb_channels img));;
      data ← on_mem (alloc_with (cells_of (stb_pixels img)));
      ReleaseBuffer_;;
      set_this (with_buffer {| buffer := data; source := Stb |})
  end.

(** [ImageAsset::LoadWebP].  [tmp] is the local [unique_ptr]: it is given
    back on every return that does not hand it to [buffer_]. *)
Definition LoadWebP (fileData : list Byte.byte) : M World unit :=
  errorHandler_Clear;;
  match WebPGetInfo env fileData with
  | None => errorHandler_SetError "Failed to get webp info"
  | Some (w, h) =>
      set_this (with_width w);;
      set_this (with_height h);;
      set_this (with_channelCount 4);;
      a ← this;
      tmp ← on_mem (new_array
               (Int.size_t (Int.int32 (width_ a * height_ a * channelCount_ a))));
      if negb (WebPInitDecoderConfig env) then
        errorHandler_SetError "Failed to initialize decoder config";;
        on_mem (free_block tmp)
      else
        let statusCode := WebPGetFeatures env fileData in
        if negb (statusCode =? 0) then
          errorHandler_SetError
            ("Failed to call WebPGetFeatures: " +:+ pretty statusCode);;
          on_mem (free_block tmp)
        else
          let strideSize := Int.int32 (channelCount_ a * width_ a) in
          let stride := Int.int32 (- strideSize) in
          let rgba := ptr_add tmp (Int.int32 ((height_ a - 1) * strideSize)) in
          let '(statusCode, rows) := WebPDecode env fileData in
          on_mem (store_rows rgba stride 0 rows);;
          if negb (statusCode =? 0) then
            errorHandler_SetError
              ("Failed to call WebPDecode: " +:+ pretty statusCode);;
            on_mem (free_block tmp)
          else
            ReleaseBuffer_;;
            set_this (with_buffer {| buffer := tmp; source := Self |})
  end.

(** [ImageAsset::LoadJpeg]. *)
Definition LoadJpeg (fileData : list Byte.byte) : M World unit :=
  errorHandler_Clear;;
  match tjInitTransform env with
  | Some msg => errorHandler_SetError msg
  | None =>
      match tjTransform env fileData with
      | inl msg => errorHandler_SetError msg
      | inr transformedData =>
          match tjInitDecompress env with
          | Some msg => errorHandler_SetError msg
          | None =>
              match tjDecompressHeader3 env fileData with
              | inl msg => errorHandler_SetError msg
              | inr (w, h) =>
                  set_this (with_width w);;
                  set_this (with_height h);;
                  set_this (with_channelCount 3);;
                  a ← this;
                  tmp ← on_mem (new_array
                           (Int.size_t (Int.int32
                              (width_ a * height_ a * channelCount_ a))));
                  match tjDecompress2 env transformedData
                          (width_ a) (height_ a) with
                  | inl msg =>
                      errorHandler_SetError msg;;
                      on_mem (free_block tmp)
                  | inr pixels =>
                      on_mem (store_rows tmp 0 0 [pixels]);;
                      ReleaseBuffer_;;
                      set_this (with_buffer {| buffer := tmp; source := Self |})
                  end
              end
          end
      end
  end.

(** The part the two file variants share: open, measure and read the whole
    file, then decode the bytes.  [what] is the format named in the
    messages; [rdBuf] is the local [unique_ptr], which lives to the end of
    the function. *)
Definition load_whole_file (what : string) (path : string)
    (decode : list Byte.byte → M World unit) : M World unit :=
  errorHandler_Clear;;
  match fopen env path with
  | inl msg => errorHandler_SetError msg
  | inr file =>
      if negb (seek_end_ok file) then
        ERROR_HANDLER_ERRNO ("Failed to load " +:+ what +:+ " (seek to end)")
      else
        let fileSize := file_size file in
        if fileSize =? 0 then
          ERROR_HANDLER_ERRNO ("Failed to load " +:+ what +:+ " (empty file)")
        else if negb (seek_begin_ok file) then
          ERROR_HANDLER_ERRNO ("Failed to load " +:+ what +:+ " (seek to begin)")
        else
          rdBuf ← on_mem (new_array fileSize);
          scoped rdBuf
            match fread file fileSize with
            | None =>
                ERROR_HANDLER_ERRNO ("Failed to load " +:+ what +:+ " (read file)")
            | Some bytes => decode bytes
            end
  end.

(** [ImageAsset::LoadWebPFromFile]. *)
Definition LoadWebPFromFile (path : string) : M World unit :=
  load_whole_file "webp" path LoadWebP.

(** [ImageAsset::LoadJpegFromFile]. *)
Definition LoadJpegFromFile (path : string) : M World unit :=
  load_whole_file "jpeg" path LoadJpeg.

(** [ImageAsset::Load(const std::string_view& path)]. *)
Definition Load_path (path : string) : M World unit :=
  errorHandler_Clear;;
  match fopen env path with
  | inl msg => errorHandler_SetError msg
  | inr file =>
      if negb (seek_end_ok file) then
        ERROR_HANDLER_ERRNO "failed to detect format (seek to end)"
      else
        let fileSize := file_size file in
        if fileSize =? 0 then
          ERROR_HANDLER_ERRNO "failed to detect format (empty file)"
        else if negb (seek_begin_ok file) then
          ERROR_HANDLER_ERRNO "failed to detect format (seek to begin)"
        else
          let readSize := if 16 <? fileSize then 16 else fileSize in
          match fread file readSize with
          | None => ERROR_HANDLER_ERRNO "Failed to detect format (read file)"
          | Some magicNumberBuffer =>
              if IsWebPFileData env magicNumberBuffer then LoadWebPFromFile path
              else if IsJpegFileData env magicNumberBuffer then LoadJpegFromFile path
              else LoadFromFile path
          end
  end.

(** [ImageAsset::Load(uint8_t* fileData, size_t size)]; the byte range is
    passed as the bytes it holds. *)
Definition Load_data (fileData : list Byte.byte) : M World unit :=
  errorHandler_Clear;;
  if IsWebPFileData env fileData then LoadWebP fileData
  else if IsJpegFileData env fileData then LoadJpeg fileData
  else LoadFile fileData.

End Loading.

(** [ImageAsset::GetError]. *)
Definition GetError : M World string :=
  a ← this; mret (ErrorHandler.GetError (errorHandler_ a)).

(** [ImageAsset::GetWidth]. *)
Definition GetWidth : M World Z :=
  errorHandler_Clear;;
  a ← this;
  if is_null (buffer (buffer_ a)) then
    errorHandler_SetError ERROR_STR_IMAGE_NOT_LOADED;; mret (-1)
  else mret (width_ a).

(** [ImageAsset::GetHeight]. *)
Definition GetHeight : M World Z :=
  errorHandler_Clear;;
  a ← this;
  if is_null (buffer (buffer_ a)) then
    errorHandler_SetError ERROR_STR_IMAGE_NOT_LOADED;; mret (-1)
  else mret (height_ a).

(** [ImageAsset::GetChannelCount]. *)
Definition GetChannelCount : M World Z :=
  errorHandler_Clear;;
  a ← this;
  if is_null (buffer (buffer_ a)) then
    errorHandler_SetError ERROR_STR_IMAGE_NOT_LOADED;; mret (-1)
  else mret (channelCount_ a).

(** [ImageAsset::Clip]. *)
Definition Clip (x y width height : Z) : M World unit :=
  errorHandler_Clear;;
  a ← this;
  if is_null (buffer (buffer_ a)) then
    errorHandler_SetError ERROR_STR_IMAGE_NOT_LOADED
  else
    let srcStrideSize := Int.int32 (width_ a * channelCount_ a) in
    let newStrideSize := Int.int32 (width * channelCount_ a) in
    let startLine := Int.int32 (Int.int32 (height_ a - y) - height) in
    let endLine := Int.int32 (height_ a - y) in
    let startPixel := x in
    let endPixel := Int.int32 (x + width) in
    if (startLine <? 0) || (height_ a <? startLine) ||
       (endLine <? 0) || (height_ a <? endLine) ||
       (startPixel <? 0) || (width_ a <? startPixel) ||
       (endPixel <? 0) || (width_ a <? endPixel) then
      errorHandler_SetError ERROR_STR_IMAGE_SIZE_OVERFLOW
    else
      newBuffer ← on_mem (AllocateBuffer
                     (Int.size_t (Int.int32 (width * height * channelCount_ a))));
      on_mem (for_loop (Z.to_nat height) 0 (λ iy,
        memcpy (ptr_add (buffer newBuffer) (Int.int32 (newStrideSize * iy)))
               (ptr_add (ptr_add (buffer (buffer_ a))
                                 (Int.int32 (srcStrideSize * Int.int32 (iy + startLine))))
                        (Int.int32 (x * channelCount_ a)))
               (Int.size_t newStrideSize)));;
      ReleaseBuffer_;;
      set_this (with_buffer newBuffer);;
      set_this (with_width width);;
      set_this (with_height height).

(** [ImageAsset::Resize]. *)
Definition Resize (width height : Z) : M World unit :=
  errorHandler_Clear;;
  a ← this;
  if is_null (buffer (buffer_ a)) then
    errorHandler_SetError ERROR_STR_IMAGE_NOT_LOADED
  else
    newBuffer ← on_mem (AllocateBuffer
                   (Int.size_t (Int.int32 (width * height * channelCount_ a))));
    (if channelCount_ a =? 3 then
       on_mem (ScaleImage 3 (buffer (buffer_ a)) (buffer newBuffer)
                 (Int.uint32 (width_ a)) (Int.uint32 (height_ a))
                 (Int.uint32 width) (Int.uint32 height))
     else if channelCount_ a =? 4 then
       on_mem (ScaleImage 4 (buffer (buffer_ a)) (buffer newBuffer)
                 (Int.uint32 (width_ a)) (Int.uint32 (height_ a))
                 (Int.uint32 width) (Int.uint32 height))
     else mret tt);;
    set_this (with_width width);;
    set_this (with_height height);;
    ReleaseBuffer_;;
    set_this (with_buffer newBuffer).

(** [ImageAsset::Unload]. *)
Definition Unload : M World unit :=
  errorHandler_Clear;;
  a ← this;
  if is_null (buffer (buffer_ a)) then
    errorHandler_SetError ERROR_STR_IMAGE_NOT_LOADED
  else
    ReleaseBuffer_;;
    set_this (with_width 0);;
    set_this (with_height 0);;
    set_this (with_channelCount 0).

(** [ImageAsset::CopyTo]. *)
Definition CopyTo (dest : ptr) : M World unit :=
  errorHandler_Clear;;
  a ← this;
  if is_null (buffer (buffer_ a)) then
    errorHandler_SetError ERROR_STR_IMAGE_NOT_LOADED
  else
    on_mem (memcpy dest (buffer (buffer_ a))
              (Int.size_t (Int.int32 (width_ a * height_ a * channelCount_ a)))).

(** [ImageAsset::Clone() const]: the new object is returned; [this] is left as
    it is, and the memory is the one the load on the new object leaves. *)
Definition Clone : M World ImageAsset :=
  λ w,
    let a := self w in
    match Load_pixels (buffer (buffer_ a))
            (Int.size_t (Int.int32 (width_ a * height_ a * channelCount_ a)))
            (width_ a) (height_ a) (channelCount_ a)
            {| mem := mem w; self := new_ImageAsset |} with
    | Done _ w' => Done (self w') {| mem := mem w'; self := a |}
    | Crash f w' => Crash f {| mem := mem w'; self := a |}
    end.

(** ** Reading a world *)

(** The bytes the asset's buffer points at (none for a null buffer). *)
Definition pixels_of (w : World) : list mbyte :=
  match buffer (buffer_ (self w)) with
  | Null => []
  | Ptr b o =>
      match mem w !! b with
      | Some cs => drop (Z.to_nat o) cs
      | None => []
      end
  end.

Definition error_of (w : World) : string :=
  ErrorHandler.error_ (errorHandler_ (self w)).

Definition calls_of (w : World) : list ErrorHandler.event :=
  ErrorHandler.calls (errorHandler_ (self w)).

(** An asset is loaded when its buffer pointer is not null. *)
Definition loaded (a : ImageAsset) : Prop := is_null (buffer (buffer_ a)) = false.
Definition unloaded (a : ImageAsset) : Prop := is_null (buffer (buffer_ a)) = true.

(** Everything of an asset but its error channel. *)
Definition same_image (a a' : ImageAsset) : Prop :=
  buffer_ a' = buffer_ a ∧ width_ a' = width_ a ∧ height_ a' = height_ a ∧
  channelCount_ a' = channelCount_ a.

(** The buffer of the asset is null or the start of a live block: what
    [ReleaseBuffer] needs. *)
Definition owns_buffer (w : World) : Prop :=
  match buffer (buffer_ (self w)) with
  | Null => True
  | Ptr b o => o = 0 ∧ is_Some (mem w !! b)
  end.

(** A loaded image: the buffer is the live block [b], which holds [cells],
    exactly width x height x channelCount bytes, a size that fits an [int]. *)
Record image (w : World) (b : loc) (cells : list mbyte) : Prop := {
  image_buffer : buffer (buffer_ (self w)) = Ptr b 0;
  image_block : mem w !! b = Some cells;
  image_width : 0 ≤ width_ (self w) ≤ Int.INT_MAX;
  image_height : 0 ≤ height_ (self w) ≤ Int.INT_MAX;
  image_channels : 0 ≤ channelCount_ (self w) ≤ Int.INT_MAX;
  image_size :
    width_ (self w) * height_ (self w) * channelCount_ (self w) ≤ Int.INT_MAX;
  image_length :
    Z.of_nat (length cells)
    = width_ (self w) * height_ (self w) * channelCount_ (self w)
}.

(** Byte [i] of the pixel in row [row], column [col] of an image that is
    [width] pixels wide with [channels] bytes per pixel. *)
Definition byte_at (cells : list mbyte) (width channels row col i : Z)
    : option mbyte :=
  cells !! Z.to_nat ((row * width + col) * channels + i).

(** An argument of type [int32_t]. *)
Definition is_int32 (z : Z) : Prop := Int.INT_MIN ≤ z ≤ Int.INT_MAX.

(** The range test of [Clip] as the specification words it: start line, end
    line, start pixel and end pixel within the image. *)
Definition clip_in_range (W H x y w h : Z) : Prop :=
  0 ≤ H - y - h ≤ H ∧ 0 ≤ H - y ≤ H ∧ 0 ≤ x ≤ W ∧ 0 ≤ x + w ≤ W.

(** The source coordinate [ScaleImage] computes for destination coordinate
    [i]: [(int) (i * ((float) src / (float) dest))]. *)
Definition nearest (src dest i : Z) : Z :=
  Float32.to_int
    (Float32.mul (Float32.of_Z i)
       (Float32.div (Float32.of_Z src) (Float32.of_Z dest))).

(** The source coordinate as the specification words it:
    floor(i * src / dest). *)
Definition floor_coordinate (src dest i : Z) : Z := (i * src) `div` dest.

(** ** Calls *)

(** A call of a public member function that works on [this] in place. *)
Inductive call : Type :=
| CallLoadPath (path : string)
| CallLoadData (fileData : list Byte.byte)
| CallLoadPixels (pixelData : ptr) (size width height channelCount : Z)
| CallGetWidth
| CallGetHeight
| CallGetChannelCount
| CallClip (x y width height : Z)
| CallResize (width height : Z)
| CallUnload
| CallCopyTo (dest : ptr).

(** Make the call; the result is the [int32_t] returned, if any. *)
Definition perform (env : Env) (c : call) : M World (option Z) :=
  match c with
  | CallLoadPath path => Load_path env path;; mret (@None Z)
  | CallLoadData fileData => Load_data env fileData;; mret (@None Z)
  | CallLoadPixels pixelData size width height channelCount =>
      Load_pixels pixelData size width height channelCount;; mret (@None Z)
  | CallGetWidth => z ← GetWidth; mret (Some z)
  | CallGetHeight => z ← GetHeight; mret (Some z)
  | CallGetChannelCount => z ← GetChannelCount; mret (Some z)
  | CallClip x y width height => Clip x y width height;; mret (@None Z)
  | CallResize width height => Resize width height;; mret (@None Z)
  | CallUnload => Unload;; mret (@None Z)
  | CallCopyTo dest => CopyTo dest;; mret (@None Z)
  end.

(** Calls one after the other. *)
Fixpoint perform_all (env : Env) (cs : list call) : M World unit :=
  match cs with
  | [] => mret tt
  | c :: cs' => perform env c;; perform_all env cs'
  end.

(** The member functions that test for a loaded buffer on entry. *)
Definition tests_loaded (c : call) : bool :=
  match c with
  | CallGetWidth | CallGetHeight | CallGetChannelCount
  | CallClip _ _ _ _ | CallResize _ _ | CallUnload | CallCopyTo _ => true
  | _ => false
  end.

(** What such a member function returns on an unloaded asset. *)
Definition sentinel (c : call) : option Z :=
  match c with
  | CallGetWidth | CallGetHeight | CallGetChannelCount => Some (-1)
  | _ => None
  end.

(** The block a pointer points into. *)
Definition block_of (p : ptr) : option loc :=
  match p with Null => None | Ptr b _ => Some b end.

(** A call that writes to memory the caller names writes outside of block
    [b]. *)
Definition writes_outside (b : loc) (c : call) : Prop :=
  match c with
  | CallCopyTo dest => block_of dest ≠ Some b
  | _ => True
  end.

(** The memory once the asset's buffer has been released. *)
Definition release (w : World) : heap :=
  match buffer (buffer_ (self w)) with
  | Null => mem w
  | Ptr b _ => delete b (mem w)
  end.

(** The caller's buffer: [size] readable bytes [vs] at [p] (no memory is read
    for a size of zero). *)
Definition caller_bytes (h : heap) (p : ptr) (size : Z) (vs : list mbyte) : Prop :=
  if size =? 0 then vs = [] else load_cells h p size = Some vs.

(** ** Use of the error channel *)

(** The calls a failure makes on the error channel: one [SetError], or none. *)
Definition raised (o : option string) : list ErrorHandler.event :=
  match o with
  | Some msg => [ErrorHandler.Raised msg]
  | None => []
  end.

(** A computation that leaves the error channel alone. *)
Definition silent {A} (m : M World A) : Prop :=
  ∀ w, errorHandler_ (self (final (m w))) = errorHandler_ (self w).

(** From [w] to [w'] the error channel has seen some [Clear]s followed by at
    most one [SetError], after which nothing else was called; the slot holds
    what these calls leave in it. *)
Definition reported (w w' : World) : Prop :=
  ∃ k o,
    calls_of w' = calls_of w ++ replicate k ErrorHandler.Cleared ++ raised o ∧
    error_of w' = match o, k with
                  | Some msg, _ => msg
                  | None, O => error_of w
                  | None, S _ => EmptyString
                  end.

(** The same, with a [Clear] before anything else. *)
Definition cleared_first (w w' : World) : Prop :=
  ∃ k o,
    calls_of w' = calls_of w ++ replicate (S k) ErrorHandler.Cleared ++ raised o ∧
    error_of w' = match o with
                  | Some msg => msg
                  | None => EmptyString
                  end.

Definition reports {A} (m : M World A) : Prop :=
  ∀ w, reported w (final (m w)).

Definition clears_first {A} (m : M World A) : Prop :=
  ∀ w, cleared_first w (final (m w)).

(** ** Memory left alone *)

(** A pointer that does not point into block [b]. *)
Definition outside (b : loc) (p : ptr) : Prop := block_of p ≠ Some b.

(** Block [b] holds [cells] and is not where the buffer of the asset is. *)
Definition apart (b : loc) (cells : list mbyte) (w : World) : Prop :=
  mem w !! b = Some cells ∧ outside b (buffer (buffer_ (self w))).

(** A memory operation that leaves block [b] as it is, however it ends, and
    whose result satisfies [Q]. *)
Definition keeps (b : loc) {A} (m : M heap A) (Q : A → Prop) : Prop :=
  ∀ (h : heap) cells, h !! b = Some cells →
    match m h with
    | Done a h' => h' !! b = Some cells ∧ Q a
    | Crash _ h' => h' !! b = Some cells
    end.

(** The same for a member function running on an asset whose buffer is
    elsewhere. *)
Definition spares (b : loc) {A} (m : M World A) (Q : A → Prop) : Prop :=
  ∀ w cells, apart b cells w →
    match m w with
    | Done a w' => apart b cells w' ∧ Q a
    | Crash _ w' => apart b cells w'
    end.

(** ** Calls that leave no pixel *)

(** A raw-pixel load of no bytes, a clip in range that is zero pixels wide or
    high, or a resize to a width or a height of zero. *)
Definition yields_nothing (w : World) (c : call) : Prop :=
  match c with
  | CallLoadPixels _ size _ _ _ => size = 0
  | CallClip x y width height =>
      loaded (self w) ∧
      is_int32 x ∧ is_int32 y ∧ is_int32 width ∧ is_int32 height ∧
      clip_in_range (width_ (self w)) (height_ (self w)) x y width height ∧
      (width = 0 ∨ height = 0)
  | CallResize width height =>
      loaded (self w) ∧
      0 ≤ width ≤ Int.INT_MAX ∧ 0 ≤ height ≤ Int.INT_MAX ∧
      (width = 0 ∨ height = 0)
  | _ => False
  end.

(** The width and height such a call asks for. *)
Definition asked_size (c : call) : Z * Z :=
  match c with
  | CallLoadPixels _ _ width height _ => (width, height)
  | CallClip _ _ width height => (width, height)
  | CallResize width height => (width, height)
  | _ => (0, 0)
  end.

(** ** The loaded test, as a check on an outcome *)

(** The call made in [w] ended normally with the error "image asset is not
    loaded" and changed nothing but the error channel. *)
Definition refused {A} (w : World) (o : outcome World A) : Prop :=
  ∃ a w', o = Done a w' ∧
          error_of w' = ERROR_STR_IMAGE_NOT_LOADED ∧
          same_image (self w) (self w') ∧ mem w' = mem w.

(** ** Scaling, as a relation between two images *)

(** Every byte of every pixel (ix, iy) of the new [dW] x [dH] image is the
    byte of the pixel of the old image that [coordinate] names. *)
Definition scaled_by (coordinate : Z → Z → Z → Z)
    (cells : list mbyte) (W H C : Z) (cells' : list mbyte) (dW dH : Z) : Prop :=
  ∀ ix iy i, 0 ≤ ix < dW → 0 ≤ iy < dH → 0 ≤ i < C →
    byte_at cells' dW C iy ix i
    = byte_at cells W C (coordinate H dH iy) (coordinate W dW ix) i.

(** ** Example worlds *)

Definition pixel (r g b : Byte.byte) : list mbyte := [Some r; Some g; Some b].

(** A world whose only block, block 1, is the buffer of an asset with the
    given dimensions and no error. *)
Definition image_world (cells : list mbyte) (width height channelCount : Z) : World :=
  {| mem := {[ 1%positive := cells ]};
     self := {| buffer_ := {| buffer := Ptr 1%positive 0; source := Self |};
                width_ := width; height_ := height;
                channelCount_ := channelCount;
                errorHandler_ := ErrorHandler.init |} |}.

(** A 2 x 2 RGB image. *)
Definition tiny_cells : list mbyte :=
  pixel Byte.x01 Byte.x02 Byte.x03 ++ pixel Byte.x04 Byte.x05 Byte.x06 ++
  pixel Byte.x07 Byte.x08 Byte.x09 ++ pixel Byte.x0a Byte.x0b Byte.x0c.
Definition tiny_world : World := image_world tiny_cells 2 2 3.

(** A 2 x 1 RGB image. *)
Definition pair_cells : list mbyte :=
  pixel Byte.x01 Byte.x02 Byte.x03 ++ pixel Byte.x04 Byte.x05 Byte.x06.
Definition pair_world : World := image_world pair_cells 2 1 3.

(** A single row of 2^24 + 2 RGB pixels, 48 MiB, all of them black but the
    last one. *)
Definition wide : Z := 16777218.
Definition wide_cells : list mbyte :=
  replicate (Z.to_nat (3 * (wide - 1))) (Some Byte.x00)
  ++ replicate 3 (Some Byte.xff).
Definition wide_world : World := image_world wide_cells wide 1 3.

(** A freshly constructed asset and no memory. *)
Definition empty_world : World := {| mem := ∅; self := new_ImageAsset |}.

(** The 2 x 2 image after a call that failed: the error is still set. *)
Definition stale_world : World :=
  {| mem := mem tiny_world;
     self := with_errorHandler
               (ErrorHandler.SetError ERROR_STR_IMAGE_SIZE_OVERFLOW
                  (ErrorHandler.Clear ErrorHandler.init))
               (self tiny_world) |}.

(** The 2 x 2 image next to a block of the caller, block 2, holding one
    pixel. *)
Definition caller_world : World :=
  {| mem := <[ 2%positive := pixel Byte.x10 Byte.x20 Byte.x30 ]> (mem tiny_world);
     self := self tiny_world |}.

(** An unloaded asset that still carries the dimensions 2 x 2 x 3: what a
    raw-pixel load of no bytes with these dimensions leaves. *)
Definition hollow_world : World :=
  {| mem := ∅;
     self := with_channelCount 3 (with_height 2 (with_width 2 new_ImageAsset)) |}.

(** The first bytes of a WebP file: the RIFF container header and the start
    of a VP8 chunk, and nothing after them. *)
Definition truncated_webp_file : list Byte.byte :=
  [Byte.x52; Byte.x49; Byte.x46; Byte.x46; Byte.x1a; Byte.x00; Byte.x00; Byte.x00;
   Byte.x57; Byte.x45; Byte.x42; Byte.x50; Byte.x56; Byte.x50; Byte.x38; Byte.x20].

(** Libraries as they answer on that file: it is recognised as WebP, its
    header gives 4 x 4 pixels, and decoding stops for lack of data
    ([VP8_STATUS_NOT_ENOUGH_DATA], 7) before any row is written.  There is no
    file system and no JPEG. *)
Definition truncated_webp : Env :=
  {| fopen := λ _, inl "No such file or directory";
     errno_message := λ msg, msg;
     IsWebPFileData := λ _, true;
     IsJpegFileData := λ _, false;
     stbi_load := λ _, inl "can't fopen";
     stbi_load_from_memory := λ _, inl "unknown image type";
     WebPGetInfo := λ _, Some (4, 4);
     WebPInitDecoderConfig := true;
     WebPGetFeatures := λ _, 0;
     WebPDecode := λ _, (7, []);
     tjInitTransform := None;
     tjInitDecompress := None;
     tjTransform := λ _, inl "Not a JPEG file";
     tjDecompressHeader3 := λ _, inl "Not a JPEG file";
     tjDecompress2 := λ _ _ _, inl "Not a JPEG file" |}.

(** ** Destruction *)

(** [ImageAsset::~ImageAsset]. *)
Definition destroy_ImageAsset : M World unit := ReleaseBuffer_.

(** ** Memory written through one pointer *)

(** From [h] to [h'] the same blocks are live, and no block has changed but,
    possibly, block [ob]. *)
Definition touches (ob : option loc) (h h' : heap) : Prop :=
  dom h' = dom h ∧ ∀ b, ob ≠ Some b → h' !! b = h !! b.

(** A memory operation that, however it ends, has written to block [ob] at
    most. *)
Definition confined (ob : option loc) {A} (m : M heap A) : Prop :=
  ∀ h, touches ob h (final (m h)).

(** ** Calls that keep the memory tidy *)

(** A member function that, on an asset that owns its buffer, leaves an asset
    that owns its buffer, even when it ends abnormally; that, when it returns,
    has neither leaked nor released any block, nor changed any block but the
    asset's buffer and block [ob]; and that, when it returns with an error,
    has left the memory and the buffer as they were. *)
Definition settled (ob : option loc) {A} (w : World) (o : outcome World A) : Prop :=
  match o with
  | Done _ w' =>
      owns_buffer w' ∧ touches ob (release w) (release w') ∧
      (error_of w' ≠ EmptyString →
       mem w' = mem w ∧ buffer_ (self w') = buffer_ (self w))
  | Crash _ w' => owns_buffer w'
  end.

Definition tidy (ob : option loc) {A} (m : M World A) : Prop :=
  ∀ w, owns_buffer w → settled ob w (m w).

(** The block of the caller a call writes to: the destination of [CopyTo]. *)
Definition target (c : call) : option loc :=
  match c with CallCopyTo dest => block_of dest | _ => None end.

(** ** A successful load *)

(** World [w'] is world [w] with the asset's buffer replaced: the asset holds
    the [width] x [height] image [pixels] with [channels] bytes per pixel, in
    a live block of origin [origin], with no error; the old buffer is
    released, and the rest of the memory is as it was. *)
Record reloaded (w w' : World) (origin : Source) (width height channels : Z)
    (pixels : list Byte.byte) : Prop := {
  reloaded_error : error_of w' = EmptyString;
  reloaded_width : width_ (self w') = width;
  reloaded_height : height_ (self w') = height;
  reloaded_channels : channelCount_ (self w') = channels;
  reloaded_source : source (buffer_ (self w')) = origin;
  reloaded_loaded : loaded (self w');
  reloaded_owns : owns_buffer w';
  reloaded_pixels : pixels_of w' = cells_of pixels;
  reloaded_rest : release w' = release w
}.

(** The file at [path] can be opened and read, and holds [bytes]. *)
Definition readable (env : Env) (path : string) (bytes : list Byte.byte) : Prop :=
  ∃ file, fopen env path = inr file ∧
          seek_end_ok file = true ∧ seek_begin_ok file = true ∧
          file_size file = Z.of_nat (length bytes) ∧
          file_data file = Some bytes ∧
          0 < file_size file ≤ Int.PTRDIFF_MAX.

(** ** Example files *)

(** A file that can be read and holds the given bytes. *)
Definition file_of (bytes : list Byte.byte) : File :=
  {| seek_end_ok := true; file_size := Z.of_nat (length bytes);
     seek_begin_ok := true; file_data := Some bytes |}.

Definition sample_webp : list Byte.byte :=
  truncated_webp_file ++ [Byte.x02; Byte.x00; Byte.x00; Byte.x00].
Definition sample_jpeg : list Byte.byte :=
  [Byte.xff; Byte.xd8; Byte.xff; Byte.xe0; Byte.x00; Byte.x10].
Definition sample_png : list Byte.byte :=
  [Byte.x89; Byte.x50; Byte.x4e; Byte.x47; Byte.x0d; Byte.x0a].

(** The rows of a 1 x 2 RGBA image, top row first, and one RGB pixel. *)
Definition sample_rows : list (list Byte.byte) :=
  [[Byte.x01; Byte.x02; Byte.x03; Byte.x04]; [Byte.x05; Byte.x06; Byte.x07; Byte.x08]].
Definition sample_pixel : list Byte.byte := [Byte.x09; Byte.x0a; Byte.x0b].

(** Three files and an empty one, and libraries that decode them: the WebP
    file to the 1 x 2 image, the JPEG file to the single RGB pixel, the PNG
    file to a single grey pixel. *)
Definition sample_files : Env :=
  {| fopen := λ path,
       if String.eqb path "a.webp" then inr (file_of sample_webp)
       else if String.eqb path "b.jpg" then inr (file_of sample_jpeg)
       else if String.eqb path "c.png" then inr (file_of sample_png)
       else if String.eqb path "empty" then inr (file_of [])
       else inl "No such file or directory";
     errno_message := λ msg, msg;
     IsWebPFileData := λ bytes,
       match bytes with Byte.x52 :: _ => true | _ => false end;
     IsJpegFileData := λ bytes,
       match bytes with Byte.xff :: _ => true | _ => false end;
     stbi_load := λ path,
       if String.eqb path "c.png"
       then inr {| stb_width := 1; stb_height := 1; stb_channels := 1;
                   stb_pixels := [Byte.x80] |}
       else inl "can't fopen";
     stbi_load_from_memory := λ bytes,
       match bytes with
       | Byte.x89 :: _ => inr {| stb_width := 1; stb_height := 1; stb_channels := 1;
                                 stb_pixels := [Byte.x80] |}
       | _ => inl "unknown image type"
       end;
     WebPGetInfo := λ _, Some (1, 2);
     WebPInitDecoderConfig := true;
     WebPGetFeatures := λ _, 0;
     WebPDecode := λ _, (0, sample_rows);
     tjInitTransform := None;
     tjInitDecompress := None;
     tjTransform := λ bytes, inr bytes;
     tjDecompressHeader3 := λ _, inr (1, 1);
     tjDecompress2 := λ _ _ _, inr sample_pixel |}.

(** The 2 x 2 image next to a block of the caller, block 2, with room for
    its 12 bytes. *)
Definition room_world : World :=
  {| mem := <[ 2%positive := replicate 12 None ]> (mem tiny_world);
     self := self tiny_world |}.

(** * Properties *)

(** ** Machine integers *)

Lemma int32_id (z : Z) : is_int32 z → Int.int32 z = z.
Proof.
  unfold is_int32, Int.int32, Int.INT_MIN, Int.INT_MAX. intros Hz.
  rewrite Z.mod_small; lia.
Qed.

Lemma int32_range (z : Z) : is_int32 (Int.int32 z).
Proof.
  unfold is_int32, Int.int32, Int.INT_MIN, Int.INT_MAX.
  pose proof (Z.mod_pos_bound (z + 2 ^ 31) (2 ^ 32)). lia.
Qed.

Lemma int32_eq_mod (z : Z) : ∃ k, Int.int32 z = z + k * 2 ^ 32.
Proof.
  unfold Int.int32. exists (- ((z + 2 ^ 31) `div` 2 ^ 32)).
  pose proof (Z.div_mod (z + 2 ^ 31) (2 ^ 32)). lia.
Qed.

Lemma uint32_id (z : Z) : 0 ≤ z < 2 ^ 32 → Int.uint32 z = z.
Proof. intros. unfold Int.uint32. rewrite Z.mod_small; lia. Qed.

Lemma size_t_id (z : Z) : 0 ≤ z < 2 ^ 64 → Int.size_t z = z.
Proof. intros. unfold Int.size_t. rewrite Z.mod_small; lia. Qed.

(** ** The monad *)

Lemma bind_Done {S A B} (m : M S A) (k : A → M S B) s a s' :
  m s = Done a s' → (m ≫= k) s = k a s'.
Proof. intros H. unfold mbind, M_bind. by rewrite H. Qed.

Lemma bind_Crash {S A B} (m : M S A) (k : A → M S B) s f s' :
  m s = Crash f s' → (m ≫= k) s = Crash f s'.
Proof. intros H. unfold mbind, M_bind. by rewrite H. Qed.

Lemma on_mem_Done {A} (m : M heap A) w a h :
  m (mem w) = Done a h → on_mem m w = Done a {| mem := h; self := self w |}.
Proof. intros H. unfold on_mem. by rewrite H. Qed.

(** A loop whose body keeps an invariant and does not fail runs to its end. *)
Lemma for_loop_invariant {St} (I : Z → St → Prop) (body : Z → M St unit) n i0 s :
  i0 + Z.of_nat n ≤ Int.INT_MAX →
  I i0 s →
  (∀ i t, i0 ≤ i < i0 + Z.of_nat n → I i t →
          ∃ t', body i t = Done tt t' ∧ I (i + 1) t') →
  ∃ s', for_loop n i0 body s = Done tt s' ∧ I (i0 + Z.of_nat n) s'.
Proof.
  revert i0 s. induction n as [|n IH]; intros i0 s Hmax Hinv Hbody.
  - exists s. simpl for_loop.
    destruct (Int.INT_MAX <? i0) eqn:Hlt; [apply Z.ltb_lt in Hlt; lia|].
    split; [done|]. by replace (i0 + Z.of_nat 0) with i0 by lia.
  - simpl for_loop.
    destruct (Int.INT_MAX <? i0) eqn:Hlt; [apply Z.ltb_lt in Hlt; lia|].
    destruct (Hbody i0 s) as (t & Hrun & Ht); [lia|done|].
    destruct (IH (i0 + 1) t) as (s' & Hloop & Hs'); [lia|done| |].
    + intros i u Hi Hu. apply Hbody; [lia|done].
    + exists s'. split.
      * by rewrite (bind_Done _ _ _ _ _ Hrun).
      * by replace (i0 + Z.of_nat (S n)) with (i0 + 1 + Z.of_nat n) by lia.
Qed.

(** ** Memory *)

Lemma load_cells_Some h b o n cs :
  h !! b = Some cs → 0 ≤ o → 0 ≤ n → o + n ≤ Z.of_nat (length cs) →
  load_cells h (Ptr b o) n = Some (take (Z.to_nat n) (drop (Z.to_nat o) cs)).
Proof.
  intros Hb Ho Hn Hlen. unfold load_cells. rewrite Hb.
  rewrite !(proj2 (Z.leb_le _ _)); [done|lia..].
Qed.

Lemma store_cells_Some h b o vs cs :
  h !! b = Some cs → 0 ≤ o → o + Z.of_nat (length vs) ≤ Z.of_nat (length cs) →
  store_cells h (Ptr b o) vs
  = Some (<[b := take (Z.to_nat o) cs ++ vs ++ drop (Z.to_nat o + length vs) cs]> h).
Proof.
  intros Hb Ho Hlen. unfold store_cells. rewrite Hb.
  rewrite !(proj2 (Z.leb_le _ _)); [done|lia..].
Qed.

Lemma memcpy_zero dst src h : memcpy dst src 0 h = Done tt h.
Proof. done. Qed.

Lemma memcpy_Done h bd od bs os n cs ds :
  0 < n → h !! bs = Some cs → h !! bd = Some ds →
  0 ≤ os → os + n ≤ Z.of_nat (length cs) →
  0 ≤ od → od + n ≤ Z.of_nat (length ds) →
  memcpy (Ptr bd od) (Ptr bs os) n h
  = Done tt (<[bd := take (Z.to_nat od) ds
                     ++ take (Z.to_nat n) (drop (Z.to_nat os) cs)
                     ++ drop (Z.to_nat (od + n)) ds]> h).
Proof.
  intros Hn Hs Hd Hos Hslen Hod Hdlen. unfold memcpy.
  destruct (n =? 0) eqn:E; [apply Z.eqb_eq in E; lia|].
  rewrite (load_cells_Some _ _ _ _ _ Hs) by lia.
  assert (Hl : length (take (Z.to_nat n) (drop (Z.to_nat os) cs)) = Z.to_nat n).
  { rewrite length_take, length_drop. lia. }
  rewrite (store_cells_Some _ _ _ _ _ Hd); [|lia|rewrite Hl; lia].
  rewrite Hl. by replace (Z.to_nat od + Z.to_nat n)%nat with (Z.to_nat (od + n)) by lia.
Qed.

Lemma new_array_Done size h :
  size ≤ Int.PTRDIFF_MAX →
  new_array size h
  = Done (Ptr (fresh (dom h)) 0)
         (<[fresh (dom h) := replicate (Z.to_nat size) None]> h).
Proof.
  intros Hs. unfold new_array.
  destruct (Int.PTRDIFF_MAX <? size) eqn:E; [apply Z.ltb_lt in E; lia|done].
Qed.

Lemma fresh_not_live (h : heap) : h !! fresh (dom h) = None.
Proof. apply not_elem_of_dom, is_fresh. Qed.

Lemma fresh_ne_live (h : heap) b : is_Some (h !! b) → fresh (dom h) ≠ b.
Proof.
  intros Hb Heq. rewrite <- Heq, fresh_not_live in Hb. by destruct Hb.
Qed.

Lemma free_block_Done h b cs :
  h !! b = Some cs → free_block (Ptr b 0) h = Done tt (delete b h).
Proof. intros Hb. unfold free_block. by rewrite Hb. Qed.

(** ** Clip *)

(** The row loop of [Clip]: [n] rows of [ns] bytes each, row [r] taken from
    offset [(r + sl) * ss + xo] of the source block. *)
Lemma clip_rows (h : heap) b b' cells ns ss sl xo n d0 :
  b ≠ b' → h !! b = Some cells → h !! b' = Some d0 →
  0 < ns → 0 ≤ ss → 0 ≤ sl → 0 ≤ xo → 0 ≤ n →
  Z.of_nat (length d0) = n * ns →
  n * ns ≤ Int.INT_MAX →
  (sl + n) * ss ≤ Int.INT_MAX →
  xo + ns ≤ ss →
  (sl + n) * ss ≤ Z.of_nat (length cells) →
  ∃ d, for_loop (Z.to_nat n) 0 (λ iy,
         memcpy (ptr_add (Ptr b' 0) (Int.int32 (ns * iy)))
                (ptr_add (ptr_add (Ptr b 0) (Int.int32 (ss * Int.int32 (iy + sl))))
                         (Int.int32 xo))
                (Int.size_t ns)) h
       = Done tt (<[b' := d]> h) ∧
       Z.of_nat (length d) = n * ns ∧
       ∀ r k, 0 ≤ r < n → 0 ≤ k < ns →
              d !! Z.to_nat (r * ns + k) = cells !! Z.to_nat ((r + sl) * ss + xo + k).
Proof.
  intros Hne Hb Hb' Hns Hss Hsl Hxo Hn Hlen0 Hmax Hsmax Hrow Hsrc.
  pose (I := λ (iy : Z) (t : heap),
    ∃ d, t = <[b' := d]> h ∧ Z.of_nat (length d) = n * ns ∧
         ∀ r k, 0 ≤ r < iy → 0 ≤ k < ns →
                d !! Z.to_nat (r * ns + k)
                = cells !! Z.to_nat ((r + sl) * ss + xo + k)).
  destruct (for_loop_invariant I
    (λ iy, memcpy (ptr_add (Ptr b' 0) (Int.int32 (ns * iy)))
             (ptr_add (ptr_add (Ptr b 0) (Int.int32 (ss * Int.int32 (iy + sl))))
                      (Int.int32 xo))
             (Int.size_t ns)) (Z.to_nat n) 0 h) as (t & Hrun & d & -> & Hlen & Hd).
  - unfold Int.INT_MAX in *. nia.
  - exists d0. split; [by rewrite insert_id|]. split; [done|]. intros; lia.
  - intros iy t Hiy (d & -> & Hlen & Hd).
    assert (Hiy' : 0 ≤ iy < n) by lia.
    assert (E1 : Int.int32 (ns * iy) = ns * iy).
    { apply int32_id. unfold is_int32, Int.INT_MIN, Int.INT_MAX in *. nia. }
    assert (E2 : Int.int32 (iy + sl) = iy + sl).
    { apply int32_id. unfold is_int32, Int.INT_MIN, Int.INT_MAX in *. nia. }
    assert (E3 : Int.int32 (ss * (iy + sl)) = ss * (iy + sl)).
    { apply int32_id. unfold is_int32, Int.INT_MIN, Int.INT_MAX in *. nia. }
    assert (E4 : Int.int32 xo = xo).
    { apply int32_id. unfold is_int32, Int.INT_MIN, Int.INT_MAX in *. nia. }
    assert (E5 : Int.size_t ns = ns).
    { apply size_t_id. unfold Int.INT_MAX in *. nia. }
    rewrite E1, E2, E3, E4, E5. simpl ptr_add.
    erewrite memcpy_Done;
      [ | done | by rewrite lookup_insert_ne | by rewrite lookup_insert_eq | nia.. ].
    eexists. split; [done|]. rewrite insert_insert_eq.
    eexists. split; [done|].
    assert (Hmid : length (take (Z.to_nat ns)
                     (drop (Z.to_nat (0 + ss * (iy + sl) + xo)) cells)) = Z.to_nat ns).
    { rewrite length_take, length_drop. nia. }
    split.
    { rewrite !length_app, Hmid, length_take, length_drop. nia. }
    intros r k Hr Hk.
    destruct (Z.lt_ge_cases r iy) as [Hlt|Hge].
    + rewrite lookup_app_l by (rewrite length_take; nia).
      rewrite lookup_take_lt by nia. apply Hd; lia.
    + assert (r = iy) as -> by lia.
      rewrite lookup_app_r by (rewrite length_take; nia).
      rewrite length_take.
      rewrite lookup_app_l by (rewrite Hmid; nia).
      rewrite lookup_take_lt by nia. rewrite lookup_drop. f_equal. nia.
  - exists d. split; [done|]. split; [done|].
    intros r k Hr Hk. apply Hd; lia.
Qed.

Lemma ReleaseBuffer__loaded w b cs :
  buffer (buffer_ (self w)) = Ptr b 0 → mem w !! b = Some cs →
  ReleaseBuffer_ w
  = Done tt {| mem := delete b (mem w);
               self := with_buffer {| buffer := Null;
                                      source := source (buffer_ (self w)) |}
                                   (self w) |}.
Proof.
  intros Hbuf Hblk. unfold ReleaseBuffer_, mbind, M_bind, this, on_mem, ReleaseBuffer.
  rewrite Hbuf. simpl. unfold mbind, M_bind.
  destruct (source (buffer_ (self w)));
    by rewrite (free_block_Done _ _ _ Hblk).
Qed.

Lemma ReleaseBuffer__unloaded w :
  buffer (buffer_ (self w)) = Null →
  ReleaseBuffer_ w = Done tt {| mem := mem w; self := with_buffer (buffer_ (self w)) (self w) |}.
Proof.
  intros Hbuf. unfold ReleaseBuffer_, mbind, M_bind, this, on_mem, ReleaseBuffer.
  by rewrite Hbuf.
Qed.

Lemma AllocateBuffer_zero h :
  AllocateBuffer 0 h = Done {| buffer := Null; source := Self |} h.
Proof. done. Qed.

Lemma AllocateBuffer_pos size (h : heap) :
  0 < size ≤ Int.PTRDIFF_MAX →
  AllocateBuffer size h
  = Done {| buffer := Ptr (fresh (dom h)) 0; source := Self |}
         (<[fresh (dom h) := replicate (Z.to_nat size) None]> h).
Proof.
  intros Hs. unfold AllocateBuffer.
  destruct (size =? 0) eqn:E; [apply Z.eqb_eq in E; lia|].
  unfold mbind, M_bind. by rewrite new_array_Done by lia.
Qed.

(** A loop of copies of no bytes changes nothing. *)
Lemma for_loop_memcpy_zero n (dst src : Z → ptr) (h : heap) :
  Z.of_nat n ≤ Int.INT_MAX →
  for_loop n 0 (λ iy, memcpy (dst iy) (src iy) 0) h = Done tt h.
Proof.
  intros Hn.
  destruct (for_loop_invariant (λ _ t, t = h)
              (λ iy, memcpy (dst iy) (src iy) 0) n 0 h) as (t & Hrun & ->);
    [lia|done| |done].
  intros i t _ ->. by exists h.
Qed.

(** The range test of [Clip] lets through exactly the calls that are in
    range. *)
Lemma Clip_test W H x y cw ch :
  is_int32 W → is_int32 H →
  is_int32 x → is_int32 y → is_int32 cw → is_int32 ch →
  ((Int.int32 (Int.int32 (H - y) - ch) <? 0)
   || (H <? Int.int32 (Int.int32 (H - y) - ch))
   || (Int.int32 (H - y) <? 0)
   || (H <? Int.int32 (H - y)) ||
   (x <? 0) || (W <? x) || (Int.int32 (x + cw) <? 0)
   || (W <? Int.int32 (x + cw))) = false
  ↔ clip_in_range W H x y cw ch.
Proof.
  intros HW HH Hx Hy Hcw Hch. unfold clip_in_range.
  rewrite !orb_false_iff, !Z.ltb_ge.
  unfold is_int32, Int.INT_MIN, Int.INT_MAX in *.
  destruct (int32_eq_mod (H - y)) as [k1 E1].
  destruct (int32_eq_mod (Int.int32 (H - y) - ch)) as [k2 E2].
  destruct (int32_eq_mod (x + cw)) as [k3 E3].
  pose proof (int32_range (H - y)) as R1.
  pose proof (int32_range (Int.int32 (H - y) - ch)) as R2.
  pose proof (int32_range (x + cw)) as R3.
  unfold is_int32, Int.INT_MIN, Int.INT_MAX in *.
  split.
  - intros (((((((A1 & A2) & A3) & A4) & A5) & A6) & A7) & A8).
    assert (k1 = 0) by lia. assert (k3 = 0) by lia. subst k1 k3.
    assert (k2 = 0) by lia. lia.
  - intros (B1 & B2 & B3 & B4).
    assert (k1 = 0) by lia. subst k1.
    assert (k2 = 0) by lia. assert (k3 = 0) by lia. lia.
Qed.

Lemma Clip_in_range w b cells x y cw ch :
  image w b cells →
  0 ≤ cw → 0 ≤ ch →
  clip_in_range (width_ (self w)) (height_ (self w)) x y cw ch →
  ∃ w', Clip x y cw ch w = Done tt w' ∧
        error_of w' = EmptyString ∧
        width_ (self w') = cw ∧ height_ (self w') = ch ∧
        channelCount_ (self w') = channelCount_ (self w) ∧
        mem w' !! b = None ∧
        (cw * ch * channelCount_ (self w) = 0 ↔ unloaded (self w')) ∧
        Z.of_nat (length (pixels_of w')) = cw * ch * channelCount_ (self w) ∧
        ∀ r c i, 0 ≤ r < ch → 0 ≤ c < cw → 0 ≤ i < channelCount_ (self w) →
          byte_at (pixels_of w') cw (channelCount_ (self w)) r c i
          = byte_at cells (width_ (self w)) (channelCount_ (self w))
              (height_ (self w) - y - ch + r) (x + c) i.
Proof.
  intros [Hbuf Hblk HW HH HC Hsize Hlen] Hcw Hch Hrange.
  destruct w as [h [[p src] W H C e]]. simpl in *. subst p.
  assert (Hx : is_int32 x ∧ is_int32 y ∧ is_int32 cw ∧ is_int32 ch).
  { unfold clip_in_range, is_int32, Int.INT_MIN, Int.INT_MAX in *. lia. }
  destruct Hx as (Hx & Hy & Hcw' & Hch').
  assert (HW' : is_int32 W) by (unfold is_int32, Int.INT_MIN, Int.INT_MAX in *; lia).
  assert (HH' : is_int32 H) by (unfold is_int32, Int.INT_MIN, Int.INT_MAX in *; lia).
  pose proof (proj2 (Clip_test W H x y cw ch HW' HH' Hx Hy Hcw' Hch') Hrange) as Htest.
  destruct Hrange as (Hsl & Hel & Hsp & Hep).
  unfold Clip, mbind, M_bind, errorHandler_Clear, set_this, this. simpl.
  rewrite Htest.
  assert (E1 : Int.int32 (H - y) = H - y).
  { apply int32_id. unfold is_int32, Int.INT_MIN, Int.INT_MAX in *. lia. }
  assert (E2 : Int.int32 (H - y - ch) = H - y - ch).
  { apply int32_id. unfold is_int32, Int.INT_MIN, Int.INT_MAX in *. lia. }
  rewrite E1, E2.
  assert (Htot : 0 ≤ cw * ch * C ≤ W * H * C).
  { split; [nia|]. unfold Int.INT_MAX in *.
    assert (cw * ch ≤ W * H) by nia. nia. }
  assert (E3 : Int.size_t (Int.int32 (cw * ch * C)) = cw * ch * C).
  { rewrite int32_id by (unfold is_int32, Int.INT_MIN, Int.INT_MAX in *; lia).
    apply size_t_id. unfold Int.INT_MAX in *. lia. }
  rewrite E3.
  destruct (Z.eq_dec (cw * ch * C) 0) as [Hz|Hnz].
  - (* nothing to copy: no block is allocated *)
    rewrite Hz. unfold on_mem at 1. simpl mem. rewrite AllocateBuffer_zero. simpl.
    assert (Hloop : ∀ (dst src : Z → ptr) sz, (ch = 0 ∨ sz = 0) →
              for_loop (Z.to_nat ch) 0 (λ iy, memcpy (dst iy) (src iy) sz) h
              = Done tt h).
    { intros dst src0 sz [->| ->]; [done|].
      apply for_loop_memcpy_zero. unfold is_int32, Int.INT_MAX in *. lia. }
    erewrite on_mem_Done; last first.
    { simpl mem. apply Hloop.
      destruct (Z.eq_dec ch 0) as [->|Hch0]; [by left|right].
      assert (cw * C = 0) as -> by nia. done. }
    simpl. erewrite ReleaseBuffer__loaded by done. simpl.
    eexists. split; [done|]. unfold error_of, pixels_of, unloaded, byte_at; simpl.
    rewrite lookup_delete_eq.
    repeat split; try done; try lia.
    intros r c i Hr Hc Hi. exfalso.
    assert (0 < cw * ch) by nia. nia.
  - (* a fresh block receives the rows *)
    assert (Hpos : 0 < cw ∧ 0 < ch ∧ 0 < C) by nia.
    destruct Hpos as (Hcw0 & Hch0 & HC0).
    assert (HWC : W * C ≤ W * H * C) by nia.
    assert (E4 : Int.int32 (cw * C) = cw * C).
    { apply int32_id. unfold is_int32, Int.INT_MIN, Int.INT_MAX in *. nia. }
    assert (E5 : Int.int32 (W * C) = W * C).
    { apply int32_id. unfold is_int32, Int.INT_MIN, Int.INT_MAX in *. nia. }
    rewrite E4, E5.
    unfold on_mem at 1. simpl mem.
    rewrite AllocateBuffer_pos by (unfold Int.INT_MAX, Int.PTRDIFF_MAX in *; lia).
    simpl.
    set (b' := fresh (dom h)).
    assert (Hne : b ≠ b') by (symmetry; apply fresh_ne_live; eauto).
    set (h1 := <[b' := replicate (Z.to_nat (cw * ch * C)) None]> h).
    destruct (clip_rows h1 b b' cells (cw * C) (W * C) (H - y - ch) (x * C) ch
                (replicate (Z.to_nat (cw * ch * C)) None))
      as (d & Hrun & Hdlen & Hd).
    all: try (unfold h1; by rewrite ?lookup_insert_eq, ?lookup_insert_ne by done).
    all: try (match goal with
              | |- _ ≤ _ => idtac | |- _ < _ => idtac | |- @eq Z _ _ => idtac
              end; rewrite ?length_replicate; unfold Int.INT_MAX in *; nia).
    erewrite on_mem_Done; last first.
    { simpl mem. fold h1.
      replace (λ iy : Z, memcpy (Ptr b' (0 + Int.int32 (cw * C * iy)))
                 (Ptr b (0 + Int.int32 (W * C * Int.int32 (iy + (H - y - ch)))
                           + Int.int32 (x * C))) (Int.size_t (cw * C)))
        with (λ iy : Z, memcpy (ptr_add (Ptr b' 0) (Int.int32 (cw * C * iy)))
                 (ptr_add (ptr_add (Ptr b 0)
                    (Int.int32 (W * C * Int.int32 (iy + (H - y - ch)))))
                    (Int.int32 (x * C))) (Int.size_t (cw * C))) by done.
      exact Hrun. }
    simpl. unfold h1. rewrite insert_insert_eq.
    erewrite ReleaseBuffer__loaded; last first.
    { simpl. rewrite lookup_insert_ne by done. exact Hblk. }
    { done. }
    simpl. eexists. split; [done|].
    unfold error_of, pixels_of, unloaded, byte_at; simpl.
    rewrite lookup_delete_eq, lookup_delete_ne, lookup_insert_eq by done. simpl.
    change (Z.to_nat 0) with 0%nat. rewrite drop_0.
    repeat split; try done; try lia.
    intros r c i Hr Hc Hi.
    replace ((r * cw + c) * C + i) with (r * (cw * C) + (c * C + i)) by lia.
    rewrite Hd by nia. f_equal. lia.
Qed.

(** ** The loaded test *)

(** On an unloaded asset, a member function that tests for a loaded buffer
    reports the error, returns its sentinel and changes nothing else. *)
Lemma perform_unloaded env c w :
  tests_loaded c = true → unloaded (self w) →
  perform env c w
  = Done (sentinel c)
      {| mem := mem w;
         self := with_errorHandler
                   (ErrorHandler.SetError ERROR_STR_IMAGE_NOT_LOADED
                      (ErrorHandler.Clear (errorHandler_ (self w))))
                   (self w) |}.
Proof.
  intros Hc Hw. unfold unloaded in Hw.
  destruct c; try discriminate Hc; simpl;
    unfold GetWidth, GetHeight, GetChannelCount, Clip, Resize, Unload, CopyTo,
      mbind, M_bind, mret, M_ret, errorHandler_Clear, errorHandler_SetError,
      set_this, this; simpl; by rewrite Hw.
Qed.

(** ** Clip outside of the image *)

Lemma Clip_out_of_range w x y cw ch :
  loaded (self w) →
  is_int32 (width_ (self w)) → is_int32 (height_ (self w)) →
  is_int32 x → is_int32 y → is_int32 cw → is_int32 ch →
  ¬ clip_in_range (width_ (self w)) (height_ (self w)) x y cw ch →
  Clip x y cw ch w
  = Done tt
      {| mem := mem w;
         self := with_errorHandler
                   (ErrorHandler.SetError ERROR_STR_IMAGE_SIZE_OVERFLOW
                      (ErrorHandler.Clear (errorHandler_ (self w))))
                   (self w) |}.
Proof.
  intros Hl HW HH Hx Hy Hcw Hch Hout. unfold loaded in Hl.
  unfold Clip, mbind, M_bind, errorHandler_Clear, errorHandler_SetError,
    set_this, this. simpl. rewrite Hl.
  match goal with |- (if ?t then _ else _) _ = _ => destruct t eqn:Htest end;
    [done|].
  exfalso. apply Hout. by apply Clip_test.
Qed.

(** ** Raw pixel load *)

Lemma ReleaseBuffer__owned w :
  owns_buffer w →
  ReleaseBuffer_ w
  = Done tt {| mem := release w;
               self := with_buffer {| buffer := Null;
                                      source := source (buffer_ (self w)) |}
                                   (self w) |}.
Proof.
  unfold owns_buffer, release. intros Hown.
  destruct (buffer (buffer_ (self w))) as [|b o] eqn:Hbuf.
  - rewrite ReleaseBuffer__unloaded by done. do 2 f_equal.
    destruct w as [h [[p s] ? ? ? ?]]; simpl in *. by subst.
  - destruct Hown as [-> [cs Hcs]]. by erewrite ReleaseBuffer__loaded.
Qed.

Lemma load_cells_length h p n vs :
  load_cells h p n = Some vs → Z.of_nat (length vs) = n.
Proof.
  unfold load_cells. destruct p as [|b o]; [done|].
  destruct (h !! b) as [cs|]; [|done].
  destruct ((0 <=? o) && (0 <=? n) && (o + n <=? Z.of_nat (length cs))) eqn:E; [|done].
  intros [= <-]. apply andb_prop in E as [E E3]. apply andb_prop in E as [E1 E2].
  apply Z.leb_le in E1, E2, E3. rewrite length_take, length_drop. lia.
Qed.

Lemma load_cells_insert_ne (h : heap) b' d p n vs :
  h !! b' = None → load_cells h p n = Some vs →
  load_cells (<[b' := d]> h) p n = Some vs.
Proof.
  intros Hb'. unfold load_cells. destruct p as [|b o]; [done|].
  destruct (h !! b) as [cs|] eqn:Hb; [|done].
  rewrite lookup_insert_ne by congruence. by rewrite Hb.
Qed.

Lemma Load_pixels_spec w p size width height c vs :
  owns_buffer w →
  0 ≤ size ≤ Int.PTRDIFF_MAX →
  caller_bytes (release w) p size vs →
  ∃ w', Load_pixels p size width height c w = Done tt w' ∧
        errorHandler_ (self w') = ErrorHandler.Clear (errorHandler_ (self w)) ∧
        width_ (self w') = width ∧ height_ (self w') = height ∧
        channelCount_ (self w') = c ∧
        source (buffer_ (self w')) = Self ∧
        pixels_of w' = vs ∧
        (size = 0 → buffer (buffer_ (self w')) = Null ∧ mem w' = release w) ∧
        (0 < size → buffer (buffer_ (self w')) = Ptr (fresh (dom (release w))) 0 ∧
                    mem w' = <[fresh (dom (release w)) := vs]> (release w)).
Proof.
  intros Hown Hsize Hsrc.
  unfold Load_pixels, mbind, M_bind, errorHandler_Clear. unfold set_this at 1.
  assert (Hown' : owns_buffer {| mem := mem w;
            self := with_errorHandler (ErrorHandler.Clear (errorHandler_ (self w))) (self w) |})
    by done.
  rewrite (ReleaseBuffer__owned _ Hown').
  replace (release _) with (release w) by done.
  unfold caller_bytes in Hsrc.
  destruct (size =? 0) eqn:Hz.
  - apply Z.eqb_eq in Hz. subst size vs.
    unfold on_mem at 1. simpl mem. rewrite AllocateBuffer_zero. simpl.
    eexists. split; [done|]. unfold pixels_of; simpl.
    repeat split; try done; lia.
  - apply Z.eqb_neq in Hz.
    unfold on_mem at 1. simpl mem. rewrite AllocateBuffer_pos by lia.
    unfold set_this at 1. simpl.
    pose proof (load_cells_length _ _ _ _ Hsrc) as Hlen.
    set (h1 := release w) in *. set (b' := fresh (dom h1)).
    pose proof (load_cells_insert_ne h1 b' (replicate (Z.to_nat size) None) p size vs
                  (fresh_not_live h1) Hsrc) as Hsrc'.
    unfold on_mem, memcpy. simpl mem.
    apply Z.eqb_neq in Hz. rewrite Hz, Hsrc'.
    erewrite store_cells_Some;
      [ | by rewrite lookup_insert_eq | lia | rewrite length_replicate; lia ].
    simpl. rewrite insert_insert_eq.
    assert (Hfill : vs ++ drop (length vs) (replicate (Z.to_nat size) None) = vs).
    { rewrite drop_ge by (rewrite length_replicate; lia). by rewrite app_nil_r. }
    rewrite Hfill. unfold set_this.
    eexists. split; [done|]. unfold pixels_of; simpl.
    rewrite lookup_insert_eq.
    repeat split; try done; lia.
Qed.

(** ** Clone *)

Lemma Clone_image w b cells :
  image w b cells →
  0 < width_ (self w) * height_ (self w) * channelCount_ (self w) →
  ∃ c, Clone w = Done c {| mem := <[fresh (dom (mem w)) := cells]> (mem w);
                           self := self w |} ∧
       buffer_ c = {| buffer := Ptr (fresh (dom (mem w))) 0; source := Self |} ∧
       width_ c = width_ (self w) ∧ height_ c = height_ (self w) ∧
       channelCount_ c = channelCount_ (self w) ∧
       errorHandler_ c = ErrorHandler.Clear ErrorHandler.init.
Proof.
  intros [Hbuf Hblk HW HH HC Hsize Hlen] Hpos.
  set (n := width_ (self w) * height_ (self w) * channelCount_ (self w)) in *.
  assert (En : Int.size_t (Int.int32 n) = n).
  { rewrite int32_id by (unfold is_int32, Int.INT_MIN, Int.INT_MAX in *; lia).
    apply size_t_id. unfold Int.INT_MAX in *. lia. }
  destruct (Load_pixels_spec {| mem := mem w; self := new_ImageAsset |}
              (Ptr b 0) n (width_ (self w)) (height_ (self w))
              (channelCount_ (self w)) cells)
    as (w' & Hrun & Herr & Hw & Hh & Hc & Hsrc & Hpix & _ & Hpos').
  - done.
  - unfold Int.INT_MAX, Int.PTRDIFF_MAX in *. lia.
  - unfold caller_bytes, release. cbn [self buffer_ buffer new_ImageAsset mem].
    destruct (n =? 0) eqn:E; [apply Z.eqb_eq in E; lia|].
    rewrite (load_cells_Some _ _ _ _ _ Hblk) by lia.
    f_equal. change (Z.to_nat 0) with 0%nat. rewrite drop_0.
    apply take_ge. lia.
  - destruct (Hpos' Hpos) as [Hb' Hmem]. unfold release in Hb', Hmem. simpl in *.
    unfold Clone. cbv zeta. rewrite Hbuf. fold n. rewrite En, Hrun.
    exists (self w'). rewrite Hmem. split; [done|].
    repeat split; try done.
    destruct (buffer_ (self w')) as [p s]. simpl in *. by subst.
Qed.

Lemma Clone_unloaded w :
  unloaded (self w) →
  Int.int32 (width_ (self w) * height_ (self w) * channelCount_ (self w)) = 0 →
  Clone w
  = Done {| buffer_ := {| buffer := Null; source := Self |};
            width_ := width_ (self w); height_ := height_ (self w);
            channelCount_ := channelCount_ (self w);
            errorHandler_ := ErrorHandler.Clear ErrorHandler.init |}
         w.
Proof.
  intros Hun Hz. unfold unloaded in Hun.
  destruct w as [h [[p s] W H C e]]. simpl in *.
  destruct p; [|done]. unfold Clone. simpl. rewrite Hz. done.
Qed.

(** [Clone] of an unloaded asset that still carries dimensions: the bytes
    are read through the null pointer, after a block for them was
    allocated. *)
Lemma Clone_unloaded_faults w :
  unloaded (self w) →
  0 < width_ (self w) * height_ (self w) * channelCount_ (self w) ≤ Int.INT_MAX →
  Clone w
  = Crash SegFault
      {| mem := <[fresh (dom (mem w)) :=
                    replicate (Z.to_nat (width_ (self w) * height_ (self w)
                                         * channelCount_ (self w))) None]> (mem w);
         self := self w |}.
Proof.
  intros Hun Hn. unfold unloaded in Hun.
  destruct w as [h [[p s] W H C e]]. simpl in *.
  destruct p; [|done]. unfold Clone. cbn [self mem buffer_ buffer width_ height_ channelCount_].
  rewrite int32_id by (unfold is_int32, Int.INT_MIN, Int.INT_MAX in *; lia).
  rewrite size_t_id by (unfold Int.INT_MAX in *; lia).
  set (n := W * H * C) in *.
  unfold Load_pixels, mbind, M_bind, errorHandler_Clear. unfold set_this at 1.
  cbn [mem self].
  rewrite ReleaseBuffer__unloaded by done. cbn [mem self].
  unfold on_mem at 1. cbn [mem self].
  rewrite AllocateBuffer_pos by (unfold Int.INT_MAX, Int.PTRDIFF_MAX in *; lia).
  unfold set_this at 1. cbn [mem self buffer].
  unfold on_mem, memcpy. cbn [mem self load_cells].
  assert ((n =? 0) = false) as -> by (apply Z.eqb_neq; lia).
  done.
Qed.

(** ** Clip with nothing to copy *)

Lemma Clip_empty w b cs x y cw ch :
  buffer (buffer_ (self w)) = Ptr b 0 → mem w !! b = Some cs →
  is_int32 (width_ (self w)) → is_int32 (height_ (self w)) →
  is_int32 x → is_int32 y → is_int32 cw → is_int32 ch →
  clip_in_range (width_ (self w)) (height_ (self w)) x y cw ch →
  cw = 0 ∨ ch = 0 →
  Clip x y cw ch w
  = Done tt {| mem := delete b (mem w);
               self := {| buffer_ := {| buffer := Null; source := Self |};
                          width_ := cw; height_ := ch;
                          channelCount_ := channelCount_ (self w);
                          errorHandler_ :=
                            ErrorHandler.Clear (errorHandler_ (self w)) |} |}.
Proof.
  intros Hbuf Hblk HW HH Hx Hy Hcw Hch Hrange Hz.
  pose proof (proj2 (Clip_test _ _ x y cw ch HW HH Hx Hy Hcw Hch) Hrange) as Htest.
  destruct w as [h [[p src] W H C e]]. simpl in *. subst p.
  unfold Clip, mbind, M_bind, errorHandler_Clear, set_this, this. simpl.
  rewrite Htest.
  assert (E0 : Int.size_t (Int.int32 (cw * ch * C)) = 0).
  { replace (cw * ch * C) with 0 by (destruct Hz; subst; lia). done. }
  rewrite E0. unfold on_mem at 1. simpl mem. rewrite AllocateBuffer_zero. simpl.
  assert (Hloop : ∀ (dst src : Z → ptr) sz, (ch = 0 ∨ sz = 0) →
            for_loop (Z.to_nat ch) 0 (λ iy, memcpy (dst iy) (src iy) sz) h
            = Done tt h).
  { intros dst src0 sz [->| ->]; [done|].
    apply for_loop_memcpy_zero. unfold is_int32, Int.INT_MAX in *. lia. }
  erewrite on_mem_Done; last first.
  { simpl mem. apply Hloop. destruct Hz as [-> | ->]; [right|by left]. done. }
  simpl. erewrite ReleaseBuffer__loaded by done. done.
Qed.

(** ** Resize *)

Lemma for_loop_post {St} (I : Z → St → Prop) (Q : St → Prop)
    (body : Z → M St unit) n i0 s :
  i0 + Z.of_nat n ≤ Int.INT_MAX →
  I i0 s →
  (∀ i t, i0 ≤ i < i0 + Z.of_nat n → I i t →
          ∃ t', body i t = Done tt t' ∧ I (i + 1) t') →
  (∀ s', I (i0 + Z.of_nat n) s' → Q s') →
  ∃ s', for_loop n i0 body s = Done tt s' ∧ Q s'.
Proof.
  intros Hmax Hinv Hbody Hpost.
  destruct (for_loop_invariant I body n i0 s Hmax Hinv Hbody) as (s' & Hrun & Hs').
  exists s'. split; [done|]. by apply Hpost.
Qed.

Lemma copy_byte_Done (h : heap) bd bs cells d i j :
  bs ≠ bd → h !! bs = Some cells → h !! bd = Some d →
  0 ≤ j < Z.of_nat (length cells) → 0 ≤ i < Z.of_nat (length d) →
  ∃ v, cells !! Z.to_nat j = Some v ∧
       copy_byte (Ptr bd 0) i (Ptr bs 0) j h
       = Done tt (<[bd := <[Z.to_nat i := v]> d]> h).
Proof.
  intros Hne Hs Hd Hj Hi.
  destruct (lookup_lt_is_Some_2 cells (Z.to_nat j)) as [v Hv]; [lia|].
  exists v. split; [done|]. unfold copy_byte. simpl ptr_add.
  erewrite memcpy_Done; [|lia|done|done|lia..].
  do 2 f_equal. rewrite insert_take_drop by lia.
  replace (Z.to_nat (0 + i)) with (Z.to_nat i) by lia.
  replace (Z.to_nat (0 + i + 1)) with (S (Z.to_nat i)) by lia.
  replace (Z.to_nat (0 + j)) with (Z.to_nat j) by lia.
  f_equal. change (Z.to_nat 1) with 1%nat.
  erewrite drop_S by done. done.
Qed.

(** Distinct bytes of an image have distinct offsets. *)
Lemma byte_offset_inj dW P ix iy i ix' iy' i' :
  0 ≤ ix < dW → 0 ≤ ix' < dW → 0 ≤ iy → 0 ≤ iy' → 0 ≤ i < P → 0 ≤ i' < P →
  (dW * iy + ix) * P + i = (dW * iy' + ix') * P + i' →
  ix = ix' ∧ iy = iy' ∧ i = i'.
Proof.
  intros Hix Hix' Hiy Hiy' Hi Hi' Heq.
  assert (dW * iy + ix = dW * iy' + ix') as Hp.
  { destruct (Z.lt_trichotomy (dW * iy + ix) (dW * iy' + ix')) as [Hlt|[?|Hlt]];
      [exfalso|done|exfalso].
    - assert ((dW * iy + ix + 1) * P ≤ (dW * iy' + ix') * P)
        by (apply Z.mul_le_mono_nonneg_r; lia). lia.
    - assert ((dW * iy' + ix' + 1) * P ≤ (dW * iy + ix) * P)
        by (apply Z.mul_le_mono_nonneg_r; lia). lia. }
  assert (iy = iy').
  { destruct (Z.lt_trichotomy iy iy') as [Hlt|[?|Hlt]]; [exfalso|done|exfalso].
    - assert (dW * (iy + 1) ≤ dW * iy') by (apply Z.mul_le_mono_nonneg_l; lia). lia.
    - assert (dW * (iy' + 1) ≤ dW * iy) by (apply Z.mul_le_mono_nonneg_l; lia). lia. }
  subst. lia.
Qed.

Lemma ScaleImage_spec (h : heap) bs bd cells d0 P sW sH dW dH :
  bs ≠ bd → h !! bs = Some cells → h !! bd = Some d0 →
  0 < P → 0 ≤ sW → 0 ≤ sH → 0 ≤ dW ≤ Int.INT_MAX → 0 ≤ dH ≤ Int.INT_MAX →
  Z.of_nat (length cells) = sW * sH * P → sW * sH * P ≤ Int.INT_MAX →
  Z.of_nat (length d0) = dW * dH * P → dW * dH * P ≤ Int.INT_MAX →
  (∀ ix iy, 0 ≤ ix < dW → 0 ≤ iy < dH →
     0 ≤ nearest sW dW ix < sW ∧ 0 ≤ nearest sH dH iy < sH) →
  ∃ d, ScaleImage P (Ptr bs 0) (Ptr bd 0) sW sH dW dH h = Done tt (<[bd := d]> h) ∧
       Z.of_nat (length d) = dW * dH * P ∧
       ∀ ix iy i, 0 ≤ ix < dW → 0 ≤ iy < dH → 0 ≤ i < P →
         d !! Z.to_nat ((dW * iy + ix) * P + i)
         = cells !! Z.to_nat ((sW * nearest sH dH iy + nearest sW dW ix) * P + i).
Proof.
  intros Hne Hs Hd HP HsW HsH HdW HdH Hlen Hmax Hlen0 Hmax0 Hnear.
  pose (G := λ (ix0 iy0 i0 : Z) (t : heap),
    ∃ d, t = <[bd := d]> h ∧ Z.of_nat (length d) = dW * dH * P ∧
      ∀ ix iy i, 0 ≤ ix < dW → 0 ≤ iy < dH → 0 ≤ i < P →
        ix < ix0 ∨ (ix = ix0 ∧ (iy < iy0 ∨ (iy = iy0 ∧ i < i0))) →
        d !! Z.to_nat ((dW * iy + ix) * P + i)
        = cells !! Z.to_nat ((sW * nearest sH dH iy + nearest sW dW ix) * P + i)).
  unfold ScaleImage.
  match goal with
  | |- ∃ d, ?run = _ ∧ _ =>
      assert (Hrun : ∃ s', run = Done tt s' ∧ G dW 0 0 s')
  end; last first.
  { destruct Hrun as (s' & Hrun & d & -> & Hdl & Hdv). exists d.
    split; [done|]. split; [done|].
    intros ix' iy' i' Hix' Hiy' Hi'. apply Hdv; [done..|lia]. }
  apply (for_loop_post (λ ix t, G ix 0 0 t) (G dW 0 0)).
  - lia.
  - exists d0. split; [by rewrite insert_id|]. split; [done|]. intros; lia.
  - intros ix t Hix HG. cbv beta.
    apply (for_loop_post (λ iy t, G ix iy 0 t)).
    + lia.
    + done.
    + intros iy u Hiy HGu. cbv beta.
      apply (for_loop_post (λ i t, G ix iy i t)).
      * assert (1 * 1 ≤ dW * dH) by (apply Z.mul_le_mono_nonneg; lia).
        assert (1 * P ≤ dW * dH * P) by (apply Z.mul_le_mono_nonneg_r; lia).
        lia.
      * done.
      * intros i v Hi (d & -> & Hdl & Hdv).
        change (Float32.to_int (Float32.mul (Float32.of_Z ix)
                 (Float32.div (Float32.of_Z sW) (Float32.of_Z dW))))
          with (nearest sW dW ix).
        change (Float32.to_int (Float32.mul (Float32.of_Z iy)
                 (Float32.div (Float32.of_Z sH) (Float32.of_Z dH))))
          with (nearest sH dH iy).
        destruct (Hnear ix iy) as [Hpx Hpy]; [lia..|].
        set (px := nearest sW dW ix) in *. set (py := nearest sH dH iy) in *.
        assert (A1 : dW * (iy + 1) ≤ dW * dH)
          by (apply Z.mul_le_mono_nonneg_l; lia).
        assert (A2 : sW * (py + 1) ≤ sW * sH)
          by (apply Z.mul_le_mono_nonneg_l; lia).
        assert (A3 : 0 ≤ dW * iy) by (apply Z.mul_nonneg_nonneg; lia).
        assert (A4 : 0 ≤ sW * py) by (apply Z.mul_nonneg_nonneg; lia).
        assert (A5 : (dW * iy + ix + 1) * P ≤ dW * dH * P)
          by (apply Z.mul_le_mono_nonneg_r; lia).
        assert (A6 : (sW * py + px + 1) * P ≤ sW * sH * P)
          by (apply Z.mul_le_mono_nonneg_r; lia).
        assert (A7 : 0 ≤ (dW * iy + ix) * P) by (apply Z.mul_nonneg_nonneg; lia).
        assert (A8 : 0 ≤ (sW * py + px) * P) by (apply Z.mul_nonneg_nonneg; lia).
        assert (A9 : dW * dH * 1 ≤ dW * dH * P)
          by (apply Z.mul_le_mono_nonneg_l; [apply Z.mul_nonneg_nonneg|]; lia).
        assert (A10 : sW * sH * 1 ≤ sW * sH * P)
          by (apply Z.mul_le_mono_nonneg_l; [apply Z.mul_nonneg_nonneg|]; lia).
        assert (E1 : Int.uint32 (dW * iy + ix) = dW * iy + ix).
        { apply uint32_id. unfold Int.INT_MAX in *. lia. }
        assert (E2 : Int.uint32 (sW * py + px) = sW * py + px).
        { apply uint32_id. unfold Int.INT_MAX in *. lia. }
        assert (E3 : Int.uint32 ((dW * iy + ix) * P + i) = (dW * iy + ix) * P + i).
        { apply uint32_id. unfold Int.INT_MAX in *. lia. }
        assert (E4 : Int.uint32 ((sW * py + px) * P + i) = (sW * py + px) * P + i).
        { apply uint32_id. unfold Int.INT_MAX in *. lia. }
        rewrite E1, E2, E3, E4.
        destruct (copy_byte_Done (<[bd := d]> h) bd bs cells d
                    ((dW * iy + ix) * P + i) ((sW * py + px) * P + i))
          as (v & Hv & Hrun); [done|by rewrite lookup_insert_ne|
                               by rewrite lookup_insert_eq|lia|lia|].
        rewrite Hrun. eexists. split; [done|].
        rewrite insert_insert_eq. eexists. split; [done|].
        split; [by rewrite length_insert|].
        intros ix' iy' i' Hix' Hiy' Hi' Hbefore.
        destruct (decide (ix' = ix ∧ iy' = iy ∧ i' = i)) as [(-> & -> & ->)|Hother].
        -- rewrite list_lookup_insert_eq by lia. done.
        -- rewrite list_lookup_insert_ne.
           ++ apply Hdv; [done..|lia].
           ++ intros Heq. apply Hother.
              apply (byte_offset_inj dW P ix' iy' i' ix iy i); [lia..|].
              assert (0 ≤ (dW * iy' + ix') * P)
                by (apply Z.mul_nonneg_nonneg; [apply Z.add_nonneg_nonneg;
                      [apply Z.mul_nonneg_nonneg|]|]; lia).
              lia.
      * intros s' (d & -> & Hdl & Hdv). exists d. split; [done|]. split; [done|].
        intros ix' iy' i' Hix' Hiy' Hi' Hbefore. apply Hdv; [done..|lia].
    + intros s' (d & -> & Hdl & Hdv). exists d. split; [done|]. split; [done|].
      intros ix' iy' i' Hix' Hiy' Hi' Hbefore. apply Hdv; [done..|lia].
  - intros s'. by replace (0 + Z.of_nat (Z.to_nat dW)) with dW by lia.
Qed.

Lemma ScaleImage_empty P src dst sW sH dW dH (h : heap) :
  0 ≤ dW ≤ Int.INT_MAX → dW = 0 ∨ dH = 0 →
  ScaleImage P src dst sW sH dW dH h = Done tt h.
Proof.
  intros HdW Hz. unfold ScaleImage.
  destruct (Z.eq_dec dW 0) as [->|Hne]; [done|].
  destruct Hz as [?| ->]; [done|].
  match goal with
  | |- for_loop ?n ?i ?body h = _ =>
      destruct (for_loop_invariant (λ _ t, t = h) body n i h) as (t & Hrun & ->)
  end; [lia|done| |done].
  intros i t _ ->. by exists h.
Qed.

Lemma Resize_spec w b cells dW dH :
  image w b cells →
  channelCount_ (self w) = 3 ∨ channelCount_ (self w) = 4 →
  0 ≤ dW ≤ Int.INT_MAX → 0 ≤ dH ≤ Int.INT_MAX →
  dW * dH * channelCount_ (self w) ≤ Int.INT_MAX →
  (∀ ix iy, 0 ≤ ix < dW → 0 ≤ iy < dH →
     0 ≤ nearest (width_ (self w)) dW ix < width_ (self w) ∧
     0 ≤ nearest (height_ (self w)) dH iy < height_ (self w)) →
  ∃ w', Resize dW dH w = Done tt w' ∧
        error_of w' = EmptyString ∧
        width_ (self w') = dW ∧ height_ (self w') = dH ∧
        channelCount_ (self w') = channelCount_ (self w) ∧
        mem w' !! b = None ∧
        (dW * dH = 0 ↔ unloaded (self w')) ∧
        Z.of_nat (length (pixels_of w')) = dW * dH * channelCount_ (self w) ∧
        ∀ ix iy i, 0 ≤ ix < dW → 0 ≤ iy < dH → 0 ≤ i < channelCount_ (self w) →
          byte_at (pixels_of w') dW (channelCount_ (self w)) iy ix i
          = byte_at cells (width_ (self w)) (channelCount_ (self w))
              (nearest (height_ (self w)) dH iy) (nearest (width_ (self w)) dW ix) i.
Proof.
  intros [Hbuf Hblk HW HH HC Hsize Hlen] HC34 HdW HdH Hdsize Hnear.
  destruct w as [h [[p src] W H C e]]. simpl in *. subst p.
  assert (HC0 : 0 < C) by lia.
  assert (HdWH : 0 ≤ dW * dH) by (apply Z.mul_nonneg_nonneg; lia).
  assert (Htot : 0 ≤ dW * dH * C) by (apply Z.mul_nonneg_nonneg; lia).
  unfold Resize, mbind, M_bind, errorHandler_Clear, set_this, this. simpl.
  assert (E0 : Int.size_t (Int.int32 (dW * dH * C)) = dW * dH * C).
  { rewrite int32_id by (unfold is_int32, Int.INT_MIN, Int.INT_MAX in *; lia).
    apply size_t_id. unfold Int.INT_MAX in *. lia. }
  rewrite E0.
  rewrite !uint32_id by (unfold Int.INT_MAX in *; lia).
  assert (Hscale : ∀ P dst h1, (P = 3 ∨ P = 4) →
     (if C =? 3
      then on_mem (ScaleImage 3 (Ptr b 0) dst W H dW dH)
      else if C =? 4
           then on_mem (ScaleImage 4 (Ptr b 0) dst W H dW dH)
           else mret ()) h1
     = on_mem (ScaleImage C (Ptr b 0) dst W H dW dH) h1).
  { intros P dst h1 _. destruct HC34 as [-> | ->]; done. }
  destruct (Z.eq_dec (dW * dH) 0) as [Hz|Hnz].
  - (* no pixel to write: no block is allocated *)
    replace (dW * dH * C) with 0 by (rewrite Hz; lia).
    unfold on_mem at 1. simpl mem. rewrite AllocateBuffer_zero. simpl.
    rewrite (Hscale C) by done.
    erewrite on_mem_Done; last first.
    { apply ScaleImage_empty; [done|lia]. }
    simpl. erewrite ReleaseBuffer__loaded by done. simpl.
    eexists. split; [done|]. unfold error_of, pixels_of, unloaded, byte_at; simpl.
    rewrite lookup_delete_eq.
    repeat split; try done; try lia.
    intros ix iy i Hix Hiy Hi. exfalso. nia.
  - assert (Hpos : 1 ≤ dW ∧ 1 ≤ dH) by nia.
    assert (1 * 1 ≤ dW * dH) by (apply Z.mul_le_mono_nonneg; lia).
    assert (1 * C ≤ dW * dH * C) by (apply Z.mul_le_mono_nonneg_r; lia).
    unfold on_mem at 1. simpl mem.
    rewrite AllocateBuffer_pos by (unfold Int.INT_MAX, Int.PTRDIFF_MAX in *; lia).
    simpl.
    set (b' := fresh (dom h)).
    assert (Hne : b ≠ b') by (symmetry; apply fresh_ne_live; eauto).
    set (h1 := <[b' := replicate (Z.to_nat (dW * dH * C)) None]> h).
    rewrite (Hscale C) by done.
    destruct (ScaleImage_spec h1 b b' cells (replicate (Z.to_nat (dW * dH * C)) None)
                C W H dW dH) as (d & Hrun & Hdlen & Hd).
    all: try (unfold h1; by rewrite ?lookup_insert_eq, ?lookup_insert_ne by done).
    all: try lia.
    all: try (rewrite length_replicate; lia).

    erewrite on_mem_Done by exact Hrun.
    simpl. unfold h1. rewrite insert_insert_eq.
    erewrite ReleaseBuffer__loaded; last first.
    { simpl. rewrite lookup_insert_ne by done. exact Hblk. }
    { done. }
    simpl. eexists. split; [done|].
    unfold error_of, pixels_of, unloaded, byte_at; simpl.
    rewrite lookup_delete_eq, lookup_delete_ne, lookup_insert_eq by done. simpl.
    change (Z.to_nat 0) with 0%nat. rewrite drop_0.
    repeat split; try done; try lia.
    intros ix iy i Hix Hiy Hi.
    replace ((iy * dW + ix) * C + i) with ((dW * iy + ix) * C + i) by lia.
    rewrite Hd by lia. f_equal. lia.
Qed.

(** [Resize] with nothing to copy. *)
Lemma Resize_empty w b cs dW dH :
  buffer (buffer_ (self w)) = Ptr b 0 → mem w !! b = Some cs →
  0 ≤ dW ≤ Int.INT_MAX → 0 ≤ dH ≤ Int.INT_MAX →
  dW = 0 ∨ dH = 0 →
  Resize dW dH w
  = Done tt {| mem := delete b (mem w);
               self := {| buffer_ := {| buffer := Null; source := Self |};
                          width_ := dW; height_ := dH;
                          channelCount_ := channelCount_ (self w);
                          errorHandler_ :=
                            ErrorHandler.Clear (errorHandler_ (self w)) |} |}.
Proof.
  intros Hbuf Hblk HdW HdH Hz.
  destruct w as [h [[p src] W H C e]]. simpl in *. subst p.
  unfold Resize, mbind, M_bind, errorHandler_Clear, set_this, this. simpl.
  replace (dW * dH * C) with 0 by (destruct Hz as [-> | ->]; lia).
  change (Int.size_t (Int.int32 0)) with 0.
  unfold on_mem at 1. simpl mem. rewrite AllocateBuffer_zero. simpl.
  rewrite (uint32_id dW), (uint32_id dH) by (unfold Int.INT_MAX in *; lia).
  assert (Hscale : ∀ h1 : World,
     (if C =? 3
      then on_mem (ScaleImage 3 (Ptr b 0) Null (Int.uint32 W) (Int.uint32 H) dW dH)
      else if C =? 4
           then on_mem (ScaleImage 4 (Ptr b 0) Null (Int.uint32 W) (Int.uint32 H) dW dH)
           else mret ()) h1
     = Done tt h1).
  { intros [h1 a1]. destruct (C =? 3); [|destruct (C =? 4)]; try done.
    all: erewrite on_mem_Done; [done|]; by apply ScaleImage_empty. }
  rewrite Hscale. simpl.
  erewrite ReleaseBuffer__loaded by done. done.
Qed.

(** ** Single precision: exact cases *)

Lemma fexp_normal e : -125 ≤ e → fexp Float32.prec Float32.emax e = e - 24.
Proof. intros He. unfold fexp, emin, Float32.prec, Float32.emax. lia. Qed.

(** A mantissa of 24 bits with an exponent in range is a float: rounding
    leaves it as it is. *)
Lemma binary_round_aux_canonical s m e :
  digits2_pos m = 24%positive → -149 ≤ e ≤ 104 →
  binary_round_aux Float32.prec Float32.emax s (Z.pos m) e loc_Exact
  = S754_finite s m e.
Proof.
  intros Hd He.
  assert (Hshr : shr_fexp Float32.prec Float32.emax (Z.pos m) e loc_Exact
                 = ({| shr_m := Z.pos m; shr_r := false; shr_s := false |}, e)).
  { unfold shr_fexp. simpl Zdigits2. rewrite Hd, fexp_normal by lia.
    replace (24 + e - 24 - e) with 0 by lia. done. }
  unfold binary_round_aux. rewrite Hshr. simpl. rewrite Hshr. simpl.
  unfold Float32.emax, Float32.prec.
  destruct (e <=? 128 - 24) eqn:E; [done|]. apply Z.leb_gt in E. lia.
Qed.

Lemma digits2_pos_iter_xO p d :
  Z.pos (digits2_pos (Pos.iter xO p d)) = Z.pos (digits2_pos p) + Z.pos d.
Proof.
  induction d as [|d IH] using Pos.peano_ind; simpl.
  - lia.
  - rewrite Pos.iter_succ. simpl. lia.
Qed.

Lemma Zpos_iter_xO p d : Z.pos (Pos.iter xO p d) = Z.pos p * 2 ^ Z.pos d.
Proof.
  induction d as [|d IH] using Pos.peano_ind; simpl.
  - lia.
  - rewrite Pos.iter_succ, Pos2Z.inj_xO, IH, Pos2Z.inj_succ, Z.pow_succ_r by lia. lia.
Qed.

Lemma digits2_pos_bound p :
  2 ^ (Z.pos (digits2_pos p) - 1) ≤ Z.pos p < 2 ^ Z.pos (digits2_pos p).
Proof.
  induction p as [p IH|p IH|]; simpl digits2_pos; [| |simpl; lia].
  all: rewrite Pos2Z.inj_succ.
  all: replace (Z.succ (Z.pos (digits2_pos p)) - 1)
         with (Z.succ (Z.pos (digits2_pos p) - 1)) by lia.
  all: rewrite !Z.pow_succ_r by lia.
  all: lia.
Qed.

(** Conversion of an integer below 2^24 is exact: the result is a normal
    float with the same value. *)
Lemma of_Z_exact p :
  Z.pos p < 2 ^ 24 →
  ∃ m e, Float32.of_Z (Z.pos p) = S754_finite false m e ∧
         digits2_pos m = 24%positive ∧ -23 ≤ e ≤ 0 ∧
         Z.pos m = Z.pos p * 2 ^ (- e).
Proof.
  intros Hp.
  pose proof (digits2_pos_bound p) as Hb.
  assert (Hd : Z.pos (digits2_pos p) ≤ 24).
  { destruct (Z.le_gt_cases (Z.pos (digits2_pos p)) 24) as [?|Hgt]; [done|].
    assert (2 ^ 24 ≤ 2 ^ (Z.pos (digits2_pos p) - 1)) by (apply Z.pow_le_mono_r; lia).
    lia. }
  unfold Float32.of_Z, binary_normalize, binary_round, shl_align.
  rewrite fexp_normal by lia.
  replace (Z.pos (digits2_pos p) + 0 - 24 - 0) with (Z.pos (digits2_pos p) - 24) by lia.
  destruct (Z.pos (digits2_pos p) - 24) as [|k|k] eqn:Hk; [|lia|].
  - exists p, 0. rewrite binary_round_aux_canonical by lia.
    repeat split; try lia. 
  - exists (Pos.iter xO p k), (Z.pos (digits2_pos p) + 0 - 24).
    pose proof (digits2_pos_iter_xO p k) as Hdk.
    rewrite binary_round_aux_canonical by lia.
    repeat split; try lia.
    rewrite Zpos_iter_xO. f_equal. f_equal. lia.
Qed.

(** The float 1.0. *)
Lemma one_canonical :
  binary_round_aux Float32.prec Float32.emax false (2 ^ 24) (-24) loc_Exact
  = S754_finite false 8388608 (-23).
Proof. vm_compute. reflexivity. Qed.

(** A normal float divided by itself is 1.0. *)
Lemma div_self m e :
  digits2_pos m = 24%positive →
  Float32.div (S754_finite false m e) (S754_finite false m e)
  = S754_finite false 8388608 (-23).
Proof.
  intros Hd. unfold Float32.div, SFdiv, SFdiv_core_binary.
  simpl Zdigits2. rewrite Hd.
  replace (24 + e - (24 + e)) with 0 by lia.
  replace (e - e) with 0 by lia.
  change (Z.min (fexp Float32.prec Float32.emax 0) 0) with (-24).
  change (0 - -24) with 24.
  rewrite Z.shiftl_mul_pow2 by lia.
  assert (Hq : Z.div_eucl (Z.pos m * 2 ^ 24) (Z.pos m) = (2 ^ 24, 0)).
  { pose proof (Z_div_mult (2 ^ 24) (Z.pos m) ltac:(lia)) as Hdiv.
    pose proof (Z_mod_mult (2 ^ 24) (Z.pos m)) as Hmod.
    rewrite (Z.mul_comm (2 ^ 24)) in Hdiv, Hmod.
    unfold Z.div, Z.modulo in Hdiv, Hmod.
    destruct (Z.div_eucl (Z.pos m * 2 ^ 24) (Z.pos m)) as [q r].
    by subst. }
  rewrite Hq.
  assert (Hloc : new_location (Z.pos m) 0 = loc_Exact).
  { unfold new_location. by destruct (Z.even (Z.pos m)). }
  rewrite Hloc. apply one_canonical.
Qed.

(** A normal float times 1.0 is itself. *)
Lemma mul_one m e :
  digits2_pos m = 24%positive → -126 ≤ e ≤ 104 →
  Float32.mul (S754_finite false m e) (S754_finite false 8388608 (-23))
  = S754_finite false m e.
Proof.
  intros Hd He. unfold Float32.mul, SFmul. simpl xorb.
  rewrite Pos.mul_comm.
  change (8388608 * m)%positive
    with (m~0~0~0~0~0~0~0~0~0~0~0~0~0~0~0~0~0~0~0~0~0~0~0)%positive.
  unfold binary_round_aux.
  assert (Hshr : shr_fexp Float32.prec Float32.emax
                   (Z.pos (m~0~0~0~0~0~0~0~0~0~0~0~0~0~0~0~0~0~0~0~0~0~0~0))
                   (e + -23) loc_Exact
                 = ({| shr_m := Z.pos m; shr_r := false; shr_s := false |}, e)).
  { unfold shr_fexp. simpl Zdigits2. rewrite Hd.
    change (Z.pos (Pos.succ _)) with 47.
    rewrite fexp_normal by lia.
    replace (47 + (e + -23) - 24 - (e + -23)) with 23 by lia.
    unfold shr. f_equal. lia. }
  rewrite Hshr. simpl round_nearest_even.
  assert (Hshr2 : shr_fexp Float32.prec Float32.emax (Z.pos m) e loc_Exact
                 = ({| shr_m := Z.pos m; shr_r := false; shr_s := false |}, e)).
  { unfold shr_fexp. simpl Zdigits2. rewrite Hd, fexp_normal by lia.
    replace (24 + e - 24 - e) with 0 by lia. done. }
  rewrite Hshr2. simpl shr_m. cbv beta iota.
  unfold Float32.emax, Float32.prec.
  destruct (e <=? 128 - 24) eqn:E; [done|]. apply Z.leb_gt in E. lia.
Qed.

Lemma to_int_exact m e n :
  0 ≤ n ≤ Int.INT_MAX → -149 ≤ e ≤ 0 → Z.pos m = n * 2 ^ (- e) →
  Float32.to_int (S754_finite false m e) = n.
Proof.
  intros Hn He Hm. unfold Float32.to_int.
  assert (Hpow : 0 < 2 ^ (- e)) by (apply Z.pow_pos_nonneg; lia).
  assert (Ht : (if 0 <=? e then Z.pos m * 2 ^ e else Z.pos m `div` 2 ^ (- e)) = n).
  { destruct (0 <=? e) eqn:E.
    - apply Z.leb_le in E. assert (e = 0) as -> by lia.
      rewrite Hm. simpl. lia.
    - rewrite Hm. apply Z_div_mult. lia. }
  rewrite Ht. unfold Int.INT_MIN, Int.INT_MAX in *.
  destruct ((- 2 ^ 31 <=? n) && (n <=? 2 ^ 31 - 1)) eqn:E; [done|].
  apply andb_false_iff in E as [E|E]; [apply Z.leb_gt in E|apply Z.leb_gt in E]; lia.
Qed.

(** Scaling by a factor of one: below 2^24 every coordinate is its own
    nearest neighbour. *)
Lemma nearest_same n i :
  0 < n ≤ 2 ^ 24 → 0 ≤ i < 2 ^ 24 → nearest n n i = i.
Proof.
  intros Hn Hi. unfold nearest.
  assert (Hone : Float32.div (Float32.of_Z n) (Float32.of_Z n)
                 = S754_finite false 8388608 (-23)).
  { destruct (Z.eq_dec n (2 ^ 24)) as [->|Hne]; [by vm_compute|].
    destruct n as [|p|p]; try lia.
    destruct (of_Z_exact p) as (m & e & -> & Hd & He & Hm); [lia|].
    by apply div_self. }
  rewrite Hone.
  destruct i as [|p|p]; try lia; [done|].
  destruct (of_Z_exact p) as (m & e & -> & Hd & He & Hm); [lia|].
  rewrite mul_one by (done || lia).
  apply to_int_exact; unfold Int.INT_MAX; lia.
Qed.

(** Every byte offset of a [W] x [H] image with [C] channels is the offset of
    a byte of a pixel. *)
Lemma byte_offset_split W H C k :
  0 < W → 0 < C → 0 ≤ k < W * H * C →
  ∃ ix iy i, 0 ≤ ix < W ∧ 0 ≤ iy < H ∧ 0 ≤ i < C ∧ k = (iy * W + ix) * C + i.
Proof.
  intros HW HC Hk.
  exists ((k `div` C) `mod` W), ((k `div` C) `div` W), (k `mod` C).
  pose proof (Z.mod_pos_bound k C HC) as Hi.
  pose proof (Z.div_mod k C ltac:(lia)) as Hkc.
  pose proof (Z.mod_pos_bound (k `div` C) W HW) as Hix.
  pose proof (Z.div_mod (k `div` C) W ltac:(lia)) as Hqw.
  assert (Hq : 0 ≤ k `div` C < W * H).
  { split; [apply Z.div_pos; lia|]. apply Z.div_lt_upper_bound; lia. }
  assert (Hiy : 0 ≤ (k `div` C) `div` W < H).
  { split; [apply Z.div_pos; lia|]. apply Z.div_lt_upper_bound; lia. }
  repeat split; try lia.
Qed.

Lemma Resize_same_size w b cells :
  image w b cells →
  channelCount_ (self w) = 3 ∨ channelCount_ (self w) = 4 →
  0 < width_ (self w) ≤ 2 ^ 24 → 0 < height_ (self w) ≤ 2 ^ 24 →
  ∃ w', Resize (width_ (self w)) (height_ (self w)) w = Done tt w' ∧
        error_of w' = EmptyString ∧
        width_ (self w') = width_ (self w) ∧
        height_ (self w') = height_ (self w) ∧
        channelCount_ (self w') = channelCount_ (self w) ∧
        pixels_of w' = cells.
Proof.
  intros Himg HC HW HH.
  destruct (Resize_spec w b cells (width_ (self w)) (height_ (self w)) Himg HC)
    as (w' & Hrun & Herr & Hw & Hh & Hc & _ & _ & Hlen & Hpix).
  - unfold Int.INT_MAX. lia.
  - unfold Int.INT_MAX. lia.
  - apply Himg.
  - intros ix iy Hix Hiy. rewrite !nearest_same by lia. lia.
  - exists w'. repeat split; try done.
    destruct Himg as [_ _ _ _ _ _ Hclen].
    apply list_eq. intros n.
    destruct (decide (Z.of_nat n < Z.of_nat (length cells))) as [Hn|Hn].
    + destruct (byte_offset_split (width_ (self w)) (height_ (self w))
                  (channelCount_ (self w)) (Z.of_nat n))
        as (ix & iy & i & Hix & Hiy & Hi & Hk); [lia..|].
      specialize (Hpix ix iy i Hix Hiy Hi).
      rewrite !nearest_same in Hpix by lia. unfold byte_at in Hpix.
      rewrite <- Hk, Nat2Z.id in Hpix. done.
    + rewrite !lookup_ge_None_2; [done|lia..].
Qed.

Lemma nearest_unit n i :
  Float32.div (Float32.of_Z n) (Float32.of_Z n) = S754_finite false 8388608 (-23) →
  0 ≤ i < 2 ^ 24 → nearest n n i = i.
Proof.
  intros Hone Hi. unfold nearest. rewrite Hone.
  destruct i as [|p|p]; try lia; [done|].
  destruct (of_Z_exact p) as (m & e & -> & Hd & He & Hm); [lia|].
  rewrite mul_one by (done || lia).
  apply to_int_exact; unfold Int.INT_MAX; lia.
Qed.

Lemma wide_cells_length : Z.of_nat (length wide_cells) = wide * 1 * 3.
Proof.
  unfold wide_cells. rewrite length_app, !length_replicate. unfold wide. lia.
Qed.

Lemma wide_image : image wide_world 1%positive wide_cells.
Proof.
  split; unfold wide_world, image_world;
    cbn [self mem buffer_ buffer width_ height_ channelCount_].
  - reflexivity.
  - apply lookup_singleton_eq.
  - unfold wide, Int.INT_MAX. lia.
  - unfold Int.INT_MAX. lia.
  - unfold Int.INT_MAX. lia.
  - unfold wide, Int.INT_MAX. lia.
  - apply wide_cells_length.
Qed.

Lemma wide_nearest ix :
  0 ≤ ix < wide → 0 ≤ nearest wide wide ix < wide.
Proof.
  intros Hix. unfold wide in Hix.
  destruct (Z.lt_ge_cases ix (2 ^ 24)) as [Hlt|Hge].
  - rewrite nearest_unit; [unfold wide; lia| vm_compute; reflexivity | lia].
  - assert (ix = 16777216 ∨ ix = 16777217) as [-> | ->] by lia;
      vm_compute; split; congruence.
Qed.


Lemma byte_at_eq cells W C r c i :
  byte_at cells W C r c i = cells !! Z.to_nat ((r * W + c) * C + i).
Proof. reflexivity. Qed.

Lemma wide_cells_eq :
  wide_cells = replicate (Z.to_nat (3 * (wide - 1))) (Some Byte.x00)
               ++ replicate 3 (Some Byte.xff).
Proof. reflexivity. Qed.

Lemma wide_cells_before_last :
  byte_at wide_cells wide 3 0 (wide - 2) 0 = Some (Some Byte.x00).
Proof.
  rewrite byte_at_eq, wide_cells_eq.
  apply lookup_app_l_Some, lookup_replicate_2.
  apply Z2Nat.inj_lt; unfold wide; lia.
Qed.

Lemma wide_cells_last :
  byte_at wide_cells wide 3 0 (wide - 1) 0 = Some (Some Byte.xff).
Proof.
  rewrite byte_at_eq, wide_cells_eq.
  replace ((0 * wide + (wide - 1)) * 3 + 0) with (3 * (wide - 1)) by lia.
  rewrite lookup_app_r by (rewrite length_replicate; apply Nat.le_refl).
  rewrite length_replicate, Nat.sub_diag. reflexivity.
Qed.

(** Past 2^24 the conversion of the column to [float] rounds: the last pixel
    of a row of 2^24 + 2 pixels is read from two columns to its left. *)
Lemma Resize_wide_last_pixel :
  ∃ w', Resize wide 1 wide_world = Done tt w' ∧
        byte_at (pixels_of w') wide 3 0 (wide - 1) 0 = Some (Some Byte.x00).
Proof.
  destruct (Resize_spec wide_world 1%positive wide_cells wide 1 wide_image)
    as (w' & Hrun & _ & _ & _ & _ & _ & _ & _ & Hpix).
  - left. reflexivity.
  - unfold wide, Int.INT_MAX. lia.
  - unfold Int.INT_MAX. lia.
  - unfold wide_world, image_world; cbn [self channelCount_].
    unfold wide, Int.INT_MAX. lia.
  - intros ix iy Hix Hiy. split; [apply wide_nearest; exact Hix|].
    assert (iy = 0) as -> by lia.
    change (0 ≤ nearest 1 1 0 < 1). vm_compute. split; congruence.
  - exists w'. split; [exact Hrun|].
    change (channelCount_ (self wide_world)) with 3 in Hpix.
    change (width_ (self wide_world)) with wide in Hpix.
    change (height_ (self wide_world)) with 1 in Hpix.
    rewrite Hpix by (unfold wide; lia).
    replace (nearest 1 1 0) with 0 by (vm_compute; reflexivity).
    replace (nearest wide wide (wide - 1)) with (wide - 2) by (vm_compute; reflexivity).
    apply wide_cells_before_last.
Qed.

(** C7 fails past 2^24: resizing the row of 2^24 + 2 pixels to its own size
    does not give back its pixels. *)
Example Resize_wide_not_identity :
  ¬ ∃ w', Resize (width_ (self wide_world)) (height_ (self wide_world)) wide_world
          = Done tt w' ∧ pixels_of w' = wide_cells.
Proof.
  intros (w' & Hrun' & Hsame).
  destruct Resize_wide_last_pixel as (w'' & Hrun & Hlast).
  change (width_ (self wide_world)) with wide in Hrun'.
  change (height_ (self wide_world)) with 1 in Hrun'.
  rewrite Hrun in Hrun'. injection Hrun' as <-. clear Hrun.
  rewrite Hsame, wide_cells_last in Hlast. discriminate Hlast.
Qed.

(** ** Single precision: rounding *)

Lemma iter_pos_nat {A} (f : A → A) p x :
  SpecFloat.iter_pos f p x = Nat.iter (Pos.to_nat p) f x.
Proof.
  revert x. induction p as [p IH|p IH|]; intros x; cbn [SpecFloat.iter_pos].
  - rewrite !IH, Pos2Nat.inj_xI.
    replace (S (2 * Pos.to_nat p)) with (Pos.to_nat p + S (Pos.to_nat p))%nat by lia.
    rewrite Nat.iter_add. f_equal. by rewrite Nat.iter_succ_r.
  - rewrite !IH, Pos2Nat.inj_xO.
    replace (2 * Pos.to_nat p)%nat with (Pos.to_nat p + Pos.to_nat p)%nat by lia.
    by rewrite Nat.iter_add.
  - done.
Qed.

Lemma shr_1_m r : 0 ≤ shr_m r → shr_m (shr_1 r) = shr_m r `div` 2.
Proof.
  destruct r as [m rb sb]. cbn [shr_m]. intros Hm.
  destruct m as [|[p|p|]|p]; cbn [shr_1 shr_m]; try lia; try done.
  - apply Z.div_unique with 1; lia.
  - apply Z.div_unique with 0; lia.
Qed.

Lemma shr_iter_m n r :
  0 ≤ shr_m r → shr_m (Nat.iter n shr_1 r) = shr_m r `div` 2 ^ Z.of_nat n.
Proof.
  intros Hm. induction n as [|n IH].
  - simpl. by rewrite Z.div_1_r.
  - rewrite Nat.iter_succ, shr_1_m, IH.
    + rewrite Nat2Z.inj_succ, Z.pow_succ_r, Z.div_div by lia.
      f_equal. lia.
    + rewrite IH. apply Z.div_pos; lia.
Qed.

Lemma digits2_pos_unique p k :
  2 ^ (k - 1) ≤ Z.pos p < 2 ^ k → Z.pos (digits2_pos p) = k.
Proof.
  intros Hk. pose proof (digits2_pos_bound p) as Hd.
  assert (0 < k).
  { destruct (Z.lt_ge_cases 0 k) as [?|Hle]; [done|].
    assert (2 ^ k ≤ 2 ^ 0) by (apply Z.pow_le_mono_r; lia). simpl in *. lia. }
  destruct (Z.lt_trichotomy (Z.pos (digits2_pos p)) k) as [Hlt|[?|Hgt]]; [|done|].
  - assert (2 ^ Z.pos (digits2_pos p) ≤ 2 ^ (k - 1)) by (apply Z.pow_le_mono_r; lia).
    lia.
  - assert (2 ^ k ≤ 2 ^ (Z.pos (digits2_pos p) - 1)) by (apply Z.pow_le_mono_r; lia).
    lia.
Qed.

Lemma round_nearest_even_bounds x l :
  x ≤ round_nearest_even x l ≤ x + 1.
Proof.
  unfold round_nearest_even. destruct l as [|[]]; try lia.
  destruct (Z.even x); lia.
Qed.

(** Shifting a mantissa right by [n] bits. *)
Lemma shr_m_shift m l e n :
  0 ≤ m → 0 ≤ n →
  shr_m (fst (shr (shr_record_of_loc m l) e n)) = m `div` 2 ^ n ∧
  snd (shr (shr_record_of_loc m l) e n) = e + n.
Proof.
  intros Hm Hn. unfold shr. destruct n as [|p|p]; try lia; simpl.
  - split; [|lia]. rewrite Z.div_1_r. by destruct l as [|[]].
  - split; [|done]. rewrite iter_pos_nat, shr_iter_m.
    + rewrite positive_nat_Z. f_equal. by destruct l as [|[]].
    + by destruct l as [|[]].
Qed.

Lemma shr_fexp_spec m l e n :
  0 < m → Zdigits2 m = 24 + n → 0 ≤ n → -125 ≤ 24 + n + e →
  ∃ mrs, shr_fexp Float32.prec Float32.emax m e l = (mrs, e + n) ∧
         shr_m mrs = m `div` 2 ^ n.
Proof.
  intros Hm Hd Hn He. unfold shr_fexp. rewrite Hd, fexp_normal by lia.
  replace (24 + n + e - 24 - e) with n by lia.
  pose proof (shr_m_shift m l e n ltac:(lia) Hn) as [H1 H2].
  destruct (shr (shr_record_of_loc m l) e n) as [mrs e1]. simpl in *.
  exists mrs. by subst.
Qed.

Lemma Zdigits2_unique m k :
  2 ^ (k - 1) ≤ m < 2 ^ k → 0 < m → Zdigits2 m = k.
Proof.
  intros Hk Hm. destruct m as [|p|p]; try lia. simpl. by apply digits2_pos_unique.
Qed.

(** Rounding a mantissa of [24 + n] bits: the [n] low bits are dropped, the
    result is the truncated mantissa or its successor, renormalised when the
    successor needs a 25th bit. *)
Lemma binary_round_aux_bounds m l e n :
  Z.pos (digits2_pos m) = 24 + n → 0 ≤ n → -149 ≤ e + n ≤ 103 →
  ∃ m' e' x,
    binary_round_aux Float32.prec Float32.emax false (Z.pos m) e l
    = S754_finite false m' e' ∧
    digits2_pos m' = 24%positive ∧
    Z.pos m `div` 2 ^ n ≤ x ≤ Z.pos m `div` 2 ^ n + 1 ∧
    ((e' = e + n ∧ Z.pos m' = x) ∨ (e' = e + n + 1 ∧ Z.pos m' * 2 = x)).
Proof.
  intros Hd Hn He.
  pose proof (digits2_pos_bound m) as Hb. rewrite Hd in Hb.
  replace (24 + n - 1) with (23 + n) in Hb by lia.
  rewrite !Z.pow_add_r in Hb by lia.
  assert (Hpow : 0 < 2 ^ n) by (apply Z.pow_pos_nonneg; lia).
  assert (Hx0 : 2 ^ 23 ≤ Z.pos m `div` 2 ^ n < 2 ^ 24).
  { split; [apply Z.div_le_lower_bound; lia|apply Z.div_lt_upper_bound; lia]. }
  destruct (shr_fexp_spec (Z.pos m) l e n) as (mrs & Hshr & Hmrs); [lia|done|lia|lia|].
  unfold binary_round_aux. rewrite Hshr.
  pose proof (round_nearest_even_bounds (shr_m mrs) (loc_of_shr_record mrs)) as Hr.
  set (x := round_nearest_even (shr_m mrs) (loc_of_shr_record mrs)) in *.
  rewrite Hmrs in Hr.
  destruct (Z.eq_dec x (2 ^ 24)) as [Hx|Hx].
  - destruct (shr_fexp_spec x loc_Exact (e + n) 1) as (mrs2 & Hshr2 & Hmrs2);
      [lia|apply Zdigits2_unique; lia|lia|lia|].
    rewrite Hshr2, Hmrs2, Hx. change (2 ^ 24 `div` 2 ^ 1) with (Z.pos 8388608).
    cbv beta iota.
    destruct (e + n + 1 <=? Float32.emax - Float32.prec) eqn:E;
      [|apply Z.leb_gt in E; unfold Float32.emax, Float32.prec in E; lia].
    exists 8388608%positive, (e + n + 1), x. repeat split; try done; lia.
  - destruct (shr_fexp_spec x loc_Exact (e + n) 0) as (mrs2 & Hshr2 & Hmrs2);
      [lia|apply Zdigits2_unique; lia|lia|lia|].
    replace (e + n + 0) with (e + n) in Hshr2 by lia.
    rewrite Hshr2, Hmrs2, Z.div_1_r.
    destruct x as [|px|px] eqn:Hpx; try lia.
    destruct (e + n <=? Float32.emax - Float32.prec) eqn:E;
      [|apply Z.leb_gt in E; unfold Float32.emax, Float32.prec in E; lia].
    exists px, (e + n), (Z.pos px). repeat split; try done; try lia.
    apply Pos2Z.inj. rewrite (digits2_pos_unique px 24); [done|lia].
Qed.

Lemma pow2_add a b : 0 ≤ a → 0 ≤ b → 2 ^ (a + b) = 2 ^ a * 2 ^ b.
Proof. intros. by apply Z.pow_add_r. Qed.

Lemma pow2_pos a : 0 ≤ a → 0 < 2 ^ a.
Proof. intros. by apply Z.pow_pos_nonneg. Qed.

(** The quotient of two normal floats that hold the integers [s] and [d]:
    a normal float, at most [s / d] times [1 + 2^-23]. *)
Lemma div_bound ms es md ed s d :
  digits2_pos ms = 24%positive → digits2_pos md = 24%positive →
  -23 ≤ es ≤ 0 → -23 ≤ ed ≤ 0 →
  Z.pos ms = s * 2 ^ (- es) → Z.pos md = d * 2 ^ (- ed) →
  ∃ m e,
    Float32.div (S754_finite false ms es) (S754_finite false md ed)
    = S754_finite false m e ∧
    digits2_pos m = 24%positive ∧ -47 ≤ e ≤ 2 ∧
    Z.pos m * 2 ^ (e + 64) * d * 2 ^ 23 ≤ s * 2 ^ 64 * (2 ^ 23 + 1).
Proof.
  intros Hds Hdd Hes Hed Hs Hd.
  pose proof (digits2_pos_bound ms) as Hbs. rewrite Hds in Hbs.
  pose proof (digits2_pos_bound md) as Hbd. rewrite Hdd in Hbd.
  change (2 ^ (24 - 1)) with 8388608 in *. change (2 ^ 24) with 16777216 in *.
  unfold Float32.div, SFdiv, SFdiv_core_binary.
  simpl Zdigits2. rewrite Hds, Hdd.
  replace (24 + es - (24 + ed)) with (es - ed) by lia.
  rewrite fexp_normal by lia.
  replace (Z.min (es - ed - 24) (es - ed)) with (es - ed - 24) by lia.
  replace (es - ed - (es - ed - 24)) with 24 by lia.
  rewrite Z.shiftl_mul_pow2 by lia.
  pose proof (Z_div_mod (Z.pos ms * 2 ^ 24) (Z.pos md) ltac:(lia)) as Hdm.
  destruct (Z.div_eucl (Z.pos ms * 2 ^ 24) (Z.pos md)) as [q r].
  destruct Hdm as [Hq Hr].
  change (2 ^ 24) with 16777216 in *.
  assert (Hq1 : 8388608 ≤ q < 33554432) by nia.
  destruct q as [|pq|pq]; try lia.
  set (e' := es - ed - 24) in *.
  assert (Hn : ∃ n, (n = 0 ∨ n = 1) ∧ Z.pos (digits2_pos pq) = 24 + n).
  { destruct (Z.lt_ge_cases (Z.pos pq) 16777216).
    - exists 0. split; [by left|]. apply digits2_pos_unique.
      change (2 ^ (24 + 0 - 1)) with 8388608. change (2 ^ (24 + 0)) with 16777216. lia.
    - exists 1. split; [by right|]. apply digits2_pos_unique.
      change (2 ^ (24 + 1 - 1)) with 16777216. change (2 ^ (24 + 1)) with 33554432. lia. }
  destruct Hn as (n & Hn & Hdq).
  destruct (binary_round_aux_bounds pq (new_location (Z.pos md) r) e' n)
    as (m & e & x & Hrun & Hdm & Hx & Hcase); [done|lia|lia|].
  exists m, e. split; [done|]. split; [done|]. split; [lia|].
  (* the value of the result *)
  assert (Hval : Z.pos m * 2 ^ (e + 64) = x * 2 ^ (e' + n + 64)).
  { destruct Hcase as [[-> ->]|[-> <-]]; [done|].
    replace (e' + n + 1 + 64) with (1 + (e' + n + 64)) by lia.
    rewrite pow2_add by lia. lia. }
  rewrite Hval.
  replace (e' + n + 64) with (n + (e' + 64)) by lia.
  rewrite pow2_add by lia.
  assert (Hpn : 2 ^ n = 1 ∨ 2 ^ n = 2) by (destruct Hn as [-> | ->]; [by left|by right]).
  assert (Hxn : x * 2 ^ n ≤ Z.pos pq + 2 ^ n).
  { pose proof (Z.mul_div_le (Z.pos pq) (2 ^ n) ltac:(lia)). nia. }
  assert (Hq23 : 2 ^ n * 2 ^ 23 ≤ Z.pos pq).
  { change (2 ^ 23) with 8388608.
    destruct Hn as [-> | ->]; simpl in *.
    - lia.
    - pose proof (digits2_pos_bound pq) as Hb. rewrite Hdq in Hb.
      change (2 ^ (24 + 1 - 1)) with 16777216 in Hb. lia. }
  assert (Hqd : Z.pos pq * d * 2 ^ (e' + 64) ≤ s * 2 ^ 64).
  { assert (Hqmd : Z.pos pq * Z.pos md ≤ Z.pos ms * 16777216) by lia.
    rewrite Hs, Hd in Hqmd.
    assert (H40 : 0 < 2 ^ (40 + es)) by (apply pow2_pos; lia).
    assert (E1 : 2 ^ (- ed) * 2 ^ (40 + es) = 2 ^ (e' + 64)).
    { rewrite <- pow2_add by lia. f_equal. unfold e'. lia. }
    assert (E2 : 2 ^ (- es) * 16777216 * 2 ^ (40 + es) = 2 ^ 64).
    { change 16777216 with (2 ^ 24). rewrite <- !pow2_add by lia. f_equal. lia. }
    assert (Hmul : Z.pos pq * (d * 2 ^ (- ed)) * 2 ^ (40 + es)
                   ≤ s * 2 ^ (- es) * 16777216 * 2 ^ (40 + es)).
    { apply Z.mul_le_mono_nonneg_r; lia. }
    replace (Z.pos pq * (d * 2 ^ (- ed)) * 2 ^ (40 + es))
      with (Z.pos pq * d * (2 ^ (- ed) * 2 ^ (40 + es))) in Hmul by lia.
    replace (s * 2 ^ (- es) * 16777216 * 2 ^ (40 + es))
      with (s * (2 ^ (- es) * 16777216 * 2 ^ (40 + es))) in Hmul by lia.
    by rewrite E1, E2 in Hmul. }
  assert (Hd0 : 0 < d) by nia.
  assert (Hp64 : 0 < 2 ^ (e' + 64)) by (apply pow2_pos; unfold e'; lia).
  set (T := 2 ^ (e' + 64)) in *. set (N := 2 ^ n) in *.
  change (2 ^ 23) with 8388608 in *.
  assert (0 ≤ d * T) by nia.
  assert (H1 : x * N * (d * T) ≤ (Z.pos pq + N) * (d * T))
    by (apply Z.mul_le_mono_nonneg_r; lia).
  assert (H2 : (Z.pos pq + N) * 8388608 ≤ Z.pos pq * (8388608 + 1)) by lia.
  assert (H3 : (Z.pos pq + N) * 8388608 * (d * T)
               ≤ Z.pos pq * (8388608 + 1) * (d * T))
    by (apply Z.mul_le_mono_nonneg_r; lia).
  nia.
Qed.

(** The product of two normal floats: a normal float, at most the exact
    product times [1 + 2^-23]. *)
Lemma mul_bound m1 e1 m2 e2 :
  digits2_pos m1 = 24%positive → digits2_pos m2 = 24%positive →
  -23 ≤ e1 ≤ 0 → -47 ≤ e2 ≤ 2 →
  ∃ m e,
    Float32.mul (S754_finite false m1 e1) (S754_finite false m2 e2)
    = S754_finite false m e ∧
    -47 ≤ e ≤ 27 ∧
    Z.pos m * 2 ^ (e + 128) * 2 ^ 23
    ≤ (Z.pos m1 * 2 ^ (e1 + 64)) * (Z.pos m2 * 2 ^ (e2 + 64)) * (2 ^ 23 + 1).
Proof.
  intros Hd1 Hd2 He1 He2.
  pose proof (digits2_pos_bound m1) as Hb1. rewrite Hd1 in Hb1.
  pose proof (digits2_pos_bound m2) as Hb2. rewrite Hd2 in Hb2.
  change (2 ^ (24 - 1)) with 8388608 in *. change (2 ^ 24) with 16777216 in *.
  unfold Float32.mul, SFmul. simpl xorb.
  assert (HM : 70368744177664 ≤ Z.pos (m1 * m2) < 281474976710656).
  { rewrite Pos2Z.inj_mul. nia. }
  assert (Hn : ∃ n, (n = 23 ∨ n = 24) ∧ Z.pos (digits2_pos (m1 * m2)) = 24 + n).
  { destruct (Z.lt_ge_cases (Z.pos (m1 * m2)) 140737488355328).
    - exists 23. split; [by left|]. apply digits2_pos_unique.
      change (2 ^ (24 + 23 - 1)) with 70368744177664.
      change (2 ^ (24 + 23)) with 140737488355328. lia.
    - exists 24. split; [by right|]. apply digits2_pos_unique.
      change (2 ^ (24 + 24 - 1)) with 140737488355328.
      change (2 ^ (24 + 24)) with 281474976710656. lia. }
  destruct Hn as (n & Hn & Hdq).
  destruct (binary_round_aux_bounds (m1 * m2) loc_Exact (e1 + e2) n)
    as (m & e & x & Hrun & Hdm & Hx & Hcase); [done|lia|lia|].
  exists m, e. split; [done|]. split; [lia|].
  assert (Hval : Z.pos m * 2 ^ (e + 128) = x * 2 ^ (e1 + e2 + n + 128)).
  { destruct Hcase as [[-> ->]|[-> <-]]; [done|].
    replace (e1 + e2 + n + 1 + 128) with (1 + (e1 + e2 + n + 128)) by lia.
    rewrite pow2_add by lia. lia. }
  rewrite Hval.
  replace (e1 + e2 + n + 128) with (n + ((e1 + 64) + (e2 + 64))) by lia.
  rewrite (pow2_add n) by lia. rewrite (pow2_add (e1 + 64)) by lia.
  assert (Hp1 : 0 < 2 ^ (e1 + 64)) by (apply pow2_pos; lia).
  assert (Hp2 : 0 < 2 ^ (e2 + 64)) by (apply pow2_pos; lia).
  assert (HpN : 0 < 2 ^ n) by (apply pow2_pos; lia).
  assert (Hxn : x * 2 ^ n ≤ Z.pos (m1 * m2) + 2 ^ n).
  { pose proof (Z.mul_div_le (Z.pos (m1 * m2)) (2 ^ n) ltac:(lia)). nia. }
  assert (Hq23 : 2 ^ n * 2 ^ 23 ≤ Z.pos (m1 * m2)).
  { pose proof (digits2_pos_bound (m1 * m2)) as Hb. rewrite Hdq in Hb.
    replace (24 + n - 1) with (n + 23) in Hb by lia.
    rewrite pow2_add in Hb by lia. lia. }
  rewrite Pos2Z.inj_mul in *.
  set (T1 := 2 ^ (e1 + 64)) in *. set (T2 := 2 ^ (e2 + 64)) in *.
  set (N := 2 ^ n) in *. change (2 ^ 23) with 8388608 in *.
  set (P := Z.pos m1 * Z.pos m2) in *.
  assert (0 < T1 * T2) by nia.
  assert (H3 : (P + N) * 8388608 * (T1 * T2) ≤ P * (8388608 + 1) * (T1 * T2))
    by (apply Z.mul_le_mono_nonneg_r; lia).
  assert (H1 : x * N * (T1 * T2) ≤ (P + N) * (T1 * T2))
    by (apply Z.mul_le_mono_nonneg_r; lia).
  unfold P in *. nia.
Qed.

(** [(int)] of a positive float below [s] is the floor: in [0, s). *)
Lemma to_int_below m e s :
  -128 ≤ e → 0 < s ≤ Int.INT_MAX + 1 →
  Z.pos m * 2 ^ (e + 128) < s * 2 ^ 128 →
  0 ≤ Float32.to_int (S754_finite false m e) < s.
Proof.
  intros He Hs Hlt. unfold Float32.to_int.
  assert (Ht : 0 ≤ (if 0 <=? e then Z.pos m * 2 ^ e else Z.pos m `div` 2 ^ (- e)) < s).
  { destruct (0 <=? e) eqn:E.
    - apply Z.leb_le in E.
      replace (e + 128) with (e + 128) in Hlt by lia.
      rewrite pow2_add in Hlt by lia.
      pose proof (pow2_pos e E). pose proof (pow2_pos 128 ltac:(lia)).
      set (T := 2 ^ e) in *. set (U := 2 ^ 128) in *. nia.
    - apply Z.leb_gt in E.
      pose proof (pow2_pos (- e) ltac:(lia)) as Hp.
      pose proof (pow2_pos (e + 128) ltac:(lia)) as Hq.
      assert (E2 : 2 ^ (- e) * 2 ^ (e + 128) = 2 ^ 128).
      { rewrite <- pow2_add by lia. f_equal. lia. }
      pose proof (Z.mul_div_le (Z.pos m) (2 ^ (- e)) Hp) as Hle.
      assert (0 ≤ Z.pos m `div` 2 ^ (- e)) by (apply Z.div_pos; lia).
      split; [done|].
      set (t := Z.pos m `div` 2 ^ (- e)) in *.
      set (A := 2 ^ (- e)) in *. set (B := 2 ^ (e + 128)) in *.
      set (U := 2 ^ 128) in *.
      assert (t * A * B ≤ Z.pos m * B) by nia.
      assert (t * U < s * U) by nia.
      nia. }
  cbv zeta.
  set (t := if 0 <=? e then _ else _) in *.
  unfold Int.INT_MIN, Int.INT_MAX in *.
  destruct (_ <=? t) eqn:E1; destruct (t <=? _) eqn:E2; simpl;
    try apply Z.leb_le in E1; try apply Z.leb_le in E2;
    try apply Z.leb_gt in E1; try apply Z.leb_gt in E2; lia.
Qed.

(** The coordinate [ScaleImage] computes lies inside the source, for sizes
    a float holds exactly and destinations of at most 2^21. *)
Lemma nearest_in_range s d i :
  0 < s < 2 ^ 24 → 0 < d ≤ 2 ^ 21 → 0 ≤ i < d → 0 ≤ nearest s d i < s.
Proof.
  intros Hs Hd Hi. unfold nearest.
  change (2 ^ 24) with 16777216 in *. change (2 ^ 21) with 2097152 in *.
  destruct s as [|ps|ps]; try lia. destruct d as [|pd|pd]; try lia.
  destruct (of_Z_exact ps) as (ms & es & -> & Hds & Hes & Hms);
    [change (2 ^ 24) with 16777216; lia|].
  destruct (of_Z_exact pd) as (md & ed & -> & Hdd & Hed & Hmd);
    [change (2 ^ 24) with 16777216; lia|].
  destruct (div_bound ms es md ed (Z.pos ps) (Z.pos pd))
    as (mc & ec & -> & Hdc & Hec & Hc); [done..|].
  destruct i as [|pi|pi]; try lia.
  { change (Float32.of_Z 0) with (S754_zero false). simpl. lia. }
  destruct (of_Z_exact pi) as (mi & ei & -> & Hdi & Hei & Hmi);
    [change (2 ^ 24) with 16777216; lia|].
  destruct (mul_bound mi ei mc ec) as (m & e & -> & He & Hp); [done..|].
  apply to_int_below; [lia|unfold Int.INT_MAX; lia|].
  assert (Ei : Z.pos mi * 2 ^ (ei + 64) = Z.pos pi * 2 ^ 64).
  { rewrite Hmi, <- Z.mul_assoc, <- pow2_add by lia. do 2 f_equal. lia. }
  rewrite Ei in Hp.
  pose proof (pow2_pos (ec + 64) ltac:(lia)) as Hpc.
  pose proof (pow2_pos (e + 128) ltac:(lia)) as Hpe.
  change (2 ^ 128) with (2 ^ 64 * 2 ^ 64).
  change (2 ^ 23) with 8388608 in *.
  set (U := 2 ^ 64) in *. assert (0 < U) by (by apply pow2_pos).
  set (Sc := Z.pos mc * 2 ^ (ec + 64)) in *.
  set (P := Z.pos m * 2 ^ (e + 128)) in *.
  set (D := Z.pos pd) in *. set (I := Z.pos pi) in *. set (Sr := Z.pos ps) in *.
  assert (0 < Sc) by (unfold Sc; nia).
  (* P * 2^23 ≤ I * U * Sc * (2^23 + 1)  and  Sc * D * 2^23 ≤ Sr * U * (2^23 + 1) *)
  assert (K1 : P * 8388608 * (D * 8388608)
               ≤ I * U * Sc * (8388608 + 1) * (D * 8388608))
    by (apply Z.mul_le_mono_nonneg_r; lia).
  assert (K2 : I * U * (8388608 + 1) * (Sc * D * 8388608)
               ≤ I * U * (8388608 + 1) * (Sr * U * (8388608 + 1)))
    by (apply Z.mul_le_mono_nonneg_l; nia).
  assert (K3 : P * D * 70368744177664 ≤ I * 70368760954881 * (Sr * (U * U))) by lia.
  assert (K4 : I * 70368760954881 < D * 70368744177664) by lia.
  assert (0 < Sr * (U * U)) by nia.
  assert (K5 : I * 70368760954881 * (Sr * (U * U))
               < D * 70368744177664 * (Sr * (U * U)))
    by (apply Z.mul_lt_mono_pos_r; lia).
  assert (K6 : P * (D * 70368744177664) < Sr * (U * U) * (D * 70368744177664)) by lia.
  apply Z.mul_lt_mono_pos_r in K6; lia.
Qed.

(** ** The error channel *)

Lemma silent_ret {A} (a : A) : silent (mret a).
Proof. by intros w. Qed.

Lemma silent_this : silent this.
Proof. by intros w. Qed.

Lemma silent_on_mem {A} (m : M heap A) : silent (on_mem m).
Proof. intros w. unfold on_mem. by destruct (m (mem w)). Qed.

Lemma silent_set_this g :
  (∀ a, errorHandler_ (g a) = errorHandler_ a) → silent (set_this g).
Proof. intros Hg w. apply Hg. Qed.

Lemma silent_bind {A B} (m : M World A) (k : A → M World B) :
  silent m → (∀ a, silent (k a)) → silent (m ≫= k).
Proof.
  intros Hm Hk w. specialize (Hm w). unfold mbind, M_bind.
  destruct (m w) as [a w'|f w']; simpl in *; [|done].
  by rewrite Hk.
Qed.

Lemma silent_ReleaseBuffer_ : silent ReleaseBuffer_.
Proof.
  unfold ReleaseBuffer_.
  apply silent_bind; [apply silent_this|intros a].
  apply silent_bind; [apply silent_on_mem|intros b].
  by apply silent_set_this.
Qed.

Lemma reports_silent {A} (m : M World A) : silent m → reports m.
Proof.
  intros Hm w. exists 0%nat, None. unfold calls_of, error_of. rewrite Hm. simpl.
  by rewrite app_nil_r.
Qed.

Lemma reports_SetError msg : reports (errorHandler_SetError msg).
Proof. intros w. by exists 0%nat, (Some msg). Qed.

Lemma reports_silent_bind {A B} (m : M World A) (k : A → M World B) :
  silent m → (∀ a, reports (k a)) → reports (m ≫= k).
Proof.
  intros Hm Hk w. specialize (Hm w). unfold mbind, M_bind.
  destruct (m w) as [a w'|f w']; simpl in *.
  - destruct (Hk a w') as (n & o & Hcalls & Herr). exists n, o.
    rewrite Hcalls, Herr. unfold calls_of, error_of. by rewrite Hm.
  - exists 0%nat, None. unfold calls_of, error_of. rewrite Hm. simpl.
    by rewrite app_nil_r.
Qed.

Lemma reports_bind_silent {A B} (m : M World A) (k : A → M World B) :
  reports m → (∀ a, silent (k a)) → reports (m ≫= k).
Proof.
  intros Hm Hk w. specialize (Hm w). unfold mbind, M_bind.
  destruct (m w) as [a w'|f w']; [|exact Hm].
  destruct Hm as (n & o & Hcalls & Herr). exists n, o.
  unfold calls_of, error_of in *. rewrite Hk. by split.
Qed.

Lemma reports_Clear {A} (k : M World A) :
  reports k → reports (errorHandler_Clear ≫= λ _, k).
Proof.
  intros Hk w. unfold mbind, M_bind, errorHandler_Clear, set_this.
  match goal with
  | |- context [k ?w1] => destruct (Hk w1) as (n & o & Hcalls & Herr)
  end.
  exists (S n), o. rewrite Hcalls, Herr. unfold calls_of. simpl.
  split; [by rewrite <- app_assoc|]. by destruct o, n.
Qed.

Lemma clears_first_Clear {A} (k : M World A) :
  reports k → clears_first (errorHandler_Clear ≫= λ _, k).
Proof.
  intros Hk w. unfold mbind, M_bind, errorHandler_Clear, set_this.
  match goal with
  | |- context [k ?w1] => destruct (Hk w1) as (n & o & Hcalls & Herr)
  end.
  exists n, o. rewrite Hcalls, Herr. unfold calls_of. simpl.
  split; [by rewrite <- app_assoc|]. by destruct o, n.
Qed.

Lemma clears_first_bind_silent {A B} (m : M World A) (k : A → M World B) :
  clears_first m → (∀ a, silent (k a)) → clears_first (m ≫= k).
Proof.
  intros Hm Hk w. specialize (Hm w). unfold mbind, M_bind.
  destruct (m w) as [a w'|f w']; [|exact Hm].
  destruct Hm as (n & o & Hcalls & Herr). exists n, o.
  unfold calls_of, error_of in *. rewrite Hk. by split.
Qed.

Lemma clears_first_reports {A} (m : M World A) : clears_first m → reports m.
Proof.
  intros Hm w. destruct (Hm w) as (n & o & Hcalls & Herr). exists (S n), o.
  split; [done|]. rewrite Herr. by destruct o.
Qed.

(** Straight-line code: each step is silent, or a single [SetError] followed
    by silent steps, with a case distinction wherever the code branches. *)
Ltac silent_step :=
  first
    [ apply silent_ret | apply silent_this | apply silent_on_mem
    | apply silent_ReleaseBuffer_
    | apply silent_set_this; intros []; reflexivity
    | apply silent_bind; [|intros ?] ].

Ltac silent_steps := repeat first [ silent_step | progress cbv zeta | case_match ].

Ltac reports_step :=
  first
    [ apply reports_SetError
    | apply reports_Clear
    | apply reports_bind_silent; [apply reports_SetError | intros ?; silent_steps; fail]
    | apply reports_silent_bind; [silent_steps; fail | intros ?]
    | apply reports_silent; silent_steps; fail ].

Ltac reports_steps := repeat first [ reports_step | progress cbv zeta | case_match ].

Lemma reports_Load_pixels p size width height c :
  clears_first (Load_pixels p size width height c).
Proof. apply clears_first_Clear. unfold ReleaseBuffer_. reports_steps. Qed.

Section Channel.
Context (env : Env).

Lemma clears_first_LoadWebP d : clears_first (LoadWebP env d).
Proof. apply clears_first_Clear. reports_steps. Qed.

Lemma clears_first_LoadJpeg d : clears_first (LoadJpeg env d).
Proof. apply clears_first_Clear. reports_steps. Qed.

Lemma clears_first_LoadFile d : clears_first (LoadFile env d).
Proof. apply clears_first_Clear. reports_steps. Qed.

Lemma clears_first_LoadFromFile p : clears_first (LoadFromFile env p).
Proof. apply clears_first_Clear. reports_steps. Qed.
End Channel.

(** Giving a block back does not touch the error channel. *)
Lemma scoped_errorHandler {A} p (m : M World A) w :
  errorHandler_ (self (final (scoped p m w))) = errorHandler_ (self (final (m w))).
Proof.
  unfold scoped, mbind, M_bind, on_mem.
  destruct (m w) as [a w'|f w']; simpl.
  - by destruct (free_block p (mem w')).
  - destruct f; try done. by destruct (free_block p (mem w')).
Qed.

Lemma reports_scoped {A} p (m : M World A) : reports m → reports (scoped p m).
Proof.
  intros Hm w. specialize (Hm w). unfold reported, calls_of, error_of in *.
  by rewrite scoped_errorHandler.
Qed.

Section Channel2.
Context (env : Env).

Lemma clears_first_load_whole_file what path decode :
  (∀ d, clears_first (decode d)) →
  clears_first (load_whole_file env what path decode).
Proof.
  intros Hdecode. apply clears_first_Clear. unfold ERROR_HANDLER_ERRNO.
  repeat first
    [ apply reports_scoped
    | apply clears_first_reports, Hdecode
    | reports_step | progress cbv zeta | case_match ].
Qed.

Lemma clears_first_Load_path path : clears_first (Load_path env path).
Proof.
  apply clears_first_Clear. unfold ERROR_HANDLER_ERRNO.
  repeat first
    [ apply clears_first_reports, clears_first_load_whole_file;
        intros ?; first [apply clears_first_LoadWebP | apply clears_first_LoadJpeg]
    | apply clears_first_reports, clears_first_LoadFromFile
    | reports_step | progress cbv zeta | case_match ].
Qed.

Lemma clears_first_Load_data d : clears_first (Load_data env d).
Proof.
  apply clears_first_Clear.
  repeat first
    [ apply clears_first_reports;
        first [apply clears_first_LoadWebP | apply clears_first_LoadJpeg
              | apply clears_first_LoadFile]
    | case_match ].
Qed.

(** Every member function that works on [this] in place clears the error
    channel first and then sets it at most once, as its last call on it. *)
Lemma clears_first_perform c : clears_first (perform env c).
Proof.
  destruct c; simpl.
  - apply clears_first_bind_silent; [apply clears_first_Load_path|]. intros; silent_steps.
  - apply clears_first_bind_silent; [apply clears_first_Load_data|]. intros; silent_steps.
  - apply clears_first_bind_silent; [apply reports_Load_pixels|]. intros; silent_steps.
  - apply clears_first_bind_silent; [|intros; silent_steps].
    apply clears_first_Clear. reports_steps.
  - apply clears_first_bind_silent; [|intros; silent_steps].
    apply clears_first_Clear. reports_steps.
  - apply clears_first_bind_silent; [|intros; silent_steps].
    apply clears_first_Clear. reports_steps.
  - apply clears_first_bind_silent; [|intros; silent_steps].
    apply clears_first_Clear. reports_steps.
  - apply clears_first_bind_silent; [|intros; silent_steps].
    apply clears_first_Clear. reports_steps.
  - apply clears_first_bind_silent; [|intros; silent_steps].
    apply clears_first_Clear. reports_steps.
  - apply clears_first_bind_silent; [|intros; silent_steps].
    apply clears_first_Clear. reports_steps.
Qed.
End Channel2.

(** ** Memory that a member function leaves alone *)

Section Frame.
Context (b : loc).

Lemma outside_ptr_add p k : outside b p → outside b (ptr_add p k).
Proof. by destruct p. Qed.

Lemma outside_Null : outside b Null.
Proof. done. Qed.

Lemma keeps_ret {A} (a : A) (Q : A → Prop) : Q a → keeps b (mret a) Q.
Proof. by intros Ha h cells Hb. Qed.

Lemma keeps_bind {A B} (m : M heap A) (k : A → M heap B) Q R :
  keeps b m Q → (∀ a, Q a → keeps b (k a) R) → keeps b (m ≫= k) R.
Proof.
  intros Hm Hk h cells Hb. specialize (Hm h cells Hb). unfold mbind, M_bind.
  destruct (m h) as [a h'|f h']; [|done].
  destruct Hm as [Hb' Ha]. by apply Hk.
Qed.

Lemma keeps_for_loop n i body :
  (∀ j, keeps b (body j) (λ _, True)) → keeps b (for_loop n i body) (λ _, True).
Proof.
  intros Hbody. revert i. induction n as [|n IH]; intros i; simpl;
    (destruct (Int.INT_MAX <? i); [by intros h cells Hb|]).
  - by apply keeps_ret.
  - eapply keeps_bind; [apply Hbody|]. intros _ _. apply IH.
Qed.

Lemma store_cells_outside (h h' : heap) p vs cells :
  outside b p → h !! b = Some cells → store_cells h p vs = Some h' →
  h' !! b = Some cells.
Proof.
  intros Hp Hb. unfold store_cells. destruct p as [|b' o]; [done|].
  destruct (h !! b') as [cs|]; [|done].
  destruct (_ && _); [|done]. intros [= <-].
  rewrite lookup_insert_ne; [done|]. intros ->. by apply Hp.
Qed.

Lemma keeps_memcpy dst src n :
  outside b dst → keeps b (memcpy dst src n) (λ _, True).
Proof.
  intros Hdst h cells Hb. unfold memcpy.
  destruct (n =? 0); [done|].
  destruct (load_cells h src n) as [vs|]; [|done].
  destruct (store_cells h dst vs) as [h'|] eqn:Hst; [|done].
  split; [|done]. by eapply store_cells_outside.
Qed.

Lemma keeps_copy_byte dst i src j :
  outside b dst → keeps b (copy_byte dst i src j) (λ _, True).
Proof. intros Hdst. apply keeps_memcpy. by apply outside_ptr_add. Qed.

Lemma keeps_write_bytes p vs :
  outside b p → keeps b (write_bytes p vs) (λ _, True).
Proof.
  intros Hp h cells Hb. unfold write_bytes. destruct vs as [|v vs]; [done|].
  destruct (store_cells h p _) as [h'|] eqn:Hst; [|done].
  split; [|done]. by eapply store_cells_outside.
Qed.

Lemma keeps_store_rows p stride r rows :
  outside b p → keeps b (store_rows p stride r rows) (λ _, True).
Proof.
  intros Hp. revert r. induction rows as [|row rows IH]; intros r; simpl.
  - by apply keeps_ret.
  - eapply keeps_bind; [apply keeps_write_bytes, outside_ptr_add, Hp|].
    intros _ _. apply IH.
Qed.

Lemma keeps_new_array size : keeps b (new_array size) (outside b).
Proof.
  intros h cells Hb. unfold new_array.
  destruct (Int.PTRDIFF_MAX <? size); [done|].
  assert (Hne : fresh (dom h) ≠ b) by (apply fresh_ne_live; eauto).
  split; [by rewrite lookup_insert_ne|]. unfold outside. simpl. congruence.
Qed.

Lemma keeps_alloc_with vs : keeps b (alloc_with vs) (outside b).
Proof.
  intros h cells Hb. unfold alloc_with.
  assert (Hne : fresh (dom h) ≠ b) by (apply fresh_ne_live; eauto).
  split; [by rewrite lookup_insert_ne|]. unfold outside. simpl. congruence.
Qed.

Lemma keeps_free_block p : outside b p → keeps b (free_block p) (λ _, True).
Proof.
  intros Hp h cells Hb. unfold free_block.
  destruct p as [|b' o]; [done|]. destruct o; try done.
  destruct (h !! b') eqn:Hb'; [|done].
  split; [|done]. rewrite lookup_delete_ne; [done|]. intros ->. by apply Hp.
Qed.

Lemma keeps_AllocateBuffer size :
  keeps b (AllocateBuffer size) (λ B, outside b (buffer B)).
Proof.
  unfold AllocateBuffer. destruct (size =? 0).
  - by apply keeps_ret.
  - eapply keeps_bind; [apply keeps_new_array|].
    intros p Hp. by apply keeps_ret.
Qed.

Lemma keeps_ReleaseBuffer B :
  outside b (buffer B) →
  keeps b (ReleaseBuffer B) (λ B', outside b (buffer B')).
Proof.
  intros HB. unfold ReleaseBuffer. destruct (is_null (buffer B)).
  - by apply keeps_ret.
  - eapply keeps_bind.
    + destruct (source B); by apply keeps_free_block.
    + intros _ _. by apply keeps_ret.
Qed.

Lemma keeps_ScaleImage P src dst sW sH dW dH :
  outside b dst → keeps b (ScaleImage P src dst sW sH dW dH) (λ _, True).
Proof.
  intros Hdst. unfold ScaleImage.
  apply keeps_for_loop; intros ix. apply keeps_for_loop; intros iy.
  apply keeps_for_loop; intros i. by apply keeps_copy_byte.
Qed.

Lemma spares_ret {A} (a : A) (Q : A → Prop) : Q a → spares b (mret a) Q.
Proof. by intros Ha w cells Hw. Qed.

Lemma spares_bind {A B} (m : M World A) (k : A → M World B) Q R :
  spares b m Q → (∀ a, Q a → spares b (k a) R) → spares b (m ≫= k) R.
Proof.
  intros Hm Hk w cells Hw. specialize (Hm w cells Hw). unfold mbind, M_bind.
  destruct (m w) as [a w'|f w']; [|done].
  destruct Hm as [Hw' Ha]. by apply Hk.
Qed.

Lemma spares_this : spares b this (λ a, outside b (buffer (buffer_ a))).
Proof. intros w cells Hw. split; [done|]. apply Hw. Qed.

Lemma spares_set_this g :
  (∀ a, outside b (buffer (buffer_ a)) → outside b (buffer (buffer_ (g a)))) →
  spares b (set_this g) (λ _, True).
Proof.
  intros Hg w cells [Hb Hout]. split; [|done]. split; [done|]. by apply Hg.
Qed.

Lemma spares_on_mem {A} (m : M heap A) Q : keeps b m Q → spares b (on_mem m) Q.
Proof.
  intros Hm w cells [Hb Hout]. specialize (Hm (mem w) cells Hb). unfold on_mem.
  destruct (m (mem w)) as [a h'|f h'].
  - destruct Hm as [Hb' Ha]. by repeat split.
  - by split.
Qed.

Lemma spares_ReleaseBuffer_ : spares b ReleaseBuffer_ (λ _, True).
Proof.
  unfold ReleaseBuffer_.
  eapply spares_bind; [apply spares_this|intros a Ha].
  eapply spares_bind; [apply spares_on_mem, keeps_ReleaseBuffer, Ha|intros B HB].
  by apply spares_set_this.
Qed.

Lemma spares_errorHandler_Clear : spares b errorHandler_Clear (λ _, True).
Proof. by apply spares_set_this. Qed.

Lemma spares_errorHandler_SetError msg :
  spares b (errorHandler_SetError msg) (λ _, True).
Proof. by apply spares_set_this. Qed.
End Frame.

(** A step of a member function on an asset whose buffer is not block [b]. *)
Ltac outside_solve :=
  first [ assumption | apply outside_Null | apply outside_ptr_add; assumption ].

Ltac spares_leaf :=
  first
    [ apply spares_ret; exact I
    | apply spares_this
    | apply spares_errorHandler_Clear | apply spares_errorHandler_SetError
    | apply spares_ReleaseBuffer_
    | apply spares_set_this; intros [] ?; simpl; outside_solve
    | apply spares_on_mem;
      first [ apply keeps_AllocateBuffer | apply keeps_new_array | apply keeps_alloc_with
            | apply keeps_free_block; outside_solve
            | apply keeps_memcpy; outside_solve
            | apply keeps_store_rows; outside_solve
            | apply keeps_ScaleImage; outside_solve
            | apply keeps_for_loop; intros ?; apply keeps_memcpy; outside_solve ] ].

Ltac spares_steps :=
  repeat first
    [ progress cbv zeta
    | spares_leaf
    | eapply spares_bind; [spares_leaf | intros ? ?]
    | case_match ].

Lemma spares_Load_pixels b p size width height c :
  spares b (Load_pixels p size width height c) (λ _, True).
Proof. unfold Load_pixels. spares_steps. Qed.

Lemma spares_Clip b x y cw ch : spares b (Clip x y cw ch) (λ _, True).
Proof. unfold Clip. spares_steps. Qed.

Lemma spares_Resize b dW dH : spares b (Resize dW dH) (λ _, True).
Proof. unfold Resize. spares_steps. Qed.

Lemma spares_Unload b : spares b Unload (λ _, True).
Proof. unfold Unload. spares_steps. Qed.

Lemma spares_CopyTo b dest : outside b dest → spares b (CopyTo dest) (λ _, True).
Proof. intros Hdest. unfold CopyTo. spares_steps. Qed.

Lemma spares_scoped b {A} p (m : M World A) Q :
  outside b p → spares b m Q → spares b (scoped p m) Q.
Proof.
  intros Hp Hm w cells Hw. specialize (Hm w cells Hw). unfold scoped.
  pose proof (spares_on_mem b (free_block p) _ (keeps_free_block b p Hp)) as Hfree.
  destruct (m w) as [a w'|f w'].
  - destruct Hm as [Hw' Ha]. specialize (Hfree w' cells Hw').
    unfold mbind, M_bind. destruct (on_mem (free_block p) w') as [[] w''|f w''].
    + by destruct Hfree.
    + done.
  - destruct f; try done. specialize (Hfree w' cells Hm).
    unfold mbind, M_bind. destruct (on_mem (free_block p) w') as [[] w''|f w''].
    + by destruct Hfree.
    + done.
Qed.

Section FrameLoading.
Context (env : Env) (b : loc).

Lemma spares_LoadWebP d : spares b (LoadWebP env d) (λ _, True).
Proof. unfold LoadWebP. spares_steps. Qed.

Lemma spares_LoadJpeg d : spares b (LoadJpeg env d) (λ _, True).
Proof. unfold LoadJpeg. spares_steps. Qed.

Lemma spares_LoadFile d : spares b (LoadFile env d) (λ _, True).
Proof. unfold LoadFile. spares_steps. Qed.

Lemma spares_LoadFromFile p : spares b (LoadFromFile env p) (λ _, True).
Proof. unfold LoadFromFile. spares_steps. Qed.

Lemma spares_load_whole_file what path decode :
  (∀ d, spares b (decode d) (λ _, True)) →
  spares b (load_whole_file env what path decode) (λ _, True).
Proof.
  intros Hdecode. unfold load_whole_file, ERROR_HANDLER_ERRNO.
  repeat first
    [ progress cbv zeta | spares_leaf
    | apply spares_scoped; [assumption|]
    | apply Hdecode
    | eapply spares_bind; [spares_leaf | intros ? ?]
    | case_match ].
Qed.

Lemma spares_Load_path path : spares b (Load_path env path) (λ _, True).
Proof.
  unfold Load_path, ERROR_HANDLER_ERRNO, LoadWebPFromFile, LoadJpegFromFile.
  repeat first
    [ progress cbv zeta | spares_leaf
    | apply spares_load_whole_file; intros ?;
        first [apply spares_LoadWebP | apply spares_LoadJpeg]
    | apply spares_LoadFromFile
    | eapply spares_bind; [spares_leaf | intros ? ?]
    | case_match ].
Qed.

Lemma spares_Load_data d : spares b (Load_data env d) (λ _, True).
Proof.
  unfold Load_data.
  repeat first
    [ progress cbv zeta | spares_leaf
    | apply spares_LoadWebP | apply spares_LoadJpeg | apply spares_LoadFile
    | eapply spares_bind; [spares_leaf | intros ? ?]
    | case_match ].
Qed.

(** No call on an asset touches a block that is not its buffer, unless the
    caller names that block as a destination. *)
Lemma spares_perform c :
  writes_outside b c → spares b (perform env c) (λ _, True).
Proof.
  intros Hc. destruct c; simpl in *.
  all: apply (spares_bind b _ _ (λ _, True)); [|intros ? ?; apply spares_ret; exact I].
  - apply spares_Load_path.
  - apply spares_Load_data.
  - apply spares_Load_pixels.
  - unfold GetWidth. spares_steps.
  - unfold GetHeight. spares_steps.
  - unfold GetChannelCount. spares_steps.
  - apply spares_Clip.
  - apply spares_Resize.
  - apply spares_Unload.
  - by apply spares_CopyTo.
Qed.

Lemma spares_perform_all cs :
  Forall (writes_outside b) cs → spares b (perform_all env cs) (λ _, True).
Proof.
  induction 1 as [|c cs Hc Hcs IH]; simpl.
  - by apply spares_ret.
  - eapply spares_bind; [by apply spares_perform|]. intros _ _. apply IH.
Qed.
End FrameLoading.

(** * The claims *)

(** ** C1: a load that fails *)

(** When the WebP decoder fails after the header was read, the buffer and the
    memory are what they were, but the dimensions are those of the file that
    did not load, with four channels. *)
Lemma LoadWebP_decode_failure env d w iw ih status :
  WebPGetInfo env d = Some (iw, ih) →
  WebPInitDecoderConfig env = true →
  WebPGetFeatures env d = 0 →
  WebPDecode env d = (status, []) →
  status ≠ 0 →
  0 ≤ iw * ih * 4 ≤ Int.INT_MAX →
  LoadWebP env d w
  = Done tt
      {| mem := mem w;
         self := {| buffer_ := buffer_ (self w);
                    width_ := iw; height_ := ih; channelCount_ := 4;
                    errorHandler_ :=
                      ErrorHandler.SetError
                        ("Failed to call WebPDecode: " +:+ pretty status)
                        (ErrorHandler.Clear (errorHandler_ (self w))) |} |}.
Proof.
  intros Hinfo Hinit Hfeat Hdec Hstatus Hsize.
  unfold LoadWebP, mbind, M_bind, errorHandler_Clear, errorHandler_SetError,
    set_this, this.
  rewrite Hinfo, Hinit, Hfeat, Hdec. simpl.
  assert (E : Int.size_t (Int.int32 (iw * ih * 4)) = iw * ih * 4).
  { rewrite int32_id by (unfold is_int32, Int.INT_MIN, Int.INT_MAX in *; lia).
    apply size_t_id. unfold Int.INT_MAX in *. lia. }
  rewrite E. unfold on_mem at 1. simpl mem.
  rewrite new_array_Done by (unfold Int.INT_MAX, Int.PTRDIFF_MAX in *; lia).
  simpl.
  destruct (status =? 0) eqn:Hs; [apply Z.eqb_eq in Hs; lia|]. simpl.
  unfold on_mem. simpl.
  rewrite lookup_insert_eq, delete_insert_id by apply fresh_not_live.
  done.
Qed.

(** When TurboJPEG fails to decompress after the header was read, likewise
    the dimensions are those of the file that did not load, with three
    channels. *)
Lemma LoadJpeg_decompress_failure env d w transformed iw ih msg :
  tjInitTransform env = None →
  tjTransform env d = inr transformed →
  tjInitDecompress env = None →
  tjDecompressHeader3 env d = inr (iw, ih) →
  tjDecompress2 env transformed iw ih = inl msg →
  0 ≤ iw * ih * 3 ≤ Int.INT_MAX →
  LoadJpeg env d w
  = Done tt
      {| mem := mem w;
         self := {| buffer_ := buffer_ (self w);
                    width_ := iw; height_ := ih; channelCount_ := 3;
                    errorHandler_ :=
                      ErrorHandler.SetError msg
                        (ErrorHandler.Clear (errorHandler_ (self w))) |} |}.
Proof.
  intros Hinit Htrans Hinit' Hhead Hdec Hsize.
  unfold LoadJpeg, mbind, M_bind, errorHandler_Clear, errorHandler_SetError,
    set_this, this.
  rewrite Hinit, Htrans, Hinit', Hhead. simpl. rewrite Hdec.
  assert (E : Int.size_t (Int.int32 (iw * ih * 3)) = iw * ih * 3).
  { rewrite int32_id by (unfold is_int32, Int.INT_MIN, Int.INT_MAX in *; lia).
    apply size_t_id. unfold Int.INT_MAX in *. lia. }
  rewrite E. unfold on_mem at 1. simpl mem.
  rewrite new_array_Done by (unfold Int.INT_MAX, Int.PTRDIFF_MAX in *; lia).
  simpl. unfold on_mem. simpl.
  rewrite lookup_insert_eq, delete_insert_id by apply fresh_not_live.
  done.
Qed.

(** C1 (the code departs from the claim).  A WebP file cut short after its
    header is loaded into an asset that holds a 2 x 2 RGB image.  The load
    fails and the buffer is the old one, byte for byte, but the asset now
    says 4 x 4 with 4 channels: width, height and channel count changed
    without the pixel buffer they describe. *)
Theorem failed_load_changes_metadata :
  ∃ w', Load_data truncated_webp truncated_webp_file tiny_world = Done tt w' ∧
        error_of w' = "Failed to call WebPDecode: 7" ∧
        buffer_ (self w') = buffer_ (self tiny_world) ∧
        mem w' = mem tiny_world ∧
        pixels_of w' = tiny_cells ∧
        (width_ (self tiny_world), height_ (self tiny_world),
         channelCount_ (self tiny_world)) = (2, 2, 3) ∧
        (width_ (self w'), height_ (self w'), channelCount_ (self w')) = (4, 4, 4).
Proof.
  eexists. split; [vm_compute; reflexivity|]. vm_compute. repeat split.
Qed.

(** ** C2: Clip *)

(** A clip with a negative width passes the range test when its height is
    negative too; with a positive height the allocation throws. *)
Example Clip_negative_width_throws :
  clip_in_range 2 2 1 0 (-1) 1 ∧
  ∃ w', Clip 1 0 (-1) 1 tiny_world = Crash BadAlloc w' ∧
        width_ (self w') = 2 ∧ height_ (self w') = 2 ∧ pixels_of w' = tiny_cells.
Proof.
  split; [unfold clip_in_range; lia|].
  eexists. split; [vm_compute; reflexivity|]. vm_compute. repeat split.
Qed.

(** C2 (the code departs from the claim).  On the 2 x 2 image,
    [Clip(1, 1, -1, -1)] is in range by all four tests.  Rows [2, 1) and
    columns [1, 0) hold no byte, but the asset ends up with a buffer of three
    bytes that were never written, and with width and height -1. *)
Theorem Clip_negative_extent :
  clip_in_range (width_ (self tiny_world)) (height_ (self tiny_world)) 1 1 (-1) (-1) ∧
  ∃ w', Clip 1 1 (-1) (-1) tiny_world = Done tt w' ∧
        error_of w' = EmptyString ∧
        width_ (self w') = -1 ∧ height_ (self w') = -1 ∧
        loaded (self w') ∧
        pixels_of w' = [None; None; None].
Proof.
  split; [vm_compute; repeat split; discriminate|].
  eexists. split; [vm_compute; reflexivity|]. vm_compute. repeat split.
Qed.

(** ** C3: the loaded test *)

(** C3 fails for [Clone], which has no loaded test: on a fresh, unloaded
    asset it sets no error. *)
Lemma Clone_not_refused : ¬ refused empty_world (Clone empty_world).
Proof.
  intros (c & w' & Hrun & Herr & _). vm_compute in Hrun.
  injection Hrun as <- <-. vm_compute in Herr. discriminate Herr.
Qed.

(** C3 (as amended).  Every member function that tests for a loaded buffer
    (GetWidth, GetHeight, GetChannelCount, Clip, Resize, Unload and CopyTo),
    called on an unloaded asset, returns its sentinel (-1 for the three
    queries), sets the error "image asset is not loaded" and changes neither
    the asset's buffer, width, height and channel count nor the memory. *)
Theorem unloaded_call_refused env c w :
  tests_loaded c = true → unloaded (self w) →
  refused w (perform env c w) ∧
  ∃ w', perform env c w = Done (sentinel c) w'.
Proof.
  intros Hc Hw. rewrite (perform_unloaded env c w Hc Hw).
  split; [|by eexists]. eexists _, _. split; [done|]. by repeat split.
Qed.

Lemma unloaded_call_refused_witness :
  (tests_loaded CallGetWidth = true ∧ unloaded (self empty_world)) ∧
  (refused empty_world (perform truncated_webp CallGetWidth empty_world) ∧
   ∃ w', perform truncated_webp CallGetWidth empty_world
         = Done (sentinel CallGetWidth) w').
Proof.
  split; [split; reflexivity|].
  apply (unloaded_call_refused truncated_webp CallGetWidth empty_world);
    reflexivity.
Defined.

(** ** C4: the error channel *)

(** C4 fails for [Clone], which is [const]: it makes no call on the error
    channel of the asset it copies, so an error set by an earlier call is
    still there afterwards. *)
Lemma Clone_does_not_clear :
  ¬ cleared_first stale_world (final (Clone stale_world)).
Proof.
  intros (k & o & Hcalls & _). vm_compute in Hcalls.
  apply (f_equal length) in Hcalls. simpl in Hcalls. lia.
Qed.

Lemma silent_Clone w : errorHandler_ (self (final (Clone w))) = errorHandler_ (self w).
Proof. unfold Clone. by destruct (Load_pixels _ _ _ _ _ _). Qed.

(** C4 (as amended).  Every public member function that works on the asset in
    place (the three loads, the three queries, Clip, Resize, Unload and
    CopyTo) clears the error channel before anything else and then sets it at
    most once, as its last call on the channel; the slot ends up holding that
    one message, or nothing.  [Clone] and [GetError] make no call on the
    channel at all. *)
Theorem call_clears_then_sets_once env c w :
  cleared_first w (final (perform env c w)) ∧
  errorHandler_ (self (final (Clone w))) = errorHandler_ (self w) ∧
  errorHandler_ (self (final (GetError w))) = errorHandler_ (self w).
Proof.
  split; [apply clears_first_perform|]. split; [apply silent_Clone|done].
Qed.

(** ** C5: the pixel Resize copies *)

(** C5 fails when 2 pixels are scaled to 82: for column 41 the exact quotient
    41 * 2 / 82 is 1,
    but in single precision 2 / 82 rounds down and 41 times it stays below
    1, so the code copies pixel 0. *)
Lemma Resize_not_floor :
  ¬ ∃ w', Resize 82 1 pair_world = Done tt w' ∧
          scaled_by floor_coordinate pair_cells 2 1 3 (pixels_of w') 82 1.
Proof.
  intros (w' & Hrun & Hpix). vm_compute in Hrun. injection Hrun as <-.
  specialize (Hpix 41 0 0 ltac:(lia) ltac:(lia) ltac:(lia)).
  vm_compute in Hpix. discriminate Hpix.
Qed.

(** C5 (as amended).  Resizing a loaded image with 3 or 4 channels, whose
    width and height are positive and below 2^24, to a non-negative size of
    at most 2^21 by 2^21 that fits an [int], gives every destination pixel
    (ix, iy) the bytes of the source pixel whose column is
    (int)(ix * ((float) srcWidth / (float) destWidth)) and whose row is
    (int)(iy * ((float) srcHeight / (float) destHeight)), evaluated in single
    precision; these coordinates lie inside the source image. *)
Theorem Resize_copies_nearest w b cells dW dH :
  image w b cells →
  channelCount_ (self w) = 3 ∨ channelCount_ (self w) = 4 →
  0 < width_ (self w) < 2 ^ 24 → 0 < height_ (self w) < 2 ^ 24 →
  0 ≤ dW ≤ 2 ^ 21 → 0 ≤ dH ≤ 2 ^ 21 →
  dW * dH * channelCount_ (self w) ≤ Int.INT_MAX →
  ∃ w', Resize dW dH w = Done tt w' ∧
        error_of w' = EmptyString ∧
        width_ (self w') = dW ∧ height_ (self w') = dH ∧
        channelCount_ (self w') = channelCount_ (self w) ∧
        Z.of_nat (length (pixels_of w')) = dW * dH * channelCount_ (self w) ∧
        scaled_by nearest cells (width_ (self w)) (height_ (self w))
          (channelCount_ (self w)) (pixels_of w') dW dH ∧
        ∀ ix iy, 0 ≤ ix < dW → 0 ≤ iy < dH →
          0 ≤ nearest (width_ (self w)) dW ix < width_ (self w) ∧
          0 ≤ nearest (height_ (self w)) dH iy < height_ (self w).
Proof.
  intros Himg HC HW HH HdW HdH Hsize.
  assert (Hnear : ∀ ix iy, 0 ≤ ix < dW → 0 ≤ iy < dH →
            0 ≤ nearest (width_ (self w)) dW ix < width_ (self w) ∧
            0 ≤ nearest (height_ (self w)) dH iy < height_ (self w)).
  { intros ix iy Hix Hiy. split; apply nearest_in_range; lia. }
  change (2 ^ 21) with 2097152 in *.
  destruct (Resize_spec w b cells dW dH Himg HC) as
    (w' & Hrun & Herr & Hw & Hh & Hc & _ & _ & Hlen & Hpix);
    [unfold Int.INT_MAX; lia..|done|done|].
  exists w'. split_and!; done.
Qed.

Lemma Resize_copies_nearest_witness :
  ∃ w', Resize 3 1 tiny_world = Done tt w' ∧
        error_of w' = EmptyString ∧
        width_ (self w') = 3 ∧ height_ (self w') = 1 ∧
        channelCount_ (self w') = channelCount_ (self tiny_world) ∧
        Z.of_nat (length (pixels_of w')) = 3 * 1 * channelCount_ (self tiny_world) ∧
        scaled_by nearest tiny_cells (width_ (self tiny_world))
          (height_ (self tiny_world)) (channelCount_ (self tiny_world))
          (pixels_of w') 3 1 ∧
        ∀ ix iy, 0 ≤ ix < 3 → 0 ≤ iy < 1 →
          0 ≤ nearest (width_ (self tiny_world)) 3 ix < width_ (self tiny_world) ∧
          0 ≤ nearest (height_ (self tiny_world)) 1 iy < height_ (self tiny_world).
Proof.
  apply (Resize_copies_nearest tiny_world 1%positive tiny_cells 3 1).
  - constructor; simpl; try reflexivity; unfold Int.INT_MAX; lia.
  - left. reflexivity.
  - simpl. lia.
  - simpl. lia.
  - lia.
  - lia.
  - simpl. unfold Int.INT_MAX. lia.
Defined.

(** ** C6: raw pixel load *)

(** C6.  The raw-pixel load, given a buffer of [size] readable bytes (which
    is not the asset's own buffer), ends normally with no error: the prior
    buffer is released, the caller's bytes are copied into a block that was
    not live before, owned by the asset, and width, height and channel count
    are the ones given.  (For a size of zero there is nothing to copy and no
    block.) *)
Theorem Load_pixels_succeeds w pixelData size width height channelCount vs :
  owns_buffer w →
  0 ≤ size ≤ Int.PTRDIFF_MAX →
  caller_bytes (release w) pixelData size vs →
  ∃ w', Load_pixels pixelData size width height channelCount w = Done tt w' ∧
        error_of w' = EmptyString ∧
        pixels_of w' = vs ∧
        source (buffer_ (self w')) = Self ∧
        width_ (self w') = width ∧ height_ (self w') = height ∧
        channelCount_ (self w') = channelCount ∧
        (0 < size →
           ∃ b', buffer (buffer_ (self w')) = Ptr b' 0 ∧
                 release w !! b' = None ∧
                 mem w' = <[b' := vs]> (release w)).
Proof.
  intros Hown Hsize Hsrc.
  destruct (Load_pixels_spec w pixelData size width height channelCount vs
              Hown Hsize Hsrc)
    as (w' & Hrun & Herr & Hw & Hh & Hc & Hself & Hpix & _ & Hpos).
  exists w'. unfold error_of. rewrite Herr. repeat split; try done.
  intros H0. destruct (Hpos H0) as [Hb Hmem].
  eexists. split; [done|]. split; [apply fresh_not_live|done].
Qed.

Lemma Load_pixels_succeeds_witness :
  ∃ w', Load_pixels (Ptr 2 0) 3 1 1 3 caller_world = Done tt w' ∧
        error_of w' = EmptyString ∧
        pixels_of w' = pixel Byte.x10 Byte.x20 Byte.x30 ∧
        source (buffer_ (self w')) = Self ∧
        width_ (self w') = 1 ∧ height_ (self w') = 1 ∧
        channelCount_ (self w') = 3 ∧
        (0 < 3 →
           ∃ b', buffer (buffer_ (self w')) = Ptr b' 0 ∧
                 release caller_world !! b' = None ∧
                 mem w' = <[b' := pixel Byte.x10 Byte.x20 Byte.x30]>
                            (release caller_world)).
Proof.
  apply (Load_pixels_succeeds caller_world (Ptr 2 0) 3 1 1 3
           (pixel Byte.x10 Byte.x20 Byte.x30)).
  - vm_compute. split; [reflexivity|]. eexists. reflexivity.
  - unfold Int.PTRDIFF_MAX. lia.
  - vm_compute. reflexivity.
Defined.

(** ** C7: resizing to the same size *)

(** C7 (as amended).  Resizing a loaded image with 3 or 4 channels to its own
    width and height, both at most 2^24, gives back the same pixels. *)
Theorem Resize_same_size_is_identity w b cells :
  image w b cells →
  channelCount_ (self w) = 3 ∨ channelCount_ (self w) = 4 →
  0 < width_ (self w) ≤ 2 ^ 24 → 0 < height_ (self w) ≤ 2 ^ 24 →
  ∃ w', Resize (width_ (self w)) (height_ (self w)) w = Done tt w' ∧
        error_of w' = EmptyString ∧
        width_ (self w') = width_ (self w) ∧
        height_ (self w') = height_ (self w) ∧
        channelCount_ (self w') = channelCount_ (self w) ∧
        pixels_of w' = cells.
Proof. apply Resize_same_size. Qed.

Lemma Resize_same_size_is_identity_witness :
  ∃ w', Resize (width_ (self tiny_world)) (height_ (self tiny_world)) tiny_world
        = Done tt w' ∧
        error_of w' = EmptyString ∧
        width_ (self w') = width_ (self tiny_world) ∧
        height_ (self w') = height_ (self tiny_world) ∧
        channelCount_ (self w') = channelCount_ (self tiny_world) ∧
        pixels_of w' = tiny_cells.
Proof.
  apply (Resize_same_size_is_identity tiny_world 1%positive tiny_cells).
  - constructor; simpl; try reflexivity; unfold Int.INT_MAX; lia.
  - left. reflexivity.
  - simpl. lia.
  - simpl. lia.
Defined.

(** ** C8: Clone *)

(** C8.  Cloning a loaded image gives a new asset with the same width, height
    and channel count and no error, whose buffer is a block that was not live
    before, different from the original's, holding the same bytes.  Whatever
    calls are then made on the clone (writing, for CopyTo, outside of the
    original's buffer), and however they end, the original's buffer holds
    the bytes it held and the original asset is as it was. *)
Theorem Clone_is_independent env w b cells cs :
  image w b cells →
  0 < width_ (self w) * height_ (self w) * channelCount_ (self w) →
  Forall (writes_outside b) cs →
  ∃ c w' b',
    Clone w = Done c w' ∧
    self w' = self w ∧
    buffer (buffer_ c) = Ptr b' 0 ∧ b' ≠ b ∧ mem w !! b' = None ∧
    mem w' = <[b' := cells]> (mem w) ∧
    pixels_of {| mem := mem w'; self := c |} = cells ∧
    (width_ c, height_ c, channelCount_ c)
    = (width_ (self w), height_ (self w), channelCount_ (self w)) ∧
    ErrorHandler.error_ (errorHandler_ c) = EmptyString ∧
    let after := final (perform_all env cs {| mem := mem w'; self := c |}) in
    pixels_of {| mem := mem after; self := self w' |} = cells.
Proof.
  intros Himg Hpos Hcs.
  destruct (Clone_image w b cells Himg Hpos) as (c & Hrun & Hbuf & Hw & Hh & Hc & He).
  destruct Himg as [Hwbuf Hblk _ _ _ _ _].
  assert (Hne : fresh (dom (mem w)) ≠ b) by (apply fresh_ne_live; eauto).
  exists c, {| mem := <[fresh (dom (mem w)) := cells]> (mem w); self := self w |},
    (fresh (dom (mem w))).
  split; [exact Hrun|]. simpl.
  assert (Hclone : pixels_of {| mem := <[fresh (dom (mem w)) := cells]> (mem w);
                                self := c |} = cells).
  { unfold pixels_of. simpl. rewrite Hbuf. simpl. by rewrite lookup_insert_eq. }
  repeat split; try done.
  - by rewrite Hbuf.
  - apply fresh_not_live.
  - by rewrite Hw, Hh, Hc.
  - by rewrite He.
  - pose proof (spares_perform_all env b cs Hcs
                  {| mem := <[fresh (dom (mem w)) := cells]> (mem w); self := c |}
                  cells) as Hkeep.
    assert (Hapart : apart b cells
              {| mem := <[fresh (dom (mem w)) := cells]> (mem w); self := c |}).
    { split; simpl.
      - by rewrite lookup_insert_ne.
      - rewrite Hbuf. unfold outside. simpl. congruence. }
    specialize (Hkeep Hapart).
    assert (Hafter : mem (final (perform_all env cs
              {| mem := <[fresh (dom (mem w)) := cells]> (mem w); self := c |}))
              !! b = Some cells).
    { destruct (perform_all env cs _) as [a w''|f w'']; simpl.
      - apply Hkeep.
      - apply Hkeep. }
    unfold pixels_of. simpl. by rewrite Hwbuf, Hafter.
Qed.

Lemma Clone_is_independent_witness :
  ∃ c w' b',
    Clone tiny_world = Done c w' ∧
    self w' = self tiny_world ∧
    buffer (buffer_ c) = Ptr b' 0 ∧ b' ≠ 1%positive ∧ mem tiny_world !! b' = None ∧
    mem w' = <[b' := tiny_cells]> (mem tiny_world) ∧
    pixels_of {| mem := mem w'; self := c |} = tiny_cells ∧
    (width_ c, height_ c, channelCount_ c)
    = (width_ (self tiny_world), height_ (self tiny_world),
       channelCount_ (self tiny_world)) ∧
    ErrorHandler.error_ (errorHandler_ c) = EmptyString ∧
    let after := final (perform_all truncated_webp [CallClip 0 0 1 1; CallUnload]
                          {| mem := mem w'; self := c |}) in
    pixels_of {| mem := mem after; self := self w' |} = tiny_cells.
Proof.
  apply (Clone_is_independent truncated_webp tiny_world 1%positive tiny_cells
           [CallClip 0 0 1 1; CallUnload]).
  - constructor; simpl; try reflexivity; unfold Int.INT_MAX; lia.
  - simpl. lia.
  - repeat constructor.
Defined.

(** ** C9: results of no bytes *)

(** C9 fails for [Clone]: after [Clip(0, 0, 0, 0)] the 2 x 2 image is
    unloaded, yet [Clone] does not fail with "image asset is not loaded": it
    returns a clone, and no error is set on the asset or on the clone. *)
Lemma Clone_after_empty_Clip :
  ∃ w', Clip 0 0 0 0 tiny_world = Done tt w' ∧
        unloaded (self w') ∧
        ¬ refused w' (Clone w') ∧
        ∃ cl, Clone w' = Done cl w' ∧
              error_of w' = EmptyString ∧
              ErrorHandler.error_ (errorHandler_ cl) = EmptyString.
Proof.
  eexists. split; [vm_compute; reflexivity|]. split; [reflexivity|]. split.
  - intros (a & w'' & Hrun & Herr & _). vm_compute in Hrun.
    injection Hrun as _ <-. vm_compute in Herr. discriminate Herr.
  - eexists. split; [vm_compute; reflexivity|]. split; reflexivity.
Qed.

(** C9 (as amended).  A raw-pixel load of size zero, a clip in range that is
    zero pixels wide or high, or a resize to a width or a height of zero,
    ends normally with no error, yet leaves the asset with a null buffer and
    with the width and height asked for: the asset is unloaded, and every
    member function that tests for a loaded buffer ([GetWidth], [GetHeight],
    [GetChannelCount], [Clip], [Resize], [Unload], [CopyTo]) fails on it
    afterwards with "image asset is not loaded".  [Clone] is not one of
    them: it does not fail with that error, and it sets no error on the
    asset. *)
Theorem empty_result_is_unloaded env w c :
  owns_buffer w →
  is_int32 (width_ (self w)) → is_int32 (height_ (self w)) →
  yields_nothing w c →
  ∃ w', perform env c w = Done None w' ∧
        error_of w' = EmptyString ∧
        unloaded (self w') ∧
        (width_ (self w'), height_ (self w')) = asked_size c ∧
        (∀ c', tests_loaded c' = true →
               refused w' (perform env c' w') ∧
               ∃ w'', perform env c' w' = Done (sentinel c') w'') ∧
        ¬ refused w' (Clone w') ∧
        error_of (final (Clone w')) = EmptyString.
Proof.
  intros Hown HW HH Hc.
  assert (Hafter : ∀ w', unloaded (self w') → error_of w' = EmptyString →
            (∀ c', tests_loaded c' = true →
               refused w' (perform env c' w') ∧
               ∃ w'', perform env c' w' = Done (sentinel c') w'') ∧
            ¬ refused w' (Clone w') ∧
            error_of (final (Clone w')) = EmptyString).
  { intros w' Hw' He'. split_and!.
    - intros c' Hc'. rewrite (perform_unloaded env c' w' Hc' Hw').
      split; [|by eexists]. eexists _, _. split; [done|]. by repeat split.
    - intros (a & w'' & Hrun & Herr & _).
      pose proof (silent_Clone w') as Hs. rewrite Hrun in Hs. simpl in Hs.
      unfold error_of in *. rewrite Hs, He' in Herr. discriminate Herr.
    - unfold error_of in *. by rewrite silent_Clone. }
  destruct c; simpl in Hc; try done.
  - subst size.
    destruct (Load_pixels_spec w pixelData 0 width height channelCount [] Hown)
      as (w' & Hrun & Herr & Hw & Hh & _ & _ & _ & Hzero & _).
    { unfold Int.PTRDIFF_MAX. lia. }
    { done. }
    destruct (Hzero eq_refl) as [Hnull _].
    exists w'. simpl. unfold mbind, M_bind. rewrite Hrun.
    assert (He : error_of w' = EmptyString) by (unfold error_of; by rewrite Herr).
    assert (Hun : unloaded (self w')) by (unfold unloaded; by rewrite Hnull).
    destruct (Hafter w' Hun He) as (H1 & H2 & H3).
    split_and!; try done. by rewrite Hw, Hh.
  - destruct Hc as (Hl & Hx & Hy & Hcw & Hch & Hrange & Hz).
    unfold loaded in Hl. unfold owns_buffer in Hown.
    destruct (buffer (buffer_ (self w))) as [|b o] eqn:Hbuf; [done|].
    destruct Hown as [-> [cs Hcs]].
    pose proof (Clip_empty w b cs x y width height Hbuf Hcs HW HH Hx Hy Hcw Hch
                  Hrange Hz) as Hrun.
    eexists. split; [simpl; unfold mbind, M_bind; by rewrite Hrun|].
    match goal with
    | |- error_of ?w0 = _ ∧ _ =>
        destruct (Hafter w0 (eq_refl : unloaded (self w0)) eq_refl)
          as (H1 & H2 & H3)
    end.
    by split_and!.
  - destruct Hc as (Hl & Hw & Hh & Hz).
    unfold loaded in Hl. unfold owns_buffer in Hown.
    destruct (buffer (buffer_ (self w))) as [|b o] eqn:Hbuf; [done|].
    destruct Hown as [-> [cs Hcs]].
    pose proof (Resize_empty w b cs width height Hbuf Hcs Hw Hh Hz) as Hrun.
    eexists. split; [simpl; unfold mbind, M_bind; by rewrite Hrun|].
    match goal with
    | |- error_of ?w0 = _ ∧ _ =>
        destruct (Hafter w0 (eq_refl : unloaded (self w0)) eq_refl)
          as (H1 & H2 & H3)
    end.
    by split_and!.
Qed.

Lemma empty_result_is_unloaded_witness :
  ∃ w', perform truncated_webp (CallResize 0 5) tiny_world = Done None w' ∧
        error_of w' = EmptyString ∧
        unloaded (self w') ∧
        (width_ (self w'), height_ (self w')) = asked_size (CallResize 0 5) ∧
        (∀ c', tests_loaded c' = true →
               refused w' (perform truncated_webp c' w') ∧
               ∃ w'', perform truncated_webp c' w' = Done (sentinel c') w'') ∧
        ¬ refused w' (Clone w') ∧
        error_of (final (Clone w')) = EmptyString.
Proof.
  apply (empty_result_is_unloaded truncated_webp tiny_world (CallResize 0 5)).
  - vm_compute. split; [reflexivity|]. eexists. reflexivity.
  - vm_compute. split; discriminate.
  - vm_compute. split; discriminate.
  - simpl. unfold loaded, Int.INT_MAX. simpl. repeat split; lia.
Defined.

(** ** C10: Clone of an unloaded asset *)

(** An unloaded asset may still carry dimensions (a raw-pixel load of no
    bytes leaves the ones it was given): [Clone] then reads that many bytes
    through the null pointer. *)
Example Clone_of_hollow_faults :
  ∃ w', Clone hollow_world = Crash SegFault w'.
Proof. eexists. vm_compute. reflexivity. Qed.

(** C10 fails on an unloaded asset made by the public calls: a raw-pixel load
    of no bytes with the dimensions 2 x 2 x 3, on a new asset, returns with
    no error and leaves the asset unloaded; [Clone] on it reads 12 bytes
    through the null pointer. *)
Lemma unloaded_Clone_faults :
  ∃ w, Load_pixels Null 0 2 2 3 empty_world = Done tt w ∧
       error_of w = EmptyString ∧
       unloaded (self w) ∧
       ∃ w', Clone w = Crash SegFault w'.
Proof.
  eexists. split; [vm_compute; reflexivity|]. split; [reflexivity|].
  split; [reflexivity|]. eexists. vm_compute. reflexivity.
Qed.

(** C10 (as amended).  [Clone] called on an unloaded asset never sets an
    error on that asset.  When width x height x channelCount is zero (as
    after [Unload], which zeroes them, or on a new asset) it does not fail
    and leaves the asset and the memory as they were: it returns a new asset
    that is itself unloaded, with the same width, height and channel count
    and no error. *)
Theorem Clone_of_unloaded w :
  unloaded (self w) →
  errorHandler_ (self (final (Clone w))) = errorHandler_ (self w) ∧
  (width_ (self w) * height_ (self w) * channelCount_ (self w) = 0 →
   ∃ c, Clone w = Done c w ∧
        unloaded c ∧
        (width_ c, height_ c, channelCount_ c)
        = (width_ (self w), height_ (self w), channelCount_ (self w)) ∧
        ErrorHandler.error_ (errorHandler_ c) = EmptyString).
Proof.
  intros Hw. split; [apply silent_Clone|].
  intros Hz. rewrite (Clone_unloaded w Hw) by (by rewrite Hz).
  eexists. split; [done|]. by repeat split.
Qed.

Lemma Clone_of_unloaded_witness :
  errorHandler_ (self (final (Clone (final (Unload tiny_world)))))
  = errorHandler_ (self (final (Unload tiny_world))) ∧
  (width_ (self (final (Unload tiny_world)))
   * height_ (self (final (Unload tiny_world)))
   * channelCount_ (self (final (Unload tiny_world))) = 0 →
   ∃ c, Clone (final (Unload tiny_world)) = Done c (final (Unload tiny_world)) ∧
        unloaded c ∧
        (width_ c, height_ c, channelCount_ c)
        = (width_ (self (final (Unload tiny_world))),
           height_ (self (final (Unload tiny_world))),
           channelCount_ (self (final (Unload tiny_world)))) ∧
        ErrorHandler.error_ (errorHandler_ c) = EmptyString).
Proof.
  apply (Clone_of_unloaded (final (Unload tiny_world))).
  vm_compute. reflexivity.
Defined.

(** * Further properties *)

(** ** Memory written through one pointer *)

Lemma touches_refl ob h : touches ob h h.
Proof. by split. Qed.

Lemma touches_trans ob h1 h2 h3 :
  touches ob h1 h2 → touches ob h2 h3 → touches ob h1 h3.
Proof.
  intros [Hd1 Hk1] [Hd2 Hk2]. split; [congruence|].
  intros b Hb. rewrite Hk2, Hk1; done.
Qed.

Lemma touches_insert (h : heap) b d :
  is_Some (h !! b) → touches (Some b) h (<[b := d]> h).
Proof.
  intros Hb. split.
  - rewrite dom_insert_L.
    apply subseteq_union_1_L, singleton_subseteq_l, elem_of_dom, Hb.
  - intros b' Hne. rewrite lookup_insert_ne; [done|congruence].
Qed.

Lemma touches_live ob (h h' : heap) b :
  touches ob h h' → is_Some (h' !! b) ↔ is_Some (h !! b).
Proof. intros [Hd _]. by rewrite <- !elem_of_dom, Hd. Qed.

Lemma touches_None (h h' : heap) : touches None h h' → h' = h.
Proof. intros [_ Hk]. apply map_eq. intros b. by apply Hk. Qed.

Lemma touches_delete (h h' : heap) b :
  touches (Some b) h h' → delete b h' = delete b h.
Proof.
  intros [_ Hk]. apply map_eq. intros b'.
  destruct (decide (b' = b)) as [->|Hne].
  - by rewrite !lookup_delete_eq.
  - rewrite !lookup_delete_ne by done. apply Hk. congruence.
Qed.

Lemma touches_delete_both ob (h h' : heap) b :
  touches ob h h' → touches ob (delete b h) (delete b h').
Proof.
  intros [Hd Hk]. split.
  - by rewrite !dom_delete_L, Hd.
  - intros b' Hb'. destruct (decide (b' = b)) as [->|Hne].
    + by rewrite !lookup_delete_eq.
    + rewrite !lookup_delete_ne by done. by apply Hk.
Qed.

Lemma touches_weaken ob (h h' : heap) : touches None h h' → touches ob h h'.
Proof. intros H. apply touches_None in H as ->. apply touches_refl. Qed.

Lemma block_of_ptr_add p k : block_of (ptr_add p k) = block_of p.
Proof. by destruct p. Qed.

Lemma store_cells_touches (h h' : heap) p vs :
  store_cells h p vs = Some h' → touches (block_of p) h h'.
Proof.
  unfold store_cells. destruct p as [|b o]; [done|].
  destruct (h !! b) as [cs|] eqn:Hb; [|done].
  destruct (_ && _); [|done]. intros [= <-]. simpl.
  apply touches_insert. eauto.
Qed.

Lemma confined_ret ob {A} (a : A) : confined ob (mret a).
Proof. intros h. apply touches_refl. Qed.

Lemma confined_bind ob {A B} (m : M heap A) (k : A → M heap B) :
  confined ob m → (∀ a, confined ob (k a)) → confined ob (m ≫= k).
Proof.
  intros Hm Hk h. specialize (Hm h). unfold mbind, M_bind.
  destruct (m h) as [a h'|f h']; [|done].
  eapply touches_trans; [exact Hm|apply Hk].
Qed.

Lemma confined_for_loop ob n i body :
  (∀ j, confined ob (body j)) → confined ob (for_loop n i body).
Proof.
  intros Hbody. revert i. induction n as [|n IH]; intros i; simpl;
    (destruct (Int.INT_MAX <? i); [intros h; apply touches_refl|]).
  - apply confined_ret.
  - apply confined_bind; [apply Hbody|]. intros _. apply IH.
Qed.

Lemma confined_memcpy dst src n : confined (block_of dst) (memcpy dst src n).
Proof.
  intros h. unfold memcpy. destruct (n =? 0); [apply touches_refl|].
  destruct (load_cells h src n) as [vs|]; [|apply touches_refl].
  destruct (store_cells h dst vs) as [h'|] eqn:Hst; [|apply touches_refl].
  by eapply store_cells_touches.
Qed.

Lemma confined_copy_byte dst i src j :
  confined (block_of dst) (copy_byte dst i src j).
Proof.
  unfold copy_byte. rewrite <- (block_of_ptr_add dst i). apply confined_memcpy.
Qed.

Lemma confined_write_bytes p vs : confined (block_of p) (write_bytes p vs).
Proof.
  intros h. unfold write_bytes. destruct vs as [|v vs]; [apply touches_refl|].
  destruct (store_cells h p _) as [h'|] eqn:Hst; [|apply touches_refl].
  by eapply store_cells_touches.
Qed.

Lemma confined_store_rows p stride r rows :
  confined (block_of p) (store_rows p stride r rows).
Proof.
  revert r. induction rows as [|row rows IH]; intros r; simpl.
  - apply confined_ret.
  - apply confined_bind; [|intros _; apply IH].
    rewrite <- (block_of_ptr_add p (r * stride)). apply confined_write_bytes.
Qed.

Lemma confined_ScaleImage P src dst sW sH dW dH :
  confined (block_of dst) (ScaleImage P src dst sW sH dW dH).
Proof.
  unfold ScaleImage.
  apply confined_for_loop; intros ix. apply confined_for_loop; intros iy.
  apply confined_for_loop; intros i. apply confined_copy_byte.
Qed.

(** ** Calls that keep the memory tidy *)

Lemma owns_buffer_same w w' :
  mem w' = mem w → buffer_ (self w') = buffer_ (self w) →
  owns_buffer w → owns_buffer w'.
Proof. unfold owns_buffer. by intros -> ->. Qed.

Lemma release_same w w' :
  mem w' = mem w → buffer_ (self w') = buffer_ (self w) → release w' = release w.
Proof. unfold release. by intros -> ->. Qed.

(** An outcome that is settled with respect to a world is settled with
    respect to any world with the same memory and the same buffer. *)
Lemma settled_from ob {A} w0 w (o : outcome World A) :
  mem w = mem w0 → buffer_ (self w) = buffer_ (self w0) →
  settled ob w o → settled ob w0 o.
Proof.
  intros Hm Hb. unfold settled. destruct o as [a w'|f w']; [|done].
  rewrite (release_same w0 w Hm Hb), Hm, Hb. done.
Qed.

(** Ending where one started, but for the metadata and the error. *)
Lemma settled_same ob {A} w w' (a : A) :
  mem w' = mem w → buffer_ (self w') = buffer_ (self w) →
  owns_buffer w → settled ob w (Done a w').
Proof.
  intros Hm Hb Hown. split; [by eapply owns_buffer_same|].
  split; [|done]. rewrite (release_same w w' Hm Hb). apply touches_refl.
Qed.

Lemma tidy_ret ob {A} (a : A) : tidy ob (mret a).
Proof. intros w Hown. by apply settled_same. Qed.

Lemma tidy_SetError ob msg : tidy ob (errorHandler_SetError msg).
Proof. intros w Hown. by apply settled_same. Qed.

Lemma tidy_set_this ob g {A} (k : M World A) :
  (∀ a, buffer_ (g a) = buffer_ a) → tidy ob k → tidy ob (set_this g ≫= λ _, k).
Proof.
  intros Hg Hk w Hown. unfold mbind, M_bind, set_this.
  eapply settled_from; [| |apply Hk]; simpl; try done.
  unfold owns_buffer in *. simpl. by rewrite Hg.
Qed.

Lemma tidy_Clear ob {A} (k : M World A) :
  tidy ob k → tidy ob (errorHandler_Clear ≫= λ _, k).
Proof. apply tidy_set_this. by intros []. Qed.

Lemma tidy_this ob {A} (k : ImageAsset → M World A) :
  (∀ w, owns_buffer w → settled ob w (k (self w) w)) → tidy ob (this ≫= k).
Proof. intros Hk w Hown. by apply Hk. Qed.

Lemma tidy_weaken ob {A} (m : M World A) : tidy None m → tidy ob m.
Proof.
  intros Hm w Hown. specialize (Hm w Hown). unfold settled in *.
  destruct (m w) as [a w'|f w']; [|done].
  destruct Hm as (? & ? & ?). split_and!; [done| |done]. by apply touches_weaken.
Qed.

Lemma tidy_GetWidth : tidy None GetWidth.
Proof.
  apply tidy_Clear, tidy_this. intros w Hown.
  destruct (is_null _); by apply settled_same.
Qed.

Lemma tidy_GetHeight : tidy None GetHeight.
Proof.
  apply tidy_Clear, tidy_this. intros w Hown.
  destruct (is_null _); by apply settled_same.
Qed.

Lemma tidy_GetChannelCount : tidy None GetChannelCount.
Proof.
  apply tidy_Clear, tidy_this. intros w Hown.
  destruct (is_null _); by apply settled_same.
Qed.

(** The entry of a member function: the error is cleared, then [this] is
    read. *)
Lemma tidy_entry ob {A} (k : ImageAsset → M World A) :
  (∀ w, owns_buffer w → error_of w = EmptyString → settled ob w (k (self w) w)) →
  tidy ob (errorHandler_Clear ≫= λ _, this ≫= k).
Proof.
  intros Hk w Hown. unfold mbind, M_bind, errorHandler_Clear, set_this, this.
  eapply settled_from; [| |apply Hk]; done.
Qed.

(** A successful end: no error, and the memory but for the buffer is the one
    before. *)
Lemma settled_Done ob {A} w w' (a : A) :
  owns_buffer w' → release w' = release w → error_of w' = EmptyString →
  settled ob w (Done a w').
Proof.
  intros Hown Hrel Herr. split; [done|]. split; [|congruence].
  rewrite Hrel. apply touches_refl.
Qed.

Lemma tidy_Unload : tidy None Unload.
Proof.
  apply tidy_entry. intros w Hown Herr.
  destruct (is_null _) eqn:Hnull; [by apply tidy_SetError|].
  unfold mbind, M_bind. rewrite (ReleaseBuffer__owned w Hown). unfold set_this.
  cbn [mem self]. by apply settled_Done.
Qed.

Lemma tidy_CopyTo dest : tidy (block_of dest) (CopyTo dest).
Proof.
  apply tidy_entry. intros w Hown Herr.
  destruct (is_null _) eqn:Hnull; [by apply tidy_SetError|].
  pose proof (confined_memcpy dest (buffer (buffer_ (self w)))
    (Int.size_t (Int.int32 (width_ (self w) * height_ (self w) * channelCount_ (self w))))
    (mem w)) as Ht.
  unfold on_mem. destruct (memcpy _ _ _ (mem w)) as [[] h'|f h']; cbn [final] in Ht.
  - unfold settled, owns_buffer, release in *. cbn [mem self].
    destruct (buffer (buffer_ (self w))) as [|b o]; [done|].
    destruct Hown as [-> Hlive]. split_and!; [done| | |].
    + by eapply touches_live.
    + by apply touches_delete_both.
    + unfold error_of in *. cbn [self]. congruence.
  - unfold settled, owns_buffer in *. cbn [mem self].
    destruct (buffer (buffer_ (self w))) as [|b o]; [done|].
    destruct Hown as [-> Hlive]. split; [done|]. by eapply touches_live.
Qed.

(** A block allocated on top of [h0] and then written to: it is live, the
    blocks of [h0] are still live, and releasing it gives [h0] back. *)
Lemma fresh_block_live (h0 h2 : heap) d :
  touches (Some (fresh (dom h0))) (<[fresh (dom h0) := d]> h0) h2 →
  is_Some (h2 !! fresh (dom h0)).
Proof.
  intros Ht. apply (touches_live _ _ _ (fresh (dom h0))) in Ht. apply Ht.
  rewrite lookup_insert_eq. eauto.
Qed.

Lemma fresh_block_delete (h0 h2 : heap) d :
  touches (Some (fresh (dom h0))) (<[fresh (dom h0) := d]> h0) h2 →
  delete (fresh (dom h0)) h2 = h0.
Proof.
  intros Ht. rewrite (touches_delete _ _ _ Ht).
  rewrite delete_insert_eq. apply delete_id, fresh_not_live.
Qed.

Lemma fresh_block_others (h0 h2 : heap) d b :
  touches (Some (fresh (dom h0))) (<[fresh (dom h0) := d]> h0) h2 →
  is_Some (h0 !! b) → fresh (dom h0) ≠ b ∧ is_Some (h2 !! b).
Proof.
  intros Ht Hb. pose proof (fresh_ne_live h0 b Hb) as Hne. split; [done|].
  apply (touches_live _ _ _ b) in Ht. apply Ht. by rewrite lookup_insert_ne.
Qed.

(** The outcome of a memory operation that is confined to one block. *)
Lemma on_mem_confined ob {A} (m : M heap A) w :
  confined ob m →
  ∃ h', touches ob (mem w) h' ∧
        ((∃ a, on_mem m w = Done a {| mem := h'; self := self w |}) ∨
         (∃ f, on_mem m w = Crash f {| mem := h'; self := self w |})).
Proof.
  intros Hm. specialize (Hm (mem w)). unfold on_mem.
  destruct (m (mem w)) as [a h'|f h']; exists h'; (split; [done|]); eauto.
Qed.

Lemma confined_at ob ob' {A} (m : M heap A) : ob' = ob → confined ob' m → confined ob m.
Proof. by intros ->. Qed.

(** A memory operation that writes through one pointer is confined to the
    block of that pointer. *)
Ltac confined_solve :=
  repeat first
    [ apply confined_for_loop; intros ?
    | eapply confined_at;
        [|first [ apply confined_memcpy | apply confined_store_rows
                | apply confined_ScaleImage | apply confined_ret ]];
        reflexivity ].

(** Run the memory operation at the head of the goal, which writes to block
    [ob] at most. *)
Ltac run_confined ob Ht :=
  match goal with
  | |- context [on_mem ?m ?w0] =>
      let h := fresh "h" in
      let Hc := fresh "Hc" in
      assert (Hc : confined ob m) by confined_solve;
      destruct (on_mem_confined ob m w0 Hc) as (h & Ht & [[[] ->]|[? ->]]);
      clear Hc; cbn [mem self] in Ht
  end.

Lemma tidy_Load_pixels p size width height c :
  tidy None (Load_pixels p size width height c).
Proof.
  intros w Hown.
  unfold Load_pixels, mbind, M_bind, errorHandler_Clear. unfold set_this at 1.
  assert (Hown' : owns_buffer {| mem := mem w;
            self := with_errorHandler (ErrorHandler.Clear (errorHandler_ (self w))) (self w) |})
    by done.
  rewrite (ReleaseBuffer__owned _ Hown').
  replace (release _) with (release w) by done.
  unfold on_mem at 1. cbn [mem self]. unfold AllocateBuffer.
  destruct (size =? 0) eqn:Hz.
  - apply Z.eqb_eq in Hz. subst size. unfold set_this, on_mem. cbn.
    split_and!; [done|apply touches_refl|done].
  - unfold mbind, M_bind, mret, M_ret, new_array.
    destruct (Int.PTRDIFF_MAX <? size); [done|].
    unfold set_this at 1. cbn [mem self buffer].
    set (h0 := release w). set (b' := fresh (dom h0)).
    run_confined (Some b') Ht.
    + unfold set_this. cbn [mem self]. apply settled_Done.
      * split; [done|]. by eapply fresh_block_live.
      * unfold release at 1. cbn. by eapply fresh_block_delete.
      * done.
    + split; [done|]. by eapply fresh_block_live.
Qed.

(** While a new block is being filled, the asset still owns its old
    buffer. *)
Lemma owns_buffer_filling w (h2 : heap) d a' :
  owns_buffer w →
  touches (Some (fresh (dom (mem w)))) (<[fresh (dom (mem w)) := d]> (mem w)) h2 →
  buffer_ a' = buffer_ (self w) →
  owns_buffer {| mem := h2; self := a' |}.
Proof.
  intros Hown Ht Ha. unfold owns_buffer in *. cbn [mem self]. rewrite Ha.
  destruct (buffer (buffer_ (self w))) as [|b o]; [done|].
  destruct Hown as [-> Hlive]. split; [done|].
  by eapply fresh_block_others.
Qed.

(** Once the old buffer is released and the new block installed, the memory
    but for the buffer is the one before. *)
Lemma settled_installed ob {A} (x : A) w (h2 : heap) d a' af :
  owns_buffer w →
  touches (Some (fresh (dom (mem w)))) (<[fresh (dom (mem w)) := d]> (mem w)) h2 →
  buffer_ a' = buffer_ (self w) →
  buffer (buffer_ af) = Ptr (fresh (dom (mem w))) 0 →
  ErrorHandler.error_ (errorHandler_ af) = EmptyString →
  settled ob w (Done x {| mem := release {| mem := h2; self := a' |}; self := af |}).
Proof.
  intros Hown Ht Ha Haf Herr. apply settled_Done; [| |done].
  - unfold owns_buffer, release in *. cbn [mem self]. rewrite Haf, Ha.
    split; [done|].
    destruct (buffer (buffer_ (self w))) as [|b o].
    + by eapply fresh_block_live.
    + destruct Hown as [-> Hlive].
      destruct (fresh_block_others _ _ _ b Ht Hlive) as [Hne _].
      rewrite lookup_delete_ne by done. by eapply fresh_block_live.
  - unfold release. cbn [mem self]. rewrite Haf, Ha.
    destruct (buffer (buffer_ (self w))) as [|b o].
    + by eapply fresh_block_delete.
    + rewrite delete_delete. f_equal. by eapply fresh_block_delete.
Qed.

(** The same when there is no new block. *)
Lemma settled_emptied ob {A} (x : A) w a' af :
  owns_buffer w →
  buffer_ a' = buffer_ (self w) →
  buffer (buffer_ af) = Null →
  ErrorHandler.error_ (errorHandler_ af) = EmptyString →
  settled ob w (Done x {| mem := release {| mem := mem w; self := a' |}; self := af |}).
Proof.
  intros Hown Ha Haf Herr. apply settled_Done; [| |done].
  - unfold owns_buffer. cbn [mem self]. by rewrite Haf.
  - unfold release. cbn [mem self]. by rewrite Haf, Ha.
Qed.

(** Run [ReleaseBuffer_] at the head of the goal. *)
Ltac run_release H :=
  match goal with
  | |- context [ReleaseBuffer_ ?w0] => rewrite (ReleaseBuffer__owned w0 H)
  end.

Lemma tidy_Clip x y cw ch : tidy None (Clip x y cw ch).
Proof.
  apply tidy_entry. intros w Hown Herr.
  destruct (is_null _) eqn:Hnull; [by apply tidy_SetError|].
  cbv zeta. destruct (_ || _); [by apply tidy_SetError|].
  unfold mbind, M_bind, mret, M_ret. unfold on_mem at 1, AllocateBuffer.
  destruct (_ =? 0).
  - unfold mret, M_ret. cbn [mem self buffer].
    run_confined (@None loc) Ht.
    + apply touches_None in Ht as ->.
      run_release Hown.
      unfold set_this. cbn [mem self]. by apply settled_emptied.
    + apply touches_None in Ht as ->. done.
  - unfold mbind, M_bind, mret, M_ret, new_array.
    destruct (Int.PTRDIFF_MAX <? _); [done|]. cbn [mem self buffer].
    run_confined (Some (fresh (dom (mem w)))) Ht.
    + run_release (owns_buffer_filling w _ _ (self w) Hown Ht eq_refl).
      unfold set_this. cbn [mem self]. by eapply settled_installed.
    + by eapply owns_buffer_filling.
Qed.

Lemma tidy_Resize dW dH : tidy None (Resize dW dH).
Proof.
  apply tidy_entry. intros w Hown Herr.
  destruct (is_null _) eqn:Hnull; [by apply tidy_SetError|].
  unfold mbind, M_bind, mret, M_ret. unfold on_mem at 1, AllocateBuffer.
  destruct (_ =? 0).
  - unfold mret, M_ret. cbn [mem self buffer].
    destruct (_ =? 3); [|destruct (_ =? 4)].
    1, 2: run_confined (@None loc) Ht; apply touches_None in Ht as ->; [|done].
    all: unfold set_this at 1 2; cbn [mem self];
      run_release Hown; unfold set_this; cbn [mem self];
      by apply settled_emptied.
  - unfold mbind, M_bind, mret, M_ret, new_array.
    destruct (Int.PTRDIFF_MAX <? _); [done|]. cbn [mem self buffer].
    destruct (_ =? 3); [|destruct (_ =? 4)].
    1, 2: run_confined (Some (fresh (dom (mem w)))) Ht;
      [|by eapply owns_buffer_filling].
    3: pose proof (touches_refl (Some (fresh (dom (mem w))))
         (<[fresh (dom (mem w)) :=
              replicate (Z.to_nat (Int.size_t (Int.int32
                 (dW * dH * channelCount_ (self w))))) None]> (mem w))) as Ht.
    all: unfold set_this at 1 2; cbn [mem self];
      run_release (owns_buffer_filling w _ _
                     (with_height dH (with_width dW (self w))) Hown Ht eq_refl);
      unfold set_this; cbn [mem self]; by eapply settled_installed.
Qed.

Lemma tidy_entry_plain ob {A} (k : M World A) :
  (∀ w, owns_buffer w → error_of w = EmptyString → settled ob w (k w)) →
  tidy ob (errorHandler_Clear ≫= λ _, k).
Proof.
  intros Hk w Hown. unfold mbind, M_bind, errorHandler_Clear, set_this.
  eapply settled_from; [| |apply Hk]; done.
Qed.

(** A temporary block, allocated on top of the memory and written to, is
    given back. *)
Lemma free_fresh_block w (h2 : heap) d a' :
  touches (Some (fresh (dom (mem w)))) (<[fresh (dom (mem w)) := d]> (mem w)) h2 →
  on_mem (free_block (Ptr (fresh (dom (mem w))) 0)) {| mem := h2; self := a' |}
  = Done tt {| mem := mem w; self := a' |}.
Proof.
  intros Ht. destruct (fresh_block_live _ _ _ Ht) as [cs Hcs].
  unfold on_mem. cbn [mem self]. rewrite (free_block_Done _ _ _ Hcs).
  by rewrite (fresh_block_delete _ _ _ Ht).
Qed.

Lemma on_mem_new_array size w :
  on_mem (new_array size) w
  = if Int.PTRDIFF_MAX <? size
    then Crash BadAlloc {| mem := mem w; self := self w |}
    else Done (Ptr (fresh (dom (mem w))) 0)
           {| mem := <[fresh (dom (mem w)) := replicate (Z.to_nat size) None]> (mem w);
              self := self w |}.
Proof. unfold on_mem, new_array. by destruct (_ <? _). Qed.

Lemma release_lookup w b cs :
  release w !! b = Some cs → mem w !! b = Some cs ∧ block_of (buffer (buffer_ (self w))) ≠ Some b.
Proof.
  unfold release. destruct (buffer (buffer_ (self w))) as [|b' o]; [done|].
  intros H. destruct (decide (b' = b)) as [->|Hne].
  - by rewrite lookup_delete_eq in H.
  - rewrite lookup_delete_ne in H by done. split; [done|]. simpl. congruence.
Qed.

Lemma release_delete w b a' :
  block_of (buffer (buffer_ (self w))) ≠ Some b → buffer_ a' = buffer_ (self w) →
  release {| mem := delete b (mem w); self := a' |} = delete b (release w).
Proof.
  intros Hb Ha. unfold release. cbn [mem self]. rewrite Ha.
  destruct (buffer (buffer_ (self w))) as [|b' o]; [done|]. apply delete_delete.
Qed.

Lemma release_fresh w d a' :
  owns_buffer w → buffer_ a' = buffer_ (self w) →
  delete (fresh (dom (mem w)))
    (release {| mem := <[fresh (dom (mem w)) := d]> (mem w); self := a' |})
  = release w.
Proof.
  intros Hown Ha. unfold release. cbn [mem self]. rewrite Ha.
  destruct (buffer (buffer_ (self w))) as [|b o].
  - rewrite delete_insert_eq. apply delete_id, fresh_not_live.
  - rewrite delete_delete, delete_insert_eq. f_equal. apply delete_id, fresh_not_live.
Qed.

(** A member function that is tidy, run while a temporary block is live,
    followed by the release of that block. *)
Lemma settled_through_temp w d w2 :
  owns_buffer w →
  settled None {| mem := <[fresh (dom (mem w)) := d]> (mem w); self := self w |}
    (Done tt w2) →
  ∃ w3, on_mem (free_block (Ptr (fresh (dom (mem w))) 0)) w2 = Done tt w3 ∧
        settled None w (Done tt w3) ∧
        w3 = {| mem := delete (fresh (dom (mem w))) (mem w2); self := self w2 |} ∧
        block_of (buffer (buffer_ (self w2))) ≠ Some (fresh (dom (mem w))).
Proof.
  intros Hown (Hown2 & Hrel & Herr). apply touches_None in Hrel.
  set (rd := fresh (dom (mem w))) in *.
  set (w1 := {| mem := <[rd := d]> (mem w); self := self w |}) in *.
  assert (H1 : release w1 !! rd = Some d).
  { unfold release, w1. cbn [mem self].
    destruct (buffer (buffer_ (self w))) as [|b o] eqn:Hb.
    - by rewrite lookup_insert_eq.
    - unfold owns_buffer in Hown. rewrite Hb in Hown. destruct Hown as [_ Hlive].
      rewrite lookup_delete_ne by (symmetry; by apply fresh_ne_live).
      by rewrite lookup_insert_eq. }
  rewrite <- Hrel in H1. apply release_lookup in H1 as [Hlive2 Hne2].
  exists {| mem := delete rd (mem w2); self := self w2 |}. split.
  { unfold on_mem. by rewrite (free_block_Done _ _ _ Hlive2). }
  assert (Hrel3 : release {| mem := delete rd (mem w2); self := self w2 |} = release w).
  { rewrite release_delete by done. rewrite Hrel. by apply release_fresh. }
  split; [|done]. split_and!.
  - unfold owns_buffer in *. cbn [mem self].
    destruct (buffer (buffer_ (self w2))) as [|b2 o2]; [done|].
    destruct Hown2 as [-> Hl]. split; [done|].
    rewrite lookup_delete_ne; [done|]. simpl in Hne2. congruence.
  - rewrite Hrel3. apply touches_refl.
  - intros He. destruct (Herr He) as [Hm Hb]. cbn [mem self]. split; [|done].
    rewrite Hm. unfold w1. cbn [mem]. rewrite delete_insert_eq.
    apply delete_id, fresh_not_live.
Qed.

Section TidyLoading.
Context (env : Env).

Lemma tidy_LoadFile d : tidy None (LoadFile env d).
Proof.
  apply tidy_entry_plain. intros w Hown Herr.
  destruct (stbi_load_from_memory env d) as [reason|img]; [by apply tidy_SetError|].
  unfold mbind, M_bind, set_this, on_mem, alloc_with. cbn [mem self].
  pose proof (touches_refl (Some (fresh (dom (mem w))))
    (<[fresh (dom (mem w)) := cells_of (stb_pixels img)]> (mem w))) as Ht.
  run_release (owns_buffer_filling w _ _
    (with_channelCount (stb_channels img)
       (with_height (stb_height img) (with_width (stb_width img) (self w))))
    Hown Ht eq_refl).
  cbn [mem self]. by eapply settled_installed.
Qed.

Lemma tidy_LoadFromFile path : tidy None (LoadFromFile env path).
Proof.
  apply tidy_entry_plain. intros w Hown Herr.
  destruct (stbi_load env path) as [reason|img]; [by apply tidy_SetError|].
  unfold mbind, M_bind, set_this, on_mem, alloc_with. cbn [mem self].
  pose proof (touches_refl (Some (fresh (dom (mem w))))
    (<[fresh (dom (mem w)) := cells_of (stb_pixels img)]> (mem w))) as Ht.
  run_release (owns_buffer_filling w _ _
    (with_channelCount (stb_channels img)
       (with_height (stb_height img) (with_width (stb_width img) (self w))))
    Hown Ht eq_refl).
  cbn [mem self]. by eapply settled_installed.
Qed.

Lemma tidy_LoadWebP d : tidy None (LoadWebP env d).
Proof.
  apply tidy_entry_plain. intros w Hown Herr.
  destruct (WebPGetInfo env d) as [[iw ih]|]; [|by apply tidy_SetError].
  unfold mbind, M_bind, errorHandler_SetError, set_this, this. cbn [mem self].
  rewrite on_mem_new_array. cbn [mem self].
  destruct (Int.PTRDIFF_MAX <? _); [done|].
  destruct (negb (WebPInitDecoderConfig env)).
  { cbn [mem self]. erewrite (free_fresh_block w _ _ _ (touches_refl _ _)).
    by apply settled_same. }
  cbv zeta. destruct (negb (_ =? 0)).
  { cbn [mem self]. erewrite (free_fresh_block w _ _ _ (touches_refl _ _)).
    by apply settled_same. }
  destruct (WebPDecode env d) as [status rows].
  run_confined (Some (fresh (dom (mem w)))) Ht; [|by eapply owns_buffer_filling].
  destruct (negb (status =? 0)).
  - cbn [mem self]. rewrite (free_fresh_block w _ _ _ Ht). by apply settled_same.
  - run_release (owns_buffer_filling w _ _
      (with_channelCount 4 (with_height ih (with_width iw (self w)))) Hown Ht eq_refl).
    cbn [mem self]. by eapply settled_installed.
Qed.

Lemma tidy_LoadJpeg d : tidy None (LoadJpeg env d).
Proof.
  apply tidy_entry_plain. intros w Hown Herr.
  destruct (tjInitTransform env); [by apply tidy_SetError|].
  destruct (tjTransform env d) as [msg|transformed]; [by apply tidy_SetError|].
  destruct (tjInitDecompress env); [by apply tidy_SetError|].
  destruct (tjDecompressHeader3 env d) as [msg|[iw ih]]; [by apply tidy_SetError|].
  unfold mbind, M_bind, errorHandler_SetError, set_this, this. cbn [mem self].
  rewrite on_mem_new_array. cbn [mem self].
  destruct (Int.PTRDIFF_MAX <? _); [done|].
  destruct (tjDecompress2 env _ _ _) as [msg|pixels].
  { cbn [mem self]. erewrite (free_fresh_block w _ _ _ (touches_refl _ _)).
    by apply settled_same. }
  run_confined (Some (fresh (dom (mem w)))) Ht; [|by eapply owns_buffer_filling].
  run_release (owns_buffer_filling w _ _
    (with_channelCount 3 (with_height ih (with_width iw (self w)))) Hown Ht eq_refl).
  cbn [mem self]. by eapply settled_installed.
Qed.

Lemma tidy_load_whole_file what path decode :
  (∀ d, tidy None (decode d)) →
  (∀ d b, spares b (decode d) (λ _, True)) →
  tidy None (load_whole_file env what path decode).
Proof.
  intros Hdecode Hspares. apply tidy_entry_plain. intros w Hown Herr.
  unfold ERROR_HANDLER_ERRNO.
  destruct (fopen env path) as [msg|file]; [by apply tidy_SetError|].
  destruct (negb (seek_end_ok file)); [by apply tidy_SetError|].
  cbv zeta. destruct (file_size file =? 0); [by apply tidy_SetError|].
  destruct (negb (seek_begin_ok file)); [by apply tidy_SetError|].
  unfold mbind, M_bind at 1. rewrite on_mem_new_array.
  destruct (Int.PTRDIFF_MAX <? _); [done|].
  set (rd := fresh (dom (mem w))).
  set (w1 := {| mem := <[rd := replicate (Z.to_nat (file_size file)) None]> (mem w);
                self := self w |}).
  assert (Hown1 : owns_buffer w1)
    by apply (owns_buffer_filling w _ _ (self w) Hown (touches_refl _ _) eq_refl).
  unfold scoped. destruct (fread file (file_size file)) as [bytes|].
  - pose proof (Hdecode bytes w1 Hown1) as Hd.
    assert (Hapart : apart rd (replicate (Z.to_nat (file_size file)) None) w1).
    { split; [unfold w1; cbn [mem]; by rewrite lookup_insert_eq|].
      unfold outside, owns_buffer in *. unfold w1. cbn [self]. destruct (buffer (buffer_ (self w))) as [|b o]; [done|].
      destruct Hown as [_ Hlive]. simpl. intros [= ->].
      pose proof (fresh_not_live (mem w)) as Hf. fold rd in Hf.
      rewrite Hf in Hlive. by destruct Hlive. }
    pose proof (Hspares bytes rd w1 _ Hapart) as Hs.
    destruct (decode bytes w1) as [[] w2|f w2].
    + destruct (settled_through_temp w _ w2 Hown Hd) as (w3 & Hfree & Hw3 & _).
      fold rd in Hfree. unfold mbind, M_bind. by rewrite Hfree.
    + destruct f; try done.
      destruct Hs as [Hlive Hout].
      unfold mbind, M_bind, on_mem. rewrite (free_block_Done _ _ _ Hlive).
      unfold settled, crash, owns_buffer in *. cbn [mem self].
      destruct (buffer (buffer_ (self w2))) as [|b2 o2]; [done|].
      destruct Hd as [-> Hl2]. split; [done|].
      rewrite lookup_delete_ne; [done|]. unfold outside in Hout. simpl in Hout.
      congruence.
  - unfold mbind, M_bind, errorHandler_SetError, set_this. cbn [mem self].
    unfold w1, rd. cbn [mem self].
    erewrite (free_fresh_block w _ _ _ (touches_refl _ _)).
    by apply settled_same.
Qed.

Lemma tidy_Load_path path : tidy None (Load_path env path).
Proof.
  apply tidy_entry_plain. intros w Hown Herr.
  unfold ERROR_HANDLER_ERRNO.
  destruct (fopen env path) as [msg|file]; [by apply tidy_SetError|].
  destruct (negb (seek_end_ok file)); [by apply tidy_SetError|].
  cbv zeta. destruct (file_size file =? 0); [by apply tidy_SetError|].
  destruct (negb (seek_begin_ok file)); [by apply tidy_SetError|].
  destruct (fread file _) as [magic|]; [|by apply tidy_SetError].
  destruct (IsWebPFileData env magic); [|destruct (IsJpegFileData env magic)].
  - exact (tidy_load_whole_file _ path _ tidy_LoadWebP
             (λ d b, spares_LoadWebP env b d) w Hown).
  - exact (tidy_load_whole_file _ path _ tidy_LoadJpeg
             (λ d b, spares_LoadJpeg env b d) w Hown).
  - by apply tidy_LoadFromFile.
Qed.

Lemma tidy_Load_data d : tidy None (Load_data env d).
Proof.
  apply tidy_entry_plain. intros w Hown Herr.
  destruct (IsWebPFileData env d); [|destruct (IsJpegFileData env d)].
  - by apply tidy_LoadWebP.
  - by apply tidy_LoadJpeg.
  - by apply tidy_LoadFile.
Qed.

(** Every call is tidy. *)
Lemma tidy_perform c : tidy (target c) (perform env c).
Proof.
  assert (Hret : ∀ ob (m : M World unit),
            tidy ob m → tidy ob (m ≫= λ _, mret (@None Z))).
  { intros ob m Hm w Hown. specialize (Hm w Hown). unfold mbind, M_bind.
    by destruct (m w). }
  assert (Hget : ∀ (m : M World Z),
            tidy None m → tidy None (m ≫= λ z, mret (Some z))).
  { intros m Hm w Hown. specialize (Hm w Hown). unfold mbind, M_bind.
    by destruct (m w). }
  destruct c; simpl.
  - apply Hret, tidy_Load_path.
  - apply Hret, tidy_Load_data.
  - apply Hret, tidy_Load_pixels.
  - apply Hget, tidy_GetWidth.
  - apply Hget, tidy_GetHeight.
  - apply Hget, tidy_GetChannelCount.
  - apply Hret, tidy_Clip.
  - apply Hret, tidy_Resize.
  - apply Hret, tidy_Unload.
  - apply Hret, tidy_CopyTo.
Qed.

(** However a sequence of calls ends, the asset owns its buffer. *)
Lemma owns_buffer_perform_all cs w :
  owns_buffer w → owns_buffer (final (perform_all env cs w)).
Proof.
  revert w. induction cs as [|c cs IH]; intros w Hown; [done|].
  simpl. unfold mbind, M_bind.
  pose proof (tidy_perform c w Hown) as Hc.
  destruct (perform env c w) as [r w'|f w']; [|done].
  apply IH, Hc.
Qed.
End TidyLoading.

(** ** Loads that succeed *)

Lemma reloaded_installed w (h2 : heap) d a' af origin W H C px :
  owns_buffer w →
  touches (Some (fresh (dom (mem w)))) (<[fresh (dom (mem w)) := d]> (mem w)) h2 →
  h2 !! fresh (dom (mem w)) = Some (cells_of px) →
  buffer_ a' = buffer_ (self w) →
  buffer_ af = {| buffer := Ptr (fresh (dom (mem w))) 0; source := origin |} →
  ErrorHandler.error_ (errorHandler_ af) = EmptyString →
  width_ af = W → height_ af = H → channelCount_ af = C →
  reloaded w {| mem := release {| mem := h2; self := a' |}; self := af |}
    origin W H C px.
Proof.
  intros Hown Ht Hpx Ha Haf Herr <- <- <-.
  assert (Hset : settled None w
            (Done tt {| mem := release {| mem := h2; self := a' |}; self := af |})).
  { eapply settled_installed; try done. by rewrite Haf. }
  destruct Hset as (Hown' & Hrel & _). apply touches_None in Hrel.
  split; try done.
  - cbn [self]. by rewrite Haf.
  - unfold loaded. cbn [self]. by rewrite Haf.
  - unfold pixels_of. cbn [mem self]. rewrite Haf. cbn [buffer].
    assert (Hl : release {| mem := h2; self := a' |} !! fresh (dom (mem w))
                 = Some (cells_of px)).
    { unfold release. cbn [mem self]. rewrite Ha.
      destruct (buffer (buffer_ (self w))) as [|b o] eqn:Hb; [done|].
      unfold owns_buffer in Hown. rewrite Hb in Hown. destruct Hown as [_ Hlive].
      rewrite lookup_delete_ne; [done|].
      symmetry. by apply fresh_ne_live. }
    by rewrite Hl.
Qed.

(** Rows written with a negative stride, the first one at the end of the
    block: they end up in the block last row first. *)
Lemma store_rows_upwards (h : heap) b rs rows pre done r base :
  Forall (λ row : list Byte.byte, Z.of_nat (length row) = rs) rows →
  Z.of_nat (length pre) = Z.of_nat (length rows) * rs →
  h !! b = Some (pre ++ done) →
  base = (r + Z.of_nat (length rows) - 1) * rs →
  store_rows (Ptr b base) (- rs) r rows h
  = Done tt (<[b := cells_of (concat (reverse rows)) ++ done]> h).
Proof.
  intros Hrows. revert h pre done r.
  induction Hrows as [|row rows Hrow Hrows IH]; intros h pre done r Hpre Hb ->.
  - destruct pre; [|simpl in Hpre; lia]. simpl. by rewrite insert_id.
  - assert (HS : 0 ≤ rs) by lia.
    cbn [store_rows]. unfold mbind, M_bind.
    cbn [length] in *.
    assert (Hoff : (r + Z.of_nat (S (length rows)) - 1) * rs + r * - rs
                   = Z.of_nat (length rows) * rs) by lia.
    cbn [ptr_add]. rewrite Hoff.
    assert (Hlen : Z.of_nat (length pre) = Z.of_nat (length rows) * rs + rs) by lia.
    assert (Hoff0 : 0 ≤ Z.of_nat (length rows) * rs) by lia.
    assert (Hflip : cells_of (concat (reverse (row :: rows))) ++ done
                    = cells_of (concat (reverse rows)) ++ (cells_of row ++ done)).
    { rewrite reverse_cons, concat_app. cbn [concat]. rewrite app_nil_r.
      unfold cells_of. by rewrite fmap_app, <- app_assoc. }
    rewrite Hflip.
    destruct row as [|v row].
    + (* an empty row: nothing is written *)
      cbn [write_bytes]. simpl in Hrow.
      rewrite (IH h pre done (r + 1)); [done|lia|done|lia].
    + unfold write_bytes.
      erewrite store_cells_Some; [|exact Hb|lia|]; last first.
      { unfold cells_of. rewrite length_fmap, length_app. lia. }
      set (off := Z.to_nat (Z.of_nat (length rows) * rs)).
      assert (Hcut : take off (pre ++ done) ++ cells_of (v :: row)
                     ++ drop (off + length (cells_of (v :: row))) (pre ++ done)
                     = take off pre ++ (cells_of (v :: row) ++ done)).
      { unfold cells_of. rewrite length_fmap.
        rewrite take_app_le by (unfold off; lia).
        rewrite drop_app_length'; [done|]. unfold off. lia. }
      rewrite Hcut.
      rewrite (IH _ (take off pre) (cells_of (v :: row) ++ done) (r + 1)).
      * by rewrite insert_insert_eq.
      * rewrite length_take. unfold off. lia.
      * by rewrite lookup_insert_eq.
      * lia.
Qed.

Lemma reloaded_from w0 w w' origin W H C px :
  mem w = mem w0 → buffer_ (self w) = buffer_ (self w0) →
  reloaded w w' origin W H C px → reloaded w0 w' origin W H C px.
Proof.
  intros Hm Hb []. split; try done.
  rewrite (release_same w0 w) in * by done. done.
Qed.

Lemma fread_all file bytes :
  file_data file = Some bytes → file_size file = Z.of_nat (length bytes) →
  fread file (file_size file) = Some bytes.
Proof.
  intros Hd Hs. unfold fread. rewrite Hd, Hs, Z.leb_refl, Nat2Z.id.
  by rewrite firstn_all.
Qed.

Lemma fread_magic file bytes :
  file_data file = Some bytes → file_size file = Z.of_nat (length bytes) →
  fread file (if 16 <? file_size file then 16 else file_size file)
  = Some (take 16 bytes).
Proof.
  intros Hd Hs. unfold fread. rewrite Hd, Hs.
  destruct (16 <? Z.of_nat (length bytes)) eqn:E.
  - apply Z.ltb_lt in E.
    assert ((16 <=? Z.of_nat (length bytes)) = true) as -> by (apply Z.leb_le; lia).
    done.
  - apply Z.ltb_ge in E. rewrite Z.leb_refl, Nat2Z.id.
    rewrite firstn_all. by rewrite take_ge by lia.
Qed.

Section Decoded.
Context (env : Env).

Lemma LoadFile_decoded d w img :
  owns_buffer w →
  stbi_load_from_memory env d = inr img →
  ∃ w', LoadFile env d w = Done tt w' ∧
        reloaded w w' Stb (stb_width img) (stb_height img) (stb_channels img)
          (stb_pixels img).
Proof.
  intros Hown Himg. unfold LoadFile. rewrite Himg.
  unfold mbind, M_bind, errorHandler_Clear, set_this, on_mem, alloc_with.
  cbn [mem self].
  pose proof (touches_refl (Some (fresh (dom (mem w))))
    (<[fresh (dom (mem w)) := cells_of (stb_pixels img)]> (mem w))) as Ht.
  match goal with
  | |- context [ReleaseBuffer_ {| mem := _; self := ?a |}] =>
      run_release (owns_buffer_filling w _ _ a Hown Ht eq_refl)
  end.
  cbn [mem self]. eexists. split; [done|].
  eapply (reloaded_installed w _ _ _ _ Stb _ _ _ (stb_pixels img) Hown Ht); try done.
  by rewrite lookup_insert_eq.
Qed.

Lemma LoadFromFile_decoded path w img :
  owns_buffer w →
  stbi_load env path = inr img →
  ∃ w', LoadFromFile env path w = Done tt w' ∧
        reloaded w w' Stb (stb_width img) (stb_height img) (stb_channels img)
          (stb_pixels img).
Proof.
  intros Hown Himg. unfold LoadFromFile. rewrite Himg.
  unfold mbind, M_bind, errorHandler_Clear, set_this, on_mem, alloc_with.
  cbn [mem self].
  pose proof (touches_refl (Some (fresh (dom (mem w))))
    (<[fresh (dom (mem w)) := cells_of (stb_pixels img)]> (mem w))) as Ht.
  match goal with
  | |- context [ReleaseBuffer_ {| mem := _; self := ?a |}] =>
      run_release (owns_buffer_filling w _ _ a Hown Ht eq_refl)
  end.
  cbn [mem self]. eexists. split; [done|].
  eapply (reloaded_installed w _ _ _ _ Stb _ _ _ (stb_pixels img) Hown Ht); try done.
  by rewrite lookup_insert_eq.
Qed.

Lemma LoadWebP_decoded d w W H rows :
  owns_buffer w →
  WebPGetInfo env d = Some (W, H) →
  WebPInitDecoderConfig env = true →
  WebPGetFeatures env d = 0 →
  WebPDecode env d = (0, rows) →
  0 < W → 0 < H → W * H * 4 ≤ Int.INT_MAX →
  Z.of_nat (length rows) = H →
  Forall (λ row : list Byte.byte, Z.of_nat (length row) = 4 * W) rows →
  ∃ w', LoadWebP env d w = Done tt w' ∧
        reloaded w w' Self W H 4 (concat (reverse rows)).
Proof.
  intros Hown Hinfo Hinit Hfeat Hdec HW HH Hsize Hrows Hrow.
  assert (HWH : 1 * 1 ≤ W * H) by (apply Z.mul_le_mono_nonneg; lia).
  assert (HW4 : 4 * W * 1 ≤ 4 * W * H) by (apply Z.mul_le_mono_nonneg_l; lia).
  assert (HH4 : 0 ≤ (H - 1) * (4 * W)) by (apply Z.mul_nonneg_nonneg; lia).
  unfold LoadWebP. rewrite Hinfo, Hinit, Hfeat, Hdec.
  unfold mbind, M_bind, errorHandler_Clear, set_this, this.
  cbn [mem self width_ height_ channelCount_ with_width with_height
       with_channelCount with_errorHandler negb Z.eqb].
  rewrite on_mem_new_array. cbn [mem self].
  rewrite (int32_id (W * H * 4))
    by (unfold is_int32, Int.INT_MIN, Int.INT_MAX in *; lia).
  rewrite size_t_id by (unfold Int.INT_MAX in *; lia).
  rewrite (int32_id (4 * W))
    by (unfold is_int32, Int.INT_MIN, Int.INT_MAX in *; lia).
  rewrite (int32_id (- (4 * W)))
    by (unfold is_int32, Int.INT_MIN, Int.INT_MAX in *; lia).
  rewrite (int32_id ((H - 1) * (4 * W)))
    by (unfold is_int32, Int.INT_MIN, Int.INT_MAX in *; lia).
  assert (Hbig : (Int.PTRDIFF_MAX <? W * H * 4) = false)
    by (apply Z.ltb_ge; unfold Int.PTRDIFF_MAX, Int.INT_MAX in *; lia).
  rewrite Hbig. cbn [ptr_add].
  set (b' := fresh (dom (mem w))).
  set (h1 := <[b' := replicate (Z.to_nat (W * H * 4)) None]> (mem w)).
  assert (Hst : store_rows (Ptr b' (0 + (H - 1) * (4 * W))) (- (4 * W)) 0 rows h1
                = Done tt (<[b' := cells_of (concat (reverse rows)) ++ []]> h1)).
  { apply (store_rows_upwards h1 b' (4 * W) rows
             (replicate (Z.to_nat (W * H * 4)) None) [] 0); [done| | |lia].
    - rewrite length_replicate. lia.
    - unfold h1. by rewrite lookup_insert_eq, app_nil_r. }
  rewrite app_nil_r in Hst.
  erewrite on_mem_Done by exact Hst. cbn [mem self].
  assert (Ht : touches (Some b') h1 (<[b' := cells_of (concat (reverse rows))]> h1)).
  { apply touches_insert. unfold h1. rewrite lookup_insert_eq. eauto. }
  match goal with
  | |- context [ReleaseBuffer_ {| mem := _; self := ?a |}] =>
      run_release (owns_buffer_filling w _ _ a Hown Ht eq_refl)
  end.
  cbn [mem self]. eexists. split; [done|].
  eapply (reloaded_installed w _ _ _ _ Self _ _ _ (concat (reverse rows)) Hown Ht);
    try done.
  by rewrite lookup_insert_eq.
Qed.

Lemma LoadJpeg_decoded d w transformed W H pixels :
  owns_buffer w →
  tjInitTransform env = None →
  tjTransform env d = inr transformed →
  tjInitDecompress env = None →
  tjDecompressHeader3 env d = inr (W, H) →
  tjDecompress2 env transformed W H = inr pixels →
  0 ≤ W → 0 ≤ H → W * H * 3 ≤ Int.INT_MAX →
  Z.of_nat (length pixels) = W * H * 3 →
  ∃ w', LoadJpeg env d w = Done tt w' ∧ reloaded w w' Self W H 3 pixels.
Proof.
  intros Hown Hit Htr Hid Hhead Hdec HW HH Hsize Hlen.
  assert (HWH : 0 ≤ W * H) by (apply Z.mul_nonneg_nonneg; lia).
  unfold LoadJpeg. rewrite Hit, Htr, Hid, Hhead.
  unfold mbind, M_bind, errorHandler_Clear, set_this, this.
  cbn [mem self width_ height_ channelCount_ with_width with_height
       with_channelCount with_errorHandler].
  rewrite Hdec. rewrite on_mem_new_array. cbn [mem self].
  rewrite (int32_id (W * H * 3))
    by (unfold is_int32, Int.INT_MIN, Int.INT_MAX in *; lia).
  rewrite size_t_id by (unfold Int.INT_MAX in *; lia).
  assert (Hbig : (Int.PTRDIFF_MAX <? W * H * 3) = false)
    by (apply Z.ltb_ge; unfold Int.PTRDIFF_MAX, Int.INT_MAX in *; lia).
  rewrite Hbig.
  set (b' := fresh (dom (mem w))).
  set (h1 := <[b' := replicate (Z.to_nat (W * H * 3)) None]> (mem w)).
  assert (Hst : store_rows (Ptr b' 0) 0 0 [pixels] h1
                = Done tt (<[b' := cells_of pixels]> h1)).
  { cbn [store_rows]. unfold mbind, M_bind, write_bytes. cbn [ptr_add].
    destruct pixels as [|v pixels].
    - simpl in Hlen. unfold h1. rewrite <- Hlen. simpl. by rewrite insert_insert_eq.
    - erewrite store_cells_Some;
        [|by (unfold h1; rewrite lookup_insert_eq)|lia|]; last first.
      { unfold cells_of. rewrite length_fmap, length_replicate. lia. }
      rewrite drop_ge; last first.
      { unfold cells_of. rewrite length_fmap, length_replicate. lia. }
      simpl. by rewrite app_nil_r. }
  erewrite on_mem_Done by exact Hst. cbn [mem self].
  assert (Ht : touches (Some b') h1 (<[b' := cells_of pixels]> h1)).
  { apply touches_insert. unfold h1. rewrite lookup_insert_eq. eauto. }
  match goal with
  | |- context [ReleaseBuffer_ {| mem := _; self := ?a |}] =>
      run_release (owns_buffer_filling w _ _ a Hown Ht eq_refl)
  end.
  cbn [mem self]. eexists. split; [done|].
  eapply (reloaded_installed w _ _ _ _ Self _ _ _ pixels Hown Ht); try done.
  by rewrite lookup_insert_eq.
Qed.

(** Open, measure, read, decode and give the read buffer back. *)
Lemma load_whole_file_decoded what path decode bytes w origin W H C px :
  owns_buffer w →
  readable env path bytes →
  (∀ w1, owns_buffer w1 →
     ∃ w2, decode bytes w1 = Done tt w2 ∧ reloaded w1 w2 origin W H C px) →
  ∃ w', load_whole_file env what path decode w = Done tt w' ∧
        reloaded w w' origin W H C px.
Proof.
  intros Hown (file & Hopen & Hse & Hsb & Hsize & Hdata & Hpos) Hdecode.
  unfold load_whole_file. rewrite Hopen, Hse, Hsb. cbn [negb]. cbv zeta.
  assert ((file_size file =? 0) = false) as -> by (apply Z.eqb_neq; lia).
  rewrite (fread_all file bytes Hdata Hsize).
  unfold mbind, M_bind, errorHandler_Clear, set_this. rewrite on_mem_new_array.
  assert ((Int.PTRDIFF_MAX <? file_size file) = false) as ->
    by (apply Z.ltb_ge; lia).
  unfold scoped. cbn [mem self].
  set (wc := {| mem := mem w;
                self := with_errorHandler
                          (ErrorHandler.Clear (errorHandler_ (self w))) (self w) |}).
  assert (Hownc : owns_buffer wc) by done.
  set (rd := fresh (dom (mem w))).
  set (w1 := {| mem := <[rd := replicate (Z.to_nat (file_size file)) None]> (mem w);
                self := self wc |}).
  assert (Hown1 : owns_buffer w1).
  { apply (owns_buffer_filling wc _ _ (self wc) Hownc (touches_refl _ _) eq_refl). }
  destruct (Hdecode w1 Hown1) as (w2 & Hrun & Hre).
  pose proof Hrun as Hrun'. unfold w1, wc in Hrun'. cbn [self] in Hrun'.
  rewrite Hrun'. clear Hrun'.
  assert (Hset : settled None w1 (Done tt w2)).
  { destruct Hre. by apply settled_Done. }
  destruct (settled_through_temp wc _ w2 Hownc Hset) as (w3 & Hfree & Hw3 & -> & Hne).
  change (fresh (dom (mem wc))) with rd in *.
  unfold mbind, M_bind. rewrite Hfree.
  eexists. split; [done|].
  destruct Hw3 as (Hown3 & Hrel3 & _). apply touches_None in Hrel3.
  destruct Hre. split; try done.
  unfold pixels_of in *. cbn [mem self].
  destruct (buffer (buffer_ (self w2))) as [|b2 o2]; [done|].
  rewrite lookup_delete_ne; [done|]. simpl in Hne. congruence.
Qed.
End Decoded.

(** ** Ownership of the buffer *)

(** X1.  An asset that owns its buffer (the buffer pointer is null or the
    start of a live block) still owns it after any sequence of calls, however
    the sequence ends, also by an exception: the pointer never dangles, and
    the destructor then releases the buffer without a fault, exactly once. *)
Theorem destructor_never_faults env cs w :
  owns_buffer w →
  owns_buffer (final (perform_all env cs w)) ∧
  ∃ w', destroy_ImageAsset (final (perform_all env cs w)) = Done tt w' ∧
        mem w' = release (final (perform_all env cs w)) ∧
        unloaded (self w') ∧
        destroy_ImageAsset w' = Done tt w'.
Proof.
  intros Hown.
  pose proof (owns_buffer_perform_all env cs w Hown) as Hown'.
  split; [done|]. unfold destroy_ImageAsset.
  rewrite (ReleaseBuffer__owned _ Hown').
  eexists. split; [done|]. split; [done|]. split; [done|].
  by rewrite ReleaseBuffer__unloaded.
Qed.

Lemma destructor_never_faults_witness :
  owns_buffer (final (perform_all truncated_webp
                 [CallClip 0 0 1 1; CallResize 3 3; CallUnload] tiny_world)) ∧
  ∃ w', destroy_ImageAsset (final (perform_all truncated_webp
                 [CallClip 0 0 1 1; CallResize 3 3; CallUnload] tiny_world))
        = Done tt w' ∧
        mem w' = release (final (perform_all truncated_webp
                   [CallClip 0 0 1 1; CallResize 3 3; CallUnload] tiny_world)) ∧
        unloaded (self w') ∧
        destroy_ImageAsset w' = Done tt w'.
Proof.
  apply (destructor_never_faults truncated_webp
           [CallClip 0 0 1 1; CallResize 3 3; CallUnload] tiny_world).
  split; [reflexivity|]. by eexists.
Defined.

(** ** No leak *)

(** X2.  When a sequence of calls on an asset that owns its buffer returns,
    the memory apart from the asset's buffer has the same live blocks as
    before, and every block that no [CopyTo] of the sequence was given as its
    destination has its contents of before: no temporary block is left
    behind, and no block of somebody else is released or written to. *)
Theorem calls_leak_nothing env cs w w' :
  owns_buffer w →
  perform_all env cs w = Done tt w' →
  dom (release w') = dom (release w) ∧
  ∀ b, Forall (λ c, target c ≠ Some b) cs → release w' !! b = release w !! b.
Proof.
  revert w. induction cs as [|c cs IH]; intros w Hown Hrun.
  - injection Hrun as <-. done.
  - simpl in Hrun. unfold mbind, M_bind in Hrun.
    pose proof (tidy_perform env c w Hown) as Hc.
    destruct (perform env c w) as [r w1|f w1]; [|done].
    destruct Hc as (Hown1 & [Hdom Hkeep] & _).
    destruct (IH w1 Hown1 Hrun) as [Hdom' Hkeep']. split; [congruence|].
    intros b Hb. apply Forall_cons in Hb as [Hc Hcs].
    rewrite Hkeep' by done. by apply Hkeep.
Qed.

Lemma calls_leak_nothing_witness :
  dom (release (final (perform_all truncated_webp
                  [CallResize 3 3; CallLoadData truncated_webp_file; CallUnload] tiny_world)))
  = dom (release tiny_world) ∧
  ∀ b, Forall (λ c, target c ≠ Some b)
         [CallResize 3 3; CallLoadData truncated_webp_file; CallUnload] →
       release (final (perform_all truncated_webp
                  [CallResize 3 3; CallLoadData truncated_webp_file; CallUnload] tiny_world)) !! b
       = release tiny_world !! b.
Proof.
  apply (calls_leak_nothing truncated_webp
           [CallResize 3 3; CallLoadData truncated_webp_file; CallUnload] tiny_world).
  - split; [reflexivity|]. by eexists.
  - vm_compute. reflexivity.
Defined.

(** ** Failure leaves the pixels alone *)

(** X3.  Whenever a call on an asset that owns its buffer returns with an
    error set, the memory is exactly the one before the call and the asset
    still has the buffer it had: whatever the call had allocated on the way
    is released, and the pixels are untouched.  (Width, height and channel
    count are not covered: a failing load may have changed them.) *)
Theorem failed_call_keeps_buffer env c w r w' :
  owns_buffer w →
  perform env c w = Done r w' →
  error_of w' ≠ EmptyString →
  mem w' = mem w ∧ buffer_ (self w') = buffer_ (self w) ∧
  pixels_of w' = pixels_of w.
Proof.
  intros Hown Hrun Herr.
  pose proof (tidy_perform env c w Hown) as Hc. rewrite Hrun in Hc.
  destruct Hc as (_ & _ & Hc). destruct (Hc Herr) as [Hm Hb].
  split; [done|]. split; [done|]. unfold pixels_of. by rewrite Hm, Hb.
Qed.

Lemma failed_call_keeps_buffer_witness :
  ∃ w', perform truncated_webp (CallLoadData truncated_webp_file) tiny_world
        = Done None w' ∧
        error_of w' ≠ EmptyString ∧
        mem w' = mem tiny_world ∧ buffer_ (self w') = buffer_ (self tiny_world) ∧
        pixels_of w' = pixels_of tiny_world.
Proof.
  eexists. split; [reflexivity|]. split; [discriminate|].
  apply (failed_call_keeps_buffer truncated_webp (CallLoadData truncated_webp_file)
           tiny_world None).
  - split; [reflexivity|]. by eexists.
  - reflexivity.
  - discriminate.
Defined.

(** ** Memory of others *)

(** X4.  A block that is not the asset's buffer, and that no [CopyTo] of the
    sequence is given as its destination, holds after any sequence of calls
    what it held before, however the sequence ends: the asset reads and
    writes its own buffer, fresh blocks and the destinations it is given,
    nothing else; and its buffer is never that block. *)
Theorem calls_spare_other_blocks env cs w b cells :
  mem w !! b = Some cells →
  block_of (buffer (buffer_ (self w))) ≠ Some b →
  Forall (writes_outside b) cs →
  mem (final (perform_all env cs w)) !! b = Some cells ∧
  block_of (buffer (buffer_ (self (final (perform_all env cs w))))) ≠ Some b.
Proof.
  intros Hb Hout Hcs.
  pose proof (spares_perform_all env b cs Hcs w cells (conj Hb Hout)) as H.
  destruct (perform_all env cs w) as [[] w'|f w']; [apply H|apply H].
Qed.

Lemma calls_spare_other_blocks_witness :
  mem (final (perform_all truncated_webp
                [CallResize 1 1; CallCopyTo (Ptr 3%positive 0); CallUnload]
                caller_world)) !! 2%positive
  = Some (pixel Byte.x10 Byte.x20 Byte.x30) ∧
  block_of (buffer (buffer_ (self (final (perform_all truncated_webp
                [CallResize 1 1; CallCopyTo (Ptr 3%positive 0); CallUnload]
                caller_world))))) ≠ Some 2%positive.
Proof.
  apply (calls_spare_other_blocks truncated_webp
           [CallResize 1 1; CallCopyTo (Ptr 3%positive 0); CallUnload] caller_world).
  - reflexivity.
  - discriminate.
  - repeat constructor; discriminate.
Defined.

(** ** Loading encoded bytes *)

(** X5.  [Load(fileData, size)] on bytes that are recognised neither as WebP
    nor as JPEG, and that the generic decoder decodes: the call returns with
    no error, the asset holds the decoded pixels in the block the decoder
    allocated (origin [Stb]) with the decoder's width, height and channel
    count, the old buffer is released and the rest of the memory is as it
    was. *)
Theorem Load_data_generic env d w img :
  owns_buffer w →
  IsWebPFileData env d = false → IsJpegFileData env d = false →
  stbi_load_from_memory env d = inr img →
  ∃ w', Load_data env d w = Done tt w' ∧
        reloaded w w' Stb (stb_width img) (stb_height img) (stb_channels img)
          (stb_pixels img).
Proof.
  intros Hown Hwebp Hjpeg Himg. unfold Load_data. rewrite Hwebp, Hjpeg.
  unfold mbind, M_bind, errorHandler_Clear, set_this.
  edestruct (LoadFile_decoded env d) as (w' & Hrun & Hre); [|exact Himg|].
  2: { exists w'. split; [exact Hrun|]. by eapply reloaded_from; [| |exact Hre]. }
  done.
Qed.

Lemma Load_data_generic_witness :
  ∃ w', Load_data sample_files sample_png tiny_world = Done tt w' ∧
        reloaded tiny_world w' Stb 1 1 1 [Byte.x80].
Proof.
  apply (Load_data_generic sample_files sample_png tiny_world
           {| stb_width := 1; stb_height := 1; stb_channels := 1;
              stb_pixels := [Byte.x80] |}).
  - split; [reflexivity|]. by eexists.
  - reflexivity.
  - reflexivity.
  - reflexivity.
Defined.

(** X6.  [Load(fileData, size)] on bytes recognised as WebP that libwebp
    decodes to a W x H image: the asset holds W x H pixels of 4 channels in a
    block of its own, stored bottom row first (the rows the decoder delivers
    from the top are written from the end of the buffer towards its start);
    no error, the old buffer released, the rest of the memory as it was. *)
Theorem Load_data_webp env d w W H rows :
  owns_buffer w →
  IsWebPFileData env d = true →
  WebPGetInfo env d = Some (W, H) →
  WebPInitDecoderConfig env = true →
  WebPGetFeatures env d = 0 →
  WebPDecode env d = (0, rows) →
  0 < W → 0 < H → W * H * 4 ≤ Int.INT_MAX →
  Z.of_nat (length rows) = H →
  Forall (λ row : list Byte.byte, Z.of_nat (length row) = 4 * W) rows →
  ∃ w', Load_data env d w = Done tt w' ∧
        reloaded w w' Self W H 4 (concat (reverse rows)).
Proof.
  intros Hown Hwebp Hinfo Hinit Hfeat Hdec HW HH Hsize Hrows Hrow.
  unfold Load_data. rewrite Hwebp.
  unfold mbind, M_bind, errorHandler_Clear, set_this.
  edestruct (LoadWebP_decoded env d) as (w' & Hrun & Hre); [|eassumption..|].
  2: { exists w'. split; [exact Hrun|]. by eapply reloaded_from; [| |exact Hre]. }
  done.
Qed.

Lemma Load_data_webp_witness :
  ∃ w', Load_data sample_files sample_webp tiny_world = Done tt w' ∧
        reloaded tiny_world w' Self 1 2 4
          [Byte.x05; Byte.x06; Byte.x07; Byte.x08;
           Byte.x01; Byte.x02; Byte.x03; Byte.x04].
Proof.
  apply (Load_data_webp sample_files sample_webp tiny_world 1 2 sample_rows).
  - split; [reflexivity|]. by eexists.
  - reflexivity.
  - reflexivity.
  - reflexivity.
  - reflexivity.
  - reflexivity.
  - lia.
  - lia.
  - unfold Int.INT_MAX. lia.
  - reflexivity.
  - repeat constructor.
Defined.

(** X7.  [Load(fileData, size)] on bytes recognised as JPEG (and not as WebP)
    that TurboJPEG transforms and decompresses to W x H RGB pixels: the asset
    holds these pixels in a block of its own, with width W, height H and 3
    channels; no error, the old buffer released, the rest of the memory as it
    was. *)
Theorem Load_data_jpeg env d w transformed W H pixels :
  owns_buffer w →
  IsWebPFileData env d = false → IsJpegFileData env d = true →
  tjInitTransform env = None →
  tjTransform env d = inr transformed →
  tjInitDecompress env = None →
  tjDecompressHeader3 env d = inr (W, H) →
  tjDecompress2 env transformed W H = inr pixels →
  0 ≤ W → 0 ≤ H → W * H * 3 ≤ Int.INT_MAX →
  Z.of_nat (length pixels) = W * H * 3 →
  ∃ w', Load_data env d w = Done tt w' ∧ reloaded w w' Self W H 3 pixels.
Proof.
  intros Hown Hwebp Hjpeg Hit Htr Hid Hhead Hdec HW HH Hsize Hlen.
  unfold Load_data. rewrite Hwebp, Hjpeg.
  unfold mbind, M_bind, errorHandler_Clear, set_this.
  edestruct (LoadJpeg_decoded env d) as (w' & Hrun & Hre); [|eassumption..|].
  2: { exists w'. split; [exact Hrun|]. by eapply reloaded_from; [| |exact Hre]. }
  done.
Qed.

Lemma Load_data_jpeg_witness :
  ∃ w', Load_data sample_files sample_jpeg tiny_world = Done tt w' ∧
        reloaded tiny_world w' Self 1 1 3 sample_pixel.
Proof.
  apply (Load_data_jpeg sample_files sample_jpeg tiny_world sample_jpeg 1 1 sample_pixel).
  - split; [reflexivity|]. by eexists.
  - reflexivity.
  - reflexivity.
  - reflexivity.
  - reflexivity.
  - reflexivity.
  - reflexivity.
  - reflexivity.
  - lia.
  - lia.
  - unfold Int.INT_MAX. lia.
  - reflexivity.
Defined.

(** ** Loading a file *)

Section FromFile.
Context (env : Env).

(** Detection: open the file, measure it, read its first bytes, and hand
    over to the loader of the format. *)
Lemma Load_path_detected path bytes w :
  readable env path bytes →
  Load_path env path w
  = (if IsWebPFileData env (take 16 bytes) then LoadWebPFromFile env path
     else if IsJpegFileData env (take 16 bytes) then LoadJpegFromFile env path
     else LoadFromFile env path)
      {| mem := mem w;
         self := with_errorHandler
                   (ErrorHandler.Clear (errorHandler_ (self w))) (self w) |}.
Proof.
  intros (file & Hopen & Hse & Hsb & Hsize & Hdata & Hpos).
  unfold Load_path. rewrite Hopen, Hse, Hsb. cbn [negb]. cbv zeta.
  assert ((file_size file =? 0) = false) as -> by (apply Z.eqb_neq; lia).
  rewrite (fread_magic file bytes Hdata Hsize).
  unfold mbind, M_bind, errorHandler_Clear, set_this. done.
Qed.
End FromFile.

(** X8.  [Load(path)] on a readable file whose first 16 bytes are recognised
    as WebP and that libwebp decodes: the file is read in full into a
    temporary buffer, which is given back, and the asset holds the W x H
    pixels of 4 channels, bottom row first; no error, the old buffer
    released, the rest of the memory as it was. *)
Theorem Load_path_webp env path bytes w W H rows :
  owns_buffer w →
  readable env path bytes →
  IsWebPFileData env (take 16 bytes) = true →
  WebPGetInfo env bytes = Some (W, H) →
  WebPInitDecoderConfig env = true →
  WebPGetFeatures env bytes = 0 →
  WebPDecode env bytes = (0, rows) →
  0 < W → 0 < H → W * H * 4 ≤ Int.INT_MAX →
  Z.of_nat (length rows) = H →
  Forall (λ row : list Byte.byte, Z.of_nat (length row) = 4 * W) rows →
  ∃ w', Load_path env path w = Done tt w' ∧
        reloaded w w' Self W H 4 (concat (reverse rows)).
Proof.
  intros Hown Hfile Hwebp Hinfo Hinit Hfeat Hdec HW HH Hsize Hrows Hrow.
  rewrite (Load_path_detected env path bytes w Hfile), Hwebp.
  edestruct (load_whole_file_decoded env "webp" path (LoadWebP env) bytes)
    as (w' & Hrun & Hre); [|exact Hfile| |].
  3: { exists w'. split; [exact Hrun|]. by eapply reloaded_from; [| |exact Hre]. }
  - done.
  - intros w1 Hown1. by apply LoadWebP_decoded.
Qed.

Lemma Load_path_webp_witness :
  ∃ w', Load_path sample_files "a.webp" tiny_world = Done tt w' ∧
        reloaded tiny_world w' Self 1 2 4
          [Byte.x05; Byte.x06; Byte.x07; Byte.x08;
           Byte.x01; Byte.x02; Byte.x03; Byte.x04].
Proof.
  apply (Load_path_webp sample_files "a.webp" sample_webp tiny_world 1 2 sample_rows).
  - split; [reflexivity|]. by eexists.
  - exists (file_of sample_webp). vm_compute. repeat split; congruence.
  - reflexivity.
  - reflexivity.
  - reflexivity.
  - reflexivity.
  - reflexivity.
  - lia.
  - lia.
  - unfold Int.INT_MAX. lia.
  - reflexivity.
  - repeat constructor.
Defined.

(** X9.  [Load(path)] on a readable file whose first 16 bytes are recognised
    as JPEG (and not as WebP) and that TurboJPEG decodes: the file is read in
    full into a temporary buffer, which is given back, and the asset holds
    the W x H RGB pixels; no error, the old buffer released, the rest of the
    memory as it was. *)
Theorem Load_path_jpeg env path bytes w transformed W H pixels :
  owns_buffer w →
  readable env path bytes →
  IsWebPFileData env (take 16 bytes) = false →
  IsJpegFileData env (take 16 bytes) = true →
  tjInitTransform env = None →
  tjTransform env bytes = inr transformed →
  tjInitDecompress env = None →
  tjDecompressHeader3 env bytes = inr (W, H) →
  tjDecompress2 env transformed W H = inr pixels →
  0 ≤ W → 0 ≤ H → W * H * 3 ≤ Int.INT_MAX →
  Z.of_nat (length pixels) = W * H * 3 →
  ∃ w', Load_path env path w = Done tt w' ∧ reloaded w w' Self W H 3 pixels.
Proof.
  intros Hown Hfile Hwebp Hjpeg Hit Htr Hid Hhead Hdec HW HH Hsize Hlen.
  rewrite (Load_path_detected env path bytes w Hfile), Hwebp, Hjpeg.
  edestruct (load_whole_file_decoded env "jpeg" path (LoadJpeg env) bytes)
    as (w' & Hrun & Hre); [|exact Hfile| |].
  3: { exists w'. split; [exact Hrun|]. by eapply reloaded_from; [| |exact Hre]. }
  - done.
  - intros w1 Hown1. by eapply LoadJpeg_decoded.
Qed.

Lemma Load_path_jpeg_witness :
  ∃ w', Load_path sample_files "b.jpg" tiny_world = Done tt w' ∧
        reloaded tiny_world w' Self 1 1 3 sample_pixel.
Proof.
  apply (Load_path_jpeg sample_files "b.jpg" sample_jpeg tiny_world sample_jpeg
           1 1 sample_pixel).
  - split; [reflexivity|]. by eexists.
  - exists (file_of sample_jpeg). vm_compute. repeat split; congruence.
  - reflexivity.
  - reflexivity.
  - reflexivity.
  - reflexivity.
  - reflexivity.
  - reflexivity.
  - reflexivity.
  - lia.
  - lia.
  - unfold Int.INT_MAX. lia.
  - reflexivity.
Defined.

(** X10.  [Load(path)] on a readable file whose first 16 bytes are recognised
    neither as WebP nor as JPEG, and that the generic decoder loads from its
    path: the asset holds the decoded pixels in the block the decoder
    allocated (origin [Stb]); no error, the old buffer released, the rest of
    the memory as it was. *)
Theorem Load_path_generic env path bytes w img :
  owns_buffer w →
  readable env path bytes →
  IsWebPFileData env (take 16 bytes) = false →
  IsJpegFileData env (take 16 bytes) = false →
  stbi_load env path = inr img →
  ∃ w', Load_path env path w = Done tt w' ∧
        reloaded w w' Stb (stb_width img) (stb_height img) (stb_channels img)
          (stb_pixels img).
Proof.
  intros Hown Hfile Hwebp Hjpeg Himg.
  rewrite (Load_path_detected env path bytes w Hfile), Hwebp, Hjpeg.
  edestruct (LoadFromFile_decoded env path) as (w' & Hrun & Hre); [|exact Himg|].
  2: { exists w'. split; [exact Hrun|]. by eapply reloaded_from; [| |exact Hre]. }
  done.
Qed.

Lemma Load_path_generic_witness :
  ∃ w', Load_path sample_files "c.png" tiny_world = Done tt w' ∧
        reloaded tiny_world w' Stb 1 1 1 [Byte.x80].
Proof.
  apply (Load_path_generic sample_files "c.png" sample_png tiny_world
           {| stb_width := 1; stb_height := 1; stb_channels := 1;
              stb_pixels := [Byte.x80] |}).
  - split; [reflexivity|]. by eexists.
  - exists (file_of sample_png). vm_compute. repeat split; congruence.
  - reflexivity.
  - reflexivity.
  - reflexivity.
Defined.

(** ** Copying the pixels out *)

Lemma load_cells_inv (h : heap) p n vs :
  load_cells h p n = Some vs →
  ∃ b o cs, p = Ptr b o ∧ h !! b = Some cs ∧ 0 ≤ o ∧ 0 ≤ n ∧
            o + n ≤ Z.of_nat (length cs) ∧
            vs = take (Z.to_nat n) (drop (Z.to_nat o) cs).
Proof.
  unfold load_cells. destruct p as [|b o]; [done|].
  destruct (h !! b) as [cs|] eqn:Hb; [|done].
  destruct (_ && _) eqn:E; [|done]. intros [= <-].
  apply andb_prop in E as [E E3]. apply andb_prop in E as [E1 E2].
  apply Z.leb_le in E1, E2, E3. by exists b, o, cs.
Qed.

Lemma load_after_store (h : heap) b o cs vs :
  h !! b = Some cs → 0 ≤ o → o + Z.of_nat (length vs) ≤ Z.of_nat (length cs) →
  load_cells (<[b := take (Z.to_nat o) cs ++ vs
                       ++ drop (Z.to_nat o + length vs) cs]> h)
             (Ptr b o) (Z.of_nat (length vs))
  = Some vs.
Proof.
  intros Hb Ho Hlen. unfold load_cells. rewrite lookup_insert_eq.
  rewrite !length_app, length_take, length_drop.
  assert (E : (0 <=? o) && (0 <=? Z.of_nat (length vs))
              && (o + Z.of_nat (length vs)
                  <=? Z.of_nat (Z.to_nat o `min` length cs
                                + (length vs + (length cs - (Z.to_nat o + length vs)))))
              = true).
  { apply andb_true_intro. split; [apply andb_true_intro; split|];
      apply Z.leb_le; lia. }
  rewrite E. f_equal. rewrite Nat2Z.id.
  rewrite drop_app_length'; [|rewrite length_take; lia].
  by rewrite take_app_length.
Qed.

(** [CopyTo] on a loaded image into room that is not in the asset's buffer. *)
Lemma CopyTo_spec w b cells q old :
  image w b cells →
  0 < width_ (self w) * height_ (self w) * channelCount_ (self w) →
  load_cells (mem w) q (Z.of_nat (length cells)) = Some old →
  block_of q ≠ Some b →
  ∃ h', CopyTo q w
        = Done tt {| mem := h';
                     self := with_errorHandler
                               (ErrorHandler.Clear (errorHandler_ (self w))) (self w) |} ∧
        load_cells h' q (Z.of_nat (length cells)) = Some cells ∧
        h' !! b = Some cells ∧
        touches (block_of q) (mem w) h'.
Proof.
  intros [Hbuf Hblk HW HH HC Hsize Hlen] Hpos Hroom Hq.
  apply load_cells_inv in Hroom as (bq & oq & cs & -> & Hbq & Hoq & _ & Hfit & _).
  simpl in Hq. assert (Hne : bq ≠ b) by congruence.
  unfold CopyTo, mbind, M_bind, errorHandler_Clear, set_this, this.
  cbn [mem self buffer_ with_errorHandler width_ height_ channelCount_].
  rewrite Hbuf. cbn [is_null].
  rewrite int32_id by (unfold is_int32, Int.INT_MIN, Int.INT_MAX in *; lia).
  rewrite size_t_id by (unfold Int.INT_MAX in *; lia).
  rewrite <- Hlen.
  unfold on_mem, memcpy. cbn [mem self].
  assert ((Z.of_nat (length cells) =? 0) = false) as -> by (apply Z.eqb_neq; lia).
  rewrite (load_cells_Some _ _ _ _ _ Hblk) by lia.
  change (Z.to_nat 0) with 0%nat. rewrite drop_0, Nat2Z.id, firstn_all.
  rewrite (store_cells_Some _ _ _ _ _ Hbq) by lia.
  eexists. split; [done|]. split_and!.
  - by apply load_after_store.
  - by rewrite lookup_insert_ne.
  - simpl. apply touches_insert. eauto.
Qed.

(** X11.  [CopyTo] on a loaded image, given room for width x height x
    channelCount bytes outside of the asset's buffer: exactly these bytes of
    the buffer are copied to the destination; the asset keeps its buffer and
    its metadata, the error is empty, and no block but the destination's is
    changed. *)
Theorem CopyTo_copies_pixels w b cells q old :
  image w b cells →
  0 < width_ (self w) * height_ (self w) * channelCount_ (self w) →
  load_cells (mem w) q (Z.of_nat (length cells)) = Some old →
  block_of q ≠ Some b →
  ∃ w', CopyTo q w = Done tt w' ∧
        error_of w' = EmptyString ∧
        same_image (self w) (self w') ∧
        pixels_of w' = cells ∧
        load_cells (mem w') q (Z.of_nat (length cells)) = Some cells ∧
        touches (block_of q) (mem w) (mem w').
Proof.
  intros Himg Hpos Hroom Hq.
  destruct (CopyTo_spec w b cells q old Himg Hpos Hroom Hq)
    as (h' & Hrun & Hcopy & Hown & Ht).
  eexists. split; [exact Hrun|]. split; [done|]. split; [done|].
  split; [|done]. destruct Himg as [Hbuf _ _ _ _ _ _].
  unfold pixels_of. cbn [mem self buffer_ with_errorHandler].
  by rewrite Hbuf, Hown.
Qed.

Lemma CopyTo_copies_pixels_witness :
  ∃ w', CopyTo (Ptr 2%positive 0) room_world = Done tt w' ∧
        error_of w' = EmptyString ∧
        same_image (self room_world) (self w') ∧
        pixels_of w' = tiny_cells ∧
        load_cells (mem w') (Ptr 2%positive 0) (Z.of_nat (length tiny_cells))
        = Some tiny_cells ∧
        touches (block_of (Ptr 2%positive 0)) (mem room_world) (mem w').
Proof.
  apply (CopyTo_copies_pixels room_world 1%positive tiny_cells (Ptr 2%positive 0)
           (replicate 12 None)).
  - constructor; simpl; try reflexivity; unfold Int.INT_MAX; lia.
  - simpl. lia.
  - reflexivity.
  - discriminate.
Defined.

(** X12.  Round trip through the asset: after the raw-pixel load of [size] =
    width x height x channelCount bytes, the three queries return the width,
    height and channel count given to the load, and [CopyTo] delivers the
    very bytes that were loaded. *)
Theorem Load_then_CopyTo w p q size width height channelCount vs old :
  owns_buffer w →
  0 < width ≤ Int.INT_MAX → 0 < height ≤ Int.INT_MAX →
  0 < channelCount ≤ Int.INT_MAX →
  size = width * height * channelCount → size ≤ Int.INT_MAX →
  load_cells (release w) p size = Some vs →
  load_cells (release w) q size = Some old →
  ∃ w1, Load_pixels p size width height channelCount w = Done tt w1 ∧
        (∃ w2, GetWidth w1 = Done width w2) ∧
        (∃ w2, GetHeight w1 = Done height w2) ∧
        (∃ w2, GetChannelCount w1 = Done channelCount w2) ∧
        ∃ w2, CopyTo q w1 = Done tt w2 ∧
              error_of w2 = EmptyString ∧
              load_cells (mem w2) q size = Some vs.
Proof.
  intros Hown HW HH HC Hsize Hmax Hp Hq.
  assert (Hpos : 0 < size).
  { subst size. apply Z.mul_pos_pos; [apply Z.mul_pos_pos|]; lia. }
  destruct (Load_pixels_spec w p size width height channelCount vs Hown)
    as (w1 & Hrun & _ & Hw & Hh & Hc & _ & _ & _ & Hnew).
  { unfold Int.PTRDIFF_MAX, Int.INT_MAX in *. lia. }
  { unfold caller_bytes. by assert ((size =? 0) = false) as -> by (apply Z.eqb_neq; lia). }
  destruct (Hnew Hpos) as [Hbuf Hmem].
  pose proof (load_cells_length _ _ _ _ Hp) as Hlen.
  exists w1. split; [done|].
  assert (Hnull : is_null (buffer (buffer_ (self w1))) = false) by (by rewrite Hbuf).
  split.
  { eexists. unfold GetWidth, mbind, M_bind, errorHandler_Clear, set_this, this.
    cbn [mem self buffer_ width_ with_errorHandler]. by rewrite Hnull, Hw. }
  split.
  { eexists. unfold GetHeight, mbind, M_bind, errorHandler_Clear, set_this, this.
    cbn [mem self buffer_ height_ with_errorHandler]. by rewrite Hnull, Hh. }
  split.
  { eexists. unfold GetChannelCount, mbind, M_bind, errorHandler_Clear, set_this, this.
    cbn [mem self buffer_ channelCount_ with_errorHandler]. by rewrite Hnull, Hc. }
  set (b' := fresh (dom (release w))) in *.
  assert (Himg : image w1 b' vs).
  { split; rewrite ?Hw, ?Hh, ?Hc; try lia; try done.
    - by rewrite Hmem, lookup_insert_eq. }
  assert (Hq1 : load_cells (mem w1) q (Z.of_nat (length vs)) = Some old).
  { rewrite Hmem, Hlen. apply load_cells_insert_ne; [apply fresh_not_live|done]. }
  assert (Hqb : block_of q ≠ Some b').
  { apply load_cells_inv in Hq as (bq & oq & cs & -> & Hbq & _). simpl.
    intros [= ->]. pose proof (fresh_not_live (release w)) as Hf.
    fold b' in Hf. congruence. }
  destruct (CopyTo_spec w1 b' vs q old Himg) as (h' & Hcopy & Hload & _);
    [rewrite Hw, Hh, Hc; lia|done|done|].
  eexists. split; [exact Hcopy|]. split; [done|]. by rewrite <- Hlen.
Qed.

Lemma Load_then_CopyTo_witness :
  ∃ w1, Load_pixels (Ptr 2%positive 0) 3 1 1 3 caller_world = Done tt w1 ∧
        (∃ w2, GetWidth w1 = Done 1 w2) ∧
        (∃ w2, GetHeight w1 = Done 1 w2) ∧
        (∃ w2, GetChannelCount w1 = Done 3 w2) ∧
        ∃ w2, CopyTo (Ptr 2%positive 0) w1 = Done tt w2 ∧
              error_of w2 = EmptyString ∧
              load_cells (mem w2) (Ptr 2%positive 0) 3
              = Some (pixel Byte.x10 Byte.x20 Byte.x30).
Proof.
  apply (Load_then_CopyTo caller_world (Ptr 2%positive 0) (Ptr 2%positive 0) 3 1 1 3
           (pixel Byte.x10 Byte.x20 Byte.x30) (pixel Byte.x10 Byte.x20 Byte.x30)).
  - split; [reflexivity|]. by eexists.
  - unfold Int.INT_MAX. lia.
  - unfold Int.INT_MAX. lia.
  - unfold Int.INT_MAX. lia.
  - reflexivity.
  - unfold Int.INT_MAX. lia.
  - reflexivity.
  - reflexivity.
Defined.

(** X13.  The raw-pixel load does not compare [size] with width x height x
    channelCount: when fewer bytes are loaded than the dimensions announce,
    the load still returns with no error, and a later [CopyTo], which copies
    width x height x channelCount bytes, reads past the end of the buffer. *)
Theorem CopyTo_after_short_load w p q size width height channelCount vs :
  owns_buffer w →
  0 < size < width * height * channelCount →
  width * height * channelCount ≤ Int.INT_MAX →
  load_cells (release w) p size = Some vs →
  ∃ w1, Load_pixels p size width height channelCount w = Done tt w1 ∧
        error_of w1 = EmptyString ∧
        Z.of_nat (length (pixels_of w1)) = size ∧
        ∃ w2, CopyTo q w1 = Crash SegFault w2.
Proof.
  intros Hown Hsize Hmax Hp.
  destruct (Load_pixels_spec w p size width height channelCount vs Hown)
    as (w1 & Hrun & Herr & Hw & Hh & Hc & _ & Hpx & _ & Hnew).
  { unfold Int.PTRDIFF_MAX, Int.INT_MAX in *. lia. }
  { unfold caller_bytes. by assert ((size =? 0) = false) as -> by (apply Z.eqb_neq; lia). }
  destruct (Hnew ltac:(lia)) as [Hbuf Hmem].
  pose proof (load_cells_length _ _ _ _ Hp) as Hlen.
  exists w1. split; [done|]. split; [unfold error_of; by rewrite Herr|].
  split; [by rewrite Hpx|].
  unfold CopyTo, mbind, M_bind, errorHandler_Clear, set_this, this.
  cbn [mem self buffer_ with_errorHandler width_ height_ channelCount_].
  rewrite Hbuf, Hw, Hh, Hc. cbn [is_null].
  rewrite int32_id by (unfold is_int32, Int.INT_MIN, Int.INT_MAX in *; lia).
  rewrite size_t_id by (unfold Int.INT_MAX in *; lia).
  unfold on_mem, memcpy. cbn [mem self].
  assert ((width * height * channelCount =? 0) = false) as ->
    by (apply Z.eqb_neq; lia).
  assert (Hload : load_cells (mem w1) (Ptr (fresh (dom (release w))) 0)
                    (width * height * channelCount) = None).
  { unfold load_cells. rewrite Hmem, lookup_insert_eq.
    assert ((0 + width * height * channelCount <=? Z.of_nat (length vs)) = false) as ->
      by (apply Z.leb_gt; lia).
    by rewrite andb_false_r. }
  rewrite Hload. by eexists.
Qed.

Lemma CopyTo_after_short_load_witness :
  ∃ w1, Load_pixels (Ptr 2%positive 0) 3 2 2 3 caller_world = Done tt w1 ∧
        error_of w1 = EmptyString ∧
        Z.of_nat (length (pixels_of w1)) = 3 ∧
        ∃ w2, CopyTo (Ptr 2%positive 0) w1 = Crash SegFault w2.
Proof.
  apply (CopyTo_after_short_load caller_world (Ptr 2%positive 0) (Ptr 2%positive 0)
           3 2 2 3 (pixel Byte.x10 Byte.x20 Byte.x30)).
  - split; [reflexivity|]. by eexists.
  - lia.
  - unfold Int.INT_MAX. lia.
  - reflexivity.
Defined.

(** ** Resize at the edges *)

(** X14.  [Resize] to a width or a height of zero, on a loaded image of any
    channel count: the call returns with no error, but no buffer is
    allocated; the old buffer is released and the asset is left unloaded with
    the width and height asked for, so that the next query fails with "image
    asset is not loaded". *)
Theorem Resize_to_nothing w b cells dW dH :
  image w b cells →
  0 ≤ dW ≤ Int.INT_MAX → 0 ≤ dH ≤ Int.INT_MAX →
  dW = 0 ∨ dH = 0 →
  ∃ w', Resize dW dH w = Done tt w' ∧
        error_of w' = EmptyString ∧
        unloaded (self w') ∧
        width_ (self w') = dW ∧ height_ (self w') = dH ∧
        channelCount_ (self w') = channelCount_ (self w) ∧
        mem w' = delete b (mem w) ∧
        ∃ w'', GetWidth w' = Done (-1) w'' ∧
               error_of w'' = ERROR_STR_IMAGE_NOT_LOADED.
Proof.
  intros [Hbuf Hblk HW HH HC Hsize Hlen] HdW HdH Hz.
  destruct w as [h [[p src] W H C e]]. simpl in *. subst p.
  unfold Resize, mbind, M_bind, errorHandler_Clear, set_this, this. simpl.
  replace (dW * dH * C) with 0 by (destruct Hz as [-> | ->]; lia).
  change (Int.size_t (Int.int32 0)) with 0.
  unfold on_mem at 1. simpl mem. rewrite AllocateBuffer_zero. simpl.
  rewrite !uint32_id by (unfold Int.INT_MAX in *; lia).
  assert (Hscale : ∀ h1 : World,
     (if C =? 3
      then on_mem (ScaleImage 3 (Ptr b 0) Null W H dW dH)
      else if C =? 4
           then on_mem (ScaleImage 4 (Ptr b 0) Null W H dW dH)
           else mret ()) h1
     = Done tt h1).
  { intros [h1 a1]. destruct (C =? 3); [|destruct (C =? 4)]; try done.
    all: erewrite on_mem_Done; [done|]; by apply ScaleImage_empty. }
  rewrite Hscale. simpl.
  erewrite ReleaseBuffer__loaded by done. simpl.
  eexists. split; [done|]. unfold error_of, unloaded; simpl.
  repeat split; try done.
  eexists. split; [done|]. done.
Qed.

Lemma Resize_to_nothing_witness :
  ∃ w', Resize 0 5 tiny_world = Done tt w' ∧
        error_of w' = EmptyString ∧
        unloaded (self w') ∧
        width_ (self w') = 0 ∧ height_ (self w') = 5 ∧
        channelCount_ (self w') = channelCount_ (self tiny_world) ∧
        mem w' = delete 1%positive (mem tiny_world) ∧
        ∃ w'', GetWidth w' = Done (-1) w'' ∧
               error_of w'' = ERROR_STR_IMAGE_NOT_LOADED.
Proof.
  apply (Resize_to_nothing tiny_world 1%positive tiny_cells 0 5).
  - constructor; simpl; try reflexivity; unfold Int.INT_MAX; lia.
  - unfold Int.INT_MAX. lia.
  - unfold Int.INT_MAX. lia.
  - left. reflexivity.
Defined.

(** X15.  [Resize] on a loaded image whose channel count is neither 3 nor 4
    (a grey or grey-alpha image from the generic decoder): the call returns
    with no error and the new width and height, but no pixel is copied: the
    new buffer has the right size and holds indeterminate bytes only. *)
Theorem Resize_other_channels w b cells dW dH :
  image w b cells →
  channelCount_ (self w) ≠ 3 → channelCount_ (self w) ≠ 4 →
  0 ≤ dW → 0 ≤ dH →
  0 < dW * dH * channelCount_ (self w) ≤ Int.INT_MAX →
  ∃ w', Resize dW dH w = Done tt w' ∧
        error_of w' = EmptyString ∧
        loaded (self w') ∧
        width_ (self w') = dW ∧ height_ (self w') = dH ∧
        channelCount_ (self w') = channelCount_ (self w) ∧
        mem w' !! b = None ∧
        pixels_of w'
        = replicate (Z.to_nat (dW * dH * channelCount_ (self w))) None.
Proof.
  intros [Hbuf Hblk HW HH HC Hsize Hlen] HC3 HC4 HdW HdH Hd.
  destruct w as [h [[p src] W H C e]]. simpl in *. subst p.
  unfold Resize, mbind, M_bind, errorHandler_Clear, set_this, this. simpl.
  rewrite int32_id by (unfold is_int32, Int.INT_MIN, Int.INT_MAX in *; lia).
  rewrite size_t_id by (unfold Int.INT_MAX in *; lia).
  unfold on_mem at 1. simpl mem.
  rewrite AllocateBuffer_pos by (unfold Int.INT_MAX, Int.PTRDIFF_MAX in *; lia).
  simpl.
  assert ((C =? 3) = false) as -> by (by apply Z.eqb_neq).
  assert ((C =? 4) = false) as -> by (by apply Z.eqb_neq).
  simpl.
  set (b' := fresh (dom h)).
  assert (Hne : b ≠ b') by (symmetry; apply fresh_ne_live; eauto).
  erewrite ReleaseBuffer__loaded; last first.
  { simpl. rewrite lookup_insert_ne by done. exact Hblk. }
  { done. }
  simpl. eexists. split; [done|].
  unfold error_of, pixels_of, loaded; simpl.
  rewrite lookup_delete_eq, lookup_delete_ne, lookup_insert_eq by done.
  change (Z.to_nat 0) with 0%nat. rewrite drop_0. done.
Qed.

Lemma Resize_other_channels_witness :
  ∃ w', Resize 1 2 (image_world [Some Byte.x80] 1 1 1) = Done tt w' ∧
        error_of w' = EmptyString ∧
        loaded (self w') ∧
        width_ (self w') = 1 ∧ height_ (self w') = 2 ∧
        channelCount_ (self w') = channelCount_ (self (image_world [Some Byte.x80] 1 1 1)) ∧
        mem w' !! 1%positive = None ∧
        pixels_of w'
        = replicate (Z.to_nat (1 * 2 * channelCount_
                                 (self (image_world [Some Byte.x80] 1 1 1)))) None.
Proof.
  apply (Resize_other_channels (image_world [Some Byte.x80] 1 1 1) 1%positive
           [Some Byte.x80] 1 2).
  - constructor; simpl; try reflexivity; unfold Int.INT_MAX; lia.
  - discriminate.
  - discriminate.
  - lia.
  - lia.
  - simpl. unfold Int.INT_MAX. lia.
Defined.

(** X16.  [Resize] does not validate its arguments: when width x height x
    channelCount is negative (one of width and height is negative), the size
    handed to the allocation converts to a huge unsigned value and the
    allocation throws; the asset keeps its buffer and metadata, with the
    error cleared. *)
Theorem Resize_negative_throws w dW dH :
  loaded (self w) →
  Int.INT_MIN ≤ dW * dH * channelCount_ (self w) < 0 →
  Resize dW dH w
  = Crash BadAlloc
      {| mem := mem w;
         self := with_errorHandler (ErrorHandler.Clear (errorHandler_ (self w)))
                   (self w) |}.
Proof.
  intros Hloaded Hneg. unfold loaded in Hloaded.
  unfold Resize, mbind, M_bind, errorHandler_Clear, set_this, this.
  cbn [mem self buffer_ channelCount_ with_errorHandler]. rewrite Hloaded.
  rewrite int32_id by (unfold is_int32, Int.INT_MIN, Int.INT_MAX in *; lia).
  set (n := dW * dH * channelCount_ (self w)) in *.
  assert (Hs : Int.size_t n = n + 2 ^ 64).
  { unfold Int.size_t. symmetry. apply (Z.mod_unique_pos _ _ (-1)); 
      unfold Int.INT_MIN in *; lia. }
  unfold on_mem, AllocateBuffer, new_array, mbind, M_bind. cbn [mem self].
  rewrite Hs.
  assert ((n + 2 ^ 64 =? 0) = false) as ->
    by (apply Z.eqb_neq; unfold Int.INT_MIN in *; lia).
  assert ((Int.PTRDIFF_MAX <? n + 2 ^ 64) = true) as ->
    by (apply Z.ltb_lt; unfold Int.PTRDIFF_MAX, Int.INT_MIN in *; lia).
  done.
Qed.

Lemma Resize_negative_throws_witness :
  Resize (-1) 2 tiny_world
  = Crash BadAlloc
      {| mem := mem tiny_world;
         self := with_errorHandler
                   (ErrorHandler.Clear (errorHandler_ (self tiny_world)))
                   (self tiny_world) |}.
Proof.
  apply (Resize_negative_throws tiny_world (-1) 2).
  - reflexivity.
  - simpl. unfold Int.INT_MIN. lia.
Defined.

(** ** Clip *)

(** Two images of the same dimensions with the same bytes in every pixel are
    the same list of bytes. *)
Lemma pixels_ext (cells cells' : list mbyte) W H C :
  0 ≤ W → 0 ≤ H → 0 ≤ C →
  Z.of_nat (length cells) = W * H * C →
  Z.of_nat (length cells') = W * H * C →
  (∀ r c i, 0 ≤ r < H → 0 ≤ c < W → 0 ≤ i < C →
     byte_at cells' W C r c i = byte_at cells W C r c i) →
  cells' = cells.
Proof.
  intros HW HH HC Hlen Hlen' Hpix. apply list_eq. intros n.
  destruct (decide (Z.of_nat n < W * H * C)) as [Hn|Hn].
  - assert (0 < W ∧ 0 < C) as [HW0 HC0] by nia.
    destruct (byte_offset_split W H C (Z.of_nat n))
      as (ix & iy & i & Hix & Hiy & Hi & Hk); [lia..|].
    specialize (Hpix iy ix i Hiy Hix Hi). unfold byte_at in Hpix.
    by rewrite <- Hk, Nat2Z.id in Hpix.
  - rewrite !lookup_ge_None_2; [done|lia..].
Qed.

(** The image a clip in range leaves. *)
Lemma Clip_in_range_image w b cells x y cw ch :
  image w b cells →
  0 ≤ cw → 0 ≤ ch →
  clip_in_range (width_ (self w)) (height_ (self w)) x y cw ch →
  0 < cw * ch * channelCount_ (self w) →
  ∃ w' b', Clip x y cw ch w = Done tt w' ∧
           image w' b' (pixels_of w') ∧
           error_of w' = EmptyString ∧
           width_ (self w') = cw ∧ height_ (self w') = ch ∧
           channelCount_ (self w') = channelCount_ (self w) ∧
           ∀ r c i, 0 ≤ r < ch → 0 ≤ c < cw → 0 ≤ i < channelCount_ (self w) →
             byte_at (pixels_of w') cw (channelCount_ (self w)) r c i
             = byte_at cells (width_ (self w)) (channelCount_ (self w))
                 (height_ (self w) - y - ch + r) (x + c) i.
Proof.
  intros Himg Hcw Hch Hrange Hpos.
  destruct (Clip_in_range w b cells x y cw ch Himg Hcw Hch Hrange)
    as (w' & Hrun & Herr & Hw & Hh & Hc & _ & Hun & Hlen & Hpix).
  assert (Hown : owns_buffer w).
  { destruct Himg as [Hbuf Hblk _ _ _ _ _]. unfold owns_buffer. rewrite Hbuf. eauto. }
  pose proof (tidy_Clip x y cw ch w Hown) as Ht. rewrite Hrun in Ht.
  destruct Ht as (Hown' & _ & _).
  assert (Hloaded : ¬ unloaded (self w')) by (intros Hu; apply Hun in Hu; lia).
  unfold unloaded, owns_buffer in Hloaded, Hown'.
  destruct (buffer (buffer_ (self w'))) as [|b' o] eqn:Hbuf'; [done|].
  destruct Hown' as [-> [cs Hcs]].
  assert (Hpx : pixels_of w' = cs).
  { unfold pixels_of. rewrite Hbuf', Hcs. apply drop_0. }
  exists w', b'. split; [done|].
  destruct Himg as [_ _ HW HH HC Hsize _]. destruct Hrange as (? & ? & ? & ?).
  assert (0 ≤ cw * ch) by (apply Z.mul_nonneg_nonneg; lia).
  assert (cw * ch ≤ width_ (self w) * height_ (self w))
    by (apply Z.mul_le_mono_nonneg; lia).
  assert (cw * ch * channelCount_ (self w)
          ≤ width_ (self w) * height_ (self w) * channelCount_ (self w))
    by (apply Z.mul_le_mono_nonneg_r; lia).
  split; [|done].
  split; rewrite ?Hw, ?Hh, ?Hc; try done; try lia.
  by rewrite Hpx.
Qed.

(** X17.  [Clip] in range with a width and a height that are not negative:
    the asset gets a new buffer with exactly the rows [H - y - h, H - y) and
    the columns [x, x + w) of the old one (y counts from the bottom row); its
    width and height become w and h, the channel count stays, the old buffer
    is released and no error is set. *)
Theorem Clip_copies_window w b cells x y cw ch :
  image w b cells →
  0 ≤ cw → 0 ≤ ch →
  clip_in_range (width_ (self w)) (height_ (self w)) x y cw ch →
  ∃ w', Clip x y cw ch w = Done tt w' ∧
        error_of w' = EmptyString ∧
        width_ (self w') = cw ∧ height_ (self w') = ch ∧
        channelCount_ (self w') = channelCount_ (self w) ∧
        mem w' !! b = None ∧
        Z.of_nat (length (pixels_of w')) = cw * ch * channelCount_ (self w) ∧
        ∀ r c i, 0 ≤ r < ch → 0 ≤ c < cw → 0 ≤ i < channelCount_ (self w) →
          byte_at (pixels_of w') cw (channelCount_ (self w)) r c i
          = byte_at cells (width_ (self w)) (channelCount_ (self w))
              (height_ (self w) - y - ch + r) (x + c) i.
Proof.
  intros Himg Hcw Hch Hrange.
  destruct (Clip_in_range w b cells x y cw ch Himg Hcw Hch Hrange)
    as (w' & Hrun & Herr & Hw & Hh & Hc & Hfree & _ & Hlen & Hpix).
  exists w'. by split_and!.
Qed.

Lemma Clip_copies_window_witness :
  ∃ w', Clip 1 0 1 2 tiny_world = Done tt w' ∧
        error_of w' = EmptyString ∧
        width_ (self w') = 1 ∧ height_ (self w') = 2 ∧
        channelCount_ (self w') = channelCount_ (self tiny_world) ∧
        mem w' !! 1%positive = None ∧
        Z.of_nat (length (pixels_of w')) = 1 * 2 * channelCount_ (self tiny_world) ∧
        ∀ r c i, 0 ≤ r < 2 → 0 ≤ c < 1 → 0 ≤ i < channelCount_ (self tiny_world) →
          byte_at (pixels_of w') 1 (channelCount_ (self tiny_world)) r c i
          = byte_at tiny_cells (width_ (self tiny_world))
              (channelCount_ (self tiny_world))
              (height_ (self tiny_world) - 0 - 2 + r) (1 + c) i.
Proof.
  apply (Clip_copies_window tiny_world 1%positive tiny_cells 1 0 1 2).
  - constructor; simpl; try reflexivity; unfold Int.INT_MAX; lia.
  - lia.
  - lia.
  - unfold clip_in_range. simpl. lia.
Defined.

(** X18.  [Clip] out of range, on a loaded asset: the call returns with the
    error "range exceeds image size"; buffer, width, height, channel count
    and memory are as before. *)
Theorem Clip_rejects_out_of_range w x y cw ch :
  loaded (self w) →
  is_int32 (width_ (self w)) → is_int32 (height_ (self w)) →
  is_int32 x → is_int32 y → is_int32 cw → is_int32 ch →
  ¬ clip_in_range (width_ (self w)) (height_ (self w)) x y cw ch →
  ∃ w', Clip x y cw ch w = Done tt w' ∧
        error_of w' = ERROR_STR_IMAGE_SIZE_OVERFLOW ∧
        same_image (self w) (self w') ∧
        mem w' = mem w.
Proof.
  intros Hl HW HH Hx Hy Hcw Hch Hout.
  rewrite (Clip_out_of_range w x y cw ch) by done.
  eexists. split; [done|]. by split_and!.
Qed.

Lemma Clip_rejects_out_of_range_witness :
  ∃ w', Clip 1 1 2 1 tiny_world = Done tt w' ∧
        error_of w' = ERROR_STR_IMAGE_SIZE_OVERFLOW ∧
        same_image (self tiny_world) (self w') ∧
        mem w' = mem tiny_world.
Proof.
  apply (Clip_rejects_out_of_range tiny_world 1 1 2 1).
  - reflexivity.
  - simpl. unfold is_int32, Int.INT_MIN, Int.INT_MAX. lia.
  - simpl. unfold is_int32, Int.INT_MIN, Int.INT_MAX. lia.
  - unfold is_int32, Int.INT_MIN, Int.INT_MAX. lia.
  - unfold is_int32, Int.INT_MIN, Int.INT_MAX. lia.
  - unfold is_int32, Int.INT_MIN, Int.INT_MAX. lia.
  - unfold is_int32, Int.INT_MIN, Int.INT_MAX. lia.
  - unfold clip_in_range. simpl. lia.
Defined.

(** X19.  Clipping to the whole image is the identity on the pixels:
    [Clip(0, 0, W, H)] on a loaded W x H image leaves the same width, height,
    channel count and bytes, in a new buffer. *)
Theorem Clip_whole_image w b cells :
  image w b cells →
  ∃ w', Clip 0 0 (width_ (self w)) (height_ (self w)) w = Done tt w' ∧
        error_of w' = EmptyString ∧
        width_ (self w') = width_ (self w) ∧
        height_ (self w') = height_ (self w) ∧
        channelCount_ (self w') = channelCount_ (self w) ∧
        mem w' !! b = None ∧
        pixels_of w' = cells.
Proof.
  intros Himg.
  destruct (Clip_in_range w b cells 0 0 (width_ (self w)) (height_ (self w)) Himg)
    as (w' & Hrun & Herr & Hw & Hh & Hc & Hfree & _ & Hlen & Hpix).
  1-3: destruct Himg as [_ _ HW HH _ _ _]; unfold clip_in_range; lia.
  exists w'. split_and!; try done.
  destruct Himg as [_ _ HW HH HC _ Hclen].
  apply (pixels_ext cells (pixels_of w') (width_ (self w)) (height_ (self w))
           (channelCount_ (self w))); try lia.
  intros r c i Hr Hcc Hi. rewrite Hpix by lia. f_equal; lia.
Qed.

Lemma Clip_whole_image_witness :
  ∃ w', Clip 0 0 (width_ (self tiny_world)) (height_ (self tiny_world)) tiny_world
        = Done tt w' ∧
        error_of w' = EmptyString ∧
        width_ (self w') = width_ (self tiny_world) ∧
        height_ (self w') = height_ (self tiny_world) ∧
        channelCount_ (self w') = channelCount_ (self tiny_world) ∧
        mem w' !! 1%positive = None ∧
        pixels_of w' = tiny_cells.
Proof.
  apply (Clip_whole_image tiny_world 1%positive tiny_cells).
  constructor; simpl; try reflexivity; unfold Int.INT_MAX; lia.
Defined.

(** X20.  Two clips in a row are one clip: clipping the window (x, y, w, h)
    and then, inside it, the window (x', y', w', h') gives the same width,
    height and bytes as clipping (x + x', y + y', w', h') at once. *)
Theorem Clip_twice w b cells x y cw ch x' y' cw' ch' :
  image w b cells →
  0 ≤ cw → 0 ≤ ch →
  clip_in_range (width_ (self w)) (height_ (self w)) x y cw ch →
  0 < cw * ch * channelCount_ (self w) →
  0 ≤ cw' → 0 ≤ ch' →
  clip_in_range cw ch x' y' cw' ch' →
  ∃ w1 w2 w12,
    Clip x y cw ch w = Done tt w1 ∧
    Clip x' y' cw' ch' w1 = Done tt w2 ∧
    Clip (x + x') (y + y') cw' ch' w = Done tt w12 ∧
    width_ (self w2) = width_ (self w12) ∧
    height_ (self w2) = height_ (self w12) ∧
    channelCount_ (self w2) = channelCount_ (self w12) ∧
    pixels_of w2 = pixels_of w12.
Proof.
  intros Himg Hcw Hch Hrange Hpos Hcw' Hch' Hrange'.
  destruct (Clip_in_range_image w b cells x y cw ch Himg Hcw Hch Hrange Hpos)
    as (w1 & b1 & Hrun1 & Himg1 & _ & Hw1 & Hh1 & Hc1 & Hpix1).
  destruct (Clip_in_range w1 b1 (pixels_of w1) x' y' cw' ch' Himg1 Hcw' Hch')
    as (w2 & Hrun2 & _ & Hw2 & Hh2 & Hc2 & _ & _ & Hlen2 & Hpix2).
  { by rewrite Hw1, Hh1. }
  destruct (Clip_in_range w b cells (x + x') (y + y') cw' ch' Himg Hcw' Hch')
    as (w12 & Hrun12 & _ & Hw12 & Hh12 & Hc12 & _ & _ & Hlen12 & Hpix12).
  { unfold clip_in_range in *. lia. }
  exists w1, w2, w12. split_and!; try done; try congruence.
  rewrite Hw1, Hh1, Hc1 in *.
  assert (0 ≤ channelCount_ (self w)) by (destruct Himg; lia).
  apply (pixels_ext (pixels_of w12) (pixels_of w2) cw' ch' (channelCount_ (self w)));
    try lia.
  intros r c i Hr Hc Hi.
  rewrite Hpix2, Hpix12 by lia.
  unfold clip_in_range in *.
  rewrite Hpix1 by lia. f_equal; lia.
Qed.

Lemma Clip_twice_witness :
  ∃ w1 w2 w12,
    Clip 0 0 2 1 tiny_world = Done tt w1 ∧
    Clip 1 0 1 1 w1 = Done tt w2 ∧
    Clip (0 + 1) (0 + 0) 1 1 tiny_world = Done tt w12 ∧
    width_ (self w2) = width_ (self w12) ∧
    height_ (self w2) = height_ (self w12) ∧
    channelCount_ (self w2) = channelCount_ (self w12) ∧
    pixels_of w2 = pixels_of w12.
Proof.
  apply (Clip_twice tiny_world 1%positive tiny_cells 0 0 2 1 1 0 1 1).
  - constructor; simpl; try reflexivity; unfold Int.INT_MAX; lia.
  - lia.
  - lia.
  - unfold clip_in_range. simpl. lia.
  - simpl. lia.
  - lia.
  - lia.
  - unfold clip_in_range. lia.
Defined.

(** ** Unload *)

(** X21.  [Unload] on a loaded asset that owns its buffer releases the
    buffer, leaves the asset unloaded with width, height and channel count 0
    and no error, and touches no other memory; a second [Unload] changes
    nothing and reports "image asset is not loaded". *)
Theorem Unload_once w :
  owns_buffer w → loaded (self w) →
  ∃ w', Unload w = Done tt w' ∧
        error_of w' = EmptyString ∧
        unloaded (self w') ∧
        width_ (self w') = 0 ∧ height_ (self w') = 0 ∧
        channelCount_ (self w') = 0 ∧
        mem w' = release w ∧
        ∃ w'', Unload w' = Done tt w'' ∧
               error_of w'' = ERROR_STR_IMAGE_NOT_LOADED ∧
               same_image (self w') (self w'') ∧
               mem w'' = mem w'.
Proof.
  intros Hown Hloaded. unfold loaded in Hloaded.
  unfold Unload at 1. unfold mbind, M_bind, errorHandler_Clear, set_this at 1, this.
  cbn [mem self buffer_ with_errorHandler]. rewrite Hloaded.
  assert (Hown' : owns_buffer {| mem := mem w;
            self := with_errorHandler (ErrorHandler.Clear (errorHandler_ (self w))) (self w) |})
    by done.
  rewrite (ReleaseBuffer__owned _ Hown'). unfold set_this. cbn [mem self].
  eexists. split; [done|]. split_and!; try done.
  eexists. split; [done|]. by split_and!.
Qed.

Lemma Unload_once_witness :
  ∃ w', Unload tiny_world = Done tt w' ∧
        error_of w' = EmptyString ∧
        unloaded (self w') ∧
        width_ (self w') = 0 ∧ height_ (self w') = 0 ∧
        channelCount_ (self w') = 0 ∧
        mem w' = release tiny_world ∧
        ∃ w'', Unload w' = Done tt w'' ∧
               error_of w'' = ERROR_STR_IMAGE_NOT_LOADED ∧
               same_image (self w') (self w'') ∧
               mem w'' = mem w'.
Proof.
  apply (Unload_once tiny_world).
  - split; [reflexivity|]. by eexists.
  - reflexivity.
Defined.

(** ** Files that cannot be loaded *)

(** X22.  [Load(path)] on a file that cannot be opened, or that is empty:
    the call returns with the error set, to the reason of the failed open or
    to the message for "failed to detect format (empty file)"; no decoder
    runs, and memory, buffer, width, height and channel count are as
    before. *)
Theorem Load_path_unreadable env path w :
  (∀ file, fopen env path = inr file →
           seek_end_ok file = true ∧ file_size file = 0) →
  ∃ w', Load_path env path w = Done tt w' ∧
        error_of w'
        = match fopen env path with
          | inl reason => reason
          | inr _ => errno_message env "failed to detect format (empty file)"
          end ∧
        calls_of w'
        = calls_of w ++ [ErrorHandler.Cleared; ErrorHandler.Raised (error_of w')] ∧
        same_image (self w) (self w') ∧
        mem w' = mem w.
Proof.
  intros Hfile. unfold Load_path, ERROR_HANDLER_ERRNO.
  unfold mbind, M_bind, errorHandler_Clear, errorHandler_SetError, set_this.
  destruct (fopen env path) as [reason|file].
  - eexists. split; [done|]. unfold calls_of, error_of. cbn.
    rewrite <- app_assoc. by split_and!.
  - destruct (Hfile file eq_refl) as [-> ->]. cbn [negb Z.eqb]. cbv zeta.
    eexists. split; [done|]. unfold calls_of, error_of. cbn.
    rewrite <- app_assoc. by split_and!.
Qed.

Lemma Load_path_unreadable_witness :
  ∃ w', Load_path sample_files "empty" tiny_world = Done tt w' ∧
        error_of w'
        = match fopen sample_files "empty" with
          | inl reason => reason
          | inr _ => errno_message sample_files "failed to detect format (empty file)"
          end ∧
        calls_of w'
        = calls_of tiny_world
            ++ [ErrorHandler.Cleared; ErrorHandler.Raised (error_of w')] ∧
        same_image (self tiny_world) (self w') ∧
        mem w' = mem tiny_world.
Proof.
  apply (Load_path_unreadable sample_files "empty" tiny_world).
  intros file. vm_compute. intros [= <-]. split; reflexivity.
Defined.

(** ** Single precision: how far the coordinate is from the exact one *)

(** The quotient of two normal floats that hold the integers [s] and [d] is
    at least [s / d] times [(2^23 - 1) / (2^23 + 1)]. *)
Lemma div_lower ms es md ed s d :
  digits2_pos ms = 24%positive → digits2_pos md = 24%positive →
  -23 ≤ es ≤ 0 → -23 ≤ ed ≤ 0 →
  Z.pos ms = s * 2 ^ (- es) → Z.pos md = d * 2 ^ (- ed) →
  ∃ m e,
    Float32.div (S754_finite false ms es) (S754_finite false md ed)
    = S754_finite false m e ∧
    s * 2 ^ 64 * (2 ^ 23 - 1) ≤ Z.pos m * 2 ^ (e + 64) * d * (2 ^ 23 + 1).
Proof.
  intros Hds Hdd Hes Hed Hs Hd.
  pose proof (digits2_pos_bound ms) as Hbs. rewrite Hds in Hbs.
  pose proof (digits2_pos_bound md) as Hbd. rewrite Hdd in Hbd.
  change (2 ^ (24 - 1)) with 8388608 in *. change (2 ^ 24) with 16777216 in *.
  unfold Float32.div, SFdiv, SFdiv_core_binary.
  simpl Zdigits2. rewrite Hds, Hdd.
  replace (24 + es - (24 + ed)) with (es - ed) by lia.
  rewrite fexp_normal by lia.
  replace (Z.min (es - ed - 24) (es - ed)) with (es - ed - 24) by lia.
  replace (es - ed - (es - ed - 24)) with 24 by lia.
  rewrite Z.shiftl_mul_pow2 by lia.
  pose proof (Z_div_mod (Z.pos ms * 2 ^ 24) (Z.pos md) ltac:(lia)) as Hdm.
  destruct (Z.div_eucl (Z.pos ms * 2 ^ 24) (Z.pos md)) as [q r].
  destruct Hdm as [Hq Hr].
  change (2 ^ 24) with 16777216 in *.
  assert (Hq1 : 8388608 ≤ q < 33554432) by nia.
  destruct q as [|pq|pq]; try lia.
  set (e' := es - ed - 24) in *.
  assert (Hn : ∃ n, (n = 0 ∨ n = 1) ∧ Z.pos (digits2_pos pq) = 24 + n).
  { destruct (Z.lt_ge_cases (Z.pos pq) 16777216).
    - exists 0. split; [by left|]. apply digits2_pos_unique.
      change (2 ^ (24 + 0 - 1)) with 8388608. change (2 ^ (24 + 0)) with 16777216. lia.
    - exists 1. split; [by right|]. apply digits2_pos_unique.
      change (2 ^ (24 + 1 - 1)) with 16777216. change (2 ^ (24 + 1)) with 33554432. lia. }
  destruct Hn as (n & Hn & Hdq).
  destruct (binary_round_aux_bounds pq (new_location (Z.pos md) r) e' n)
    as (m & e & x & Hrun & Hdm & Hx & Hcase); [done|lia|lia|].
  exists m, e. split; [done|].
  assert (Hval : Z.pos m * 2 ^ (e + 64) = x * 2 ^ (e' + n + 64)).
  { destruct Hcase as [[-> ->]|[-> <-]]; [done|].
    replace (e' + n + 1 + 64) with (1 + (e' + n + 64)) by lia.
    rewrite pow2_add by lia. lia. }
  rewrite Hval.
  replace (e' + n + 64) with (n + (e' + 64)) by lia.
  rewrite pow2_add by lia.
  assert (Hpn : 2 ^ n = 1 ∨ 2 ^ n = 2) by (destruct Hn as [-> | ->]; [by left|by right]).
  assert (Hxn : Z.pos pq - 2 ^ n + 1 ≤ x * 2 ^ n).
  { pose proof (Z.mod_pos_bound (Z.pos pq) (2 ^ n) ltac:(lia)).
    pose proof (Z.div_mod (Z.pos pq) (2 ^ n) ltac:(lia)). nia. }
  assert (Hq23 : 2 ^ n * 2 ^ 23 ≤ Z.pos pq).
  { change (2 ^ 23) with 8388608.
    destruct Hn as [-> | ->]; simpl in *.
    - lia.
    - pose proof (digits2_pos_bound pq) as Hb. rewrite Hdq in Hb.
      change (2 ^ (24 + 1 - 1)) with 16777216 in Hb. lia. }
  assert (Hd0 : 0 < d) by nia.
  assert (Hs0 : 0 < s) by nia.
  (* q * md * (2^23 + 1) ≥ ms * 2^24 * 2^23 *)
  assert (Hqd : s * 2 ^ 64 * 8388608 ≤ Z.pos pq * d * 2 ^ (e' + 64) * (8388608 + 1)).
  { assert (Hqmd : Z.pos ms * 16777216 * 8388608
                   ≤ Z.pos pq * Z.pos md * (8388608 + 1)) by nia.
    rewrite Hs, Hd in Hqmd.
    assert (H40 : 0 < 2 ^ (40 + es)) by (apply pow2_pos; lia).
    assert (E1 : 2 ^ (- ed) * 2 ^ (40 + es) = 2 ^ (e' + 64)).
    { rewrite <- pow2_add by lia. f_equal. unfold e'. lia. }
    assert (E2 : 2 ^ (- es) * 16777216 * 2 ^ (40 + es) = 2 ^ 64).
    { change 16777216 with (2 ^ 24). rewrite <- !pow2_add by lia. f_equal. lia. }
    assert (Hmul : s * 2 ^ (- es) * 16777216 * 8388608 * 2 ^ (40 + es)
                   ≤ Z.pos pq * (d * 2 ^ (- ed)) * (8388608 + 1) * 2 ^ (40 + es)).
    { apply Z.mul_le_mono_nonneg_r; lia. }
    replace (Z.pos pq * (d * 2 ^ (- ed)) * (8388608 + 1) * 2 ^ (40 + es))
      with (Z.pos pq * d * (2 ^ (- ed) * 2 ^ (40 + es)) * (8388608 + 1)) in Hmul by lia.
    replace (s * 2 ^ (- es) * 16777216 * 8388608 * 2 ^ (40 + es))
      with (s * (2 ^ (- es) * 16777216 * 2 ^ (40 + es)) * 8388608) in Hmul by lia.
    by rewrite E1, E2 in Hmul. }
  assert (Hp64 : 0 < 2 ^ (e' + 64)) by (apply pow2_pos; unfold e'; lia).
  set (T := 2 ^ (e' + 64)) in *. set (N := 2 ^ n) in *.
  set (U := 2 ^ 64) in *.
  change (2 ^ 23) with 8388608 in *.
  assert (0 ≤ d * T) by nia.
  (* x N 2^23 ≥ q (2^23 - 1) *)
  assert (H2 : Z.pos pq * (8388608 - 1) ≤ x * N * 8388608) by lia.
  assert (H3 : Z.pos pq * (8388608 - 1) * (d * T * (8388608 + 1))
               ≤ x * N * 8388608 * (d * T * (8388608 + 1)))
    by (apply Z.mul_le_mono_nonneg_r; lia).
  assert (H4 : s * U * 8388608 * (8388608 - 1)
               ≤ Z.pos pq * d * T * (8388608 + 1) * (8388608 - 1))
    by (apply Z.mul_le_mono_nonneg_r; lia).
  assert (H5 : s * U * (8388608 - 1) * 8388608
               ≤ x * N * T * d * (8388608 + 1) * 8388608) by lia.
  apply Z.mul_le_mono_pos_r in H5; lia.
Qed.

(** The product of two normal floats is at least the exact product times
    [1 - 2^-23]. *)
Lemma mul_lower m1 e1 m2 e2 :
  digits2_pos m1 = 24%positive → digits2_pos m2 = 24%positive →
  -23 ≤ e1 ≤ 0 → -47 ≤ e2 ≤ 2 →
  ∃ m e,
    Float32.mul (S754_finite false m1 e1) (S754_finite false m2 e2)
    = S754_finite false m e ∧
    (Z.pos m1 * 2 ^ (e1 + 64)) * (Z.pos m2 * 2 ^ (e2 + 64)) * (2 ^ 23 - 1)
    ≤ Z.pos m * 2 ^ (e + 128) * 2 ^ 23.
Proof.
  intros Hd1 Hd2 He1 He2.
  pose proof (digits2_pos_bound m1) as Hb1. rewrite Hd1 in Hb1.
  pose proof (digits2_pos_bound m2) as Hb2. rewrite Hd2 in Hb2.
  change (2 ^ (24 - 1)) with 8388608 in *. change (2 ^ 24) with 16777216 in *.
  unfold Float32.mul, SFmul. simpl xorb.
  assert (HM : 70368744177664 ≤ Z.pos (m1 * m2) < 281474976710656).
  { rewrite Pos2Z.inj_mul. nia. }
  assert (Hn : ∃ n, (n = 23 ∨ n = 24) ∧ Z.pos (digits2_pos (m1 * m2)) = 24 + n).
  { destruct (Z.lt_ge_cases (Z.pos (m1 * m2)) 140737488355328).
    - exists 23. split; [by left|]. apply digits2_pos_unique.
      change (2 ^ (24 + 23 - 1)) with 70368744177664.
      change (2 ^ (24 + 23)) with 140737488355328. lia.
    - exists 24. split; [by right|]. apply digits2_pos_unique.
      change (2 ^ (24 + 24 - 1)) with 140737488355328.
      change (2 ^ (24 + 24)) with 281474976710656. lia. }
  destruct Hn as (n & Hn & Hdq).
  destruct (binary_round_aux_bounds (m1 * m2) loc_Exact (e1 + e2) n)
    as (m & e & x & Hrun & Hdm & Hx & Hcase); [done|lia|lia|].
  exists m, e. split; [done|].
  assert (Hval : Z.pos m * 2 ^ (e + 128) = x * 2 ^ (e1 + e2 + n + 128)).
  { destruct Hcase as [[-> ->]|[-> <-]]; [done|].
    replace (e1 + e2 + n + 1 + 128) with (1 + (e1 + e2 + n + 128)) by lia.
    rewrite pow2_add by lia. lia. }
  rewrite Hval.
  replace (e1 + e2 + n + 128) with (n + ((e1 + 64) + (e2 + 64))) by lia.
  rewrite (pow2_add n) by lia. rewrite (pow2_add (e1 + 64)) by lia.
  assert (Hp1 : 0 < 2 ^ (e1 + 64)) by (apply pow2_pos; lia).
  assert (Hp2 : 0 < 2 ^ (e2 + 64)) by (apply pow2_pos; lia).
  assert (HpN : 0 < 2 ^ n) by (apply pow2_pos; lia).
  assert (Hxn : Z.pos (m1 * m2) - 2 ^ n + 1 ≤ x * 2 ^ n).
  { pose proof (Z.mod_pos_bound (Z.pos (m1 * m2)) (2 ^ n) ltac:(lia)).
    pose proof (Z.div_mod (Z.pos (m1 * m2)) (2 ^ n) ltac:(lia)). nia. }
  assert (Hq23 : 2 ^ n * 2 ^ 23 ≤ Z.pos (m1 * m2)).
  { pose proof (digits2_pos_bound (m1 * m2)) as Hb. rewrite Hdq in Hb.
    replace (24 + n - 1) with (n + 23) in Hb by lia.
    rewrite pow2_add in Hb by lia. lia. }
  rewrite Pos2Z.inj_mul in *.
  set (T1 := 2 ^ (e1 + 64)) in *. set (T2 := 2 ^ (e2 + 64)) in *.
  set (N := 2 ^ n) in *. change (2 ^ 23) with 8388608 in *.
  set (P := Z.pos m1 * Z.pos m2) in *.
  assert (0 < T1 * T2) by nia.
  assert (H2 : P * (8388608 - 1) ≤ x * N * 8388608) by lia.
  assert (H3 : P * (8388608 - 1) * (T1 * T2) ≤ x * N * 8388608 * (T1 * T2))
    by (apply Z.mul_le_mono_nonneg_r; lia).
  unfold P in *. nia.
Qed.

(** [(int)] of a positive float in the range of [int] is the floor. *)
Lemma to_int_floor m e :
  -128 ≤ e → Z.pos m * 2 ^ (e + 128) < (Int.INT_MAX + 1) * 2 ^ 128 →
  Float32.to_int (S754_finite false m e) = (Z.pos m * 2 ^ (e + 128)) `div` 2 ^ 128.
Proof.
  intros He Hlt.
  pose proof (to_int_below m e (Int.INT_MAX + 1) He
                ltac:(unfold Int.INT_MAX; lia) Hlt) as Hr.
  unfold Float32.to_int in *. cbv zeta in *.
  set (t := if 0 <=? e then _ else _) in *.
  assert (Ht : t = (Z.pos m * 2 ^ (e + 128)) `div` 2 ^ 128).
  { unfold t. destruct (0 <=? e) eqn:E.
    - apply Z.leb_le in E. rewrite pow2_add by lia.
      rewrite Z.mul_assoc, Z.div_mul; [done|]. pose proof (pow2_pos 128). lia.
    - apply Z.leb_gt in E.
      assert (E2 : 2 ^ 128 = 2 ^ (- e) * 2 ^ (e + 128)).
      { rewrite <- pow2_add by lia. f_equal. lia. }
      rewrite E2. rewrite Z.div_mul_cancel_r; [done| |].
      + pose proof (pow2_pos (- e)). lia.
      + pose proof (pow2_pos (e + 128)). lia. }
  rewrite <- Ht.
  unfold Int.INT_MIN, Int.INT_MAX in *.
  destruct (_ <=? t) eqn:E1; destruct (t <=? _) eqn:E2; simpl in *;
    try apply Z.leb_le in E1; try apply Z.leb_le in E2;
    try apply Z.leb_gt in E1; try apply Z.leb_gt in E2; lia.
Qed.

(** The coordinate [ScaleImage] computes is at most one away from the exact
    one, for sizes of at most 2^21. *)
Lemma nearest_near_floor s d i :
  0 < s ≤ 2 ^ 21 → 0 < d ≤ 2 ^ 21 → 0 ≤ i < d →
  floor_coordinate s d i - 1 ≤ nearest s d i ≤ floor_coordinate s d i + 1.
Proof.
  intros Hs Hd Hi. unfold nearest, floor_coordinate.
  change (2 ^ 21) with 2097152 in *.
  destruct s as [|ps|ps]; try lia. destruct d as [|pd|pd]; try lia.
  destruct (of_Z_exact ps) as (ms & es & -> & Hds & Hes & Hms);
    [change (2 ^ 24) with 16777216; lia|].
  destruct (of_Z_exact pd) as (md & ed & -> & Hdd & Hed & Hmd);
    [change (2 ^ 24) with 16777216; lia|].
  destruct (div_bound ms es md ed (Z.pos ps) (Z.pos pd))
    as (mc & ec & Hdiv & Hdc & Hec & Hup); [done..|].
  destruct (div_lower ms es md ed (Z.pos ps) (Z.pos pd))
    as (mc' & ec' & Hdiv' & Hlo); [done..|].
  rewrite Hdiv in Hdiv'. injection Hdiv' as <- <-. rewrite Hdiv.
  destruct i as [|pi|pi]; try lia.
  { change (Float32.of_Z 0) with (S754_zero false).
    rewrite Z.mul_0_l, Z.div_0_l by lia. simpl. lia. }
  destruct (of_Z_exact pi) as (mi & ei & -> & Hdi & Hei & Hmi);
    [change (2 ^ 24) with 16777216; lia|].
  destruct (mul_bound mi ei mc ec) as (m & e & Hmul & He & Hpu); [done..|].
  destruct (mul_lower mi ei mc ec) as (m' & e' & Hmul' & Hpl); [done..|].
  rewrite Hmul in Hmul'. injection Hmul' as <- <-. rewrite Hmul.
  assert (Ei : Z.pos mi * 2 ^ (ei + 64) = Z.pos pi * 2 ^ 64).
  { rewrite Hmi, <- Z.mul_assoc, <- pow2_add by lia. do 2 f_equal. lia. }
  rewrite Ei in Hpu, Hpl.
  pose proof (pow2_pos (ec + 64) ltac:(lia)) as Hpc.
  pose proof (pow2_pos (e + 128) ltac:(lia)) as Hpe.
  change (2 ^ 23) with 8388608 in *.
  set (F := (Z.pos pi * Z.pos ps) `div` Z.pos pd).
  assert (HF : F * Z.pos pd ≤ Z.pos pi * Z.pos ps < (F + 1) * Z.pos pd).
  { pose proof (Z.div_mod (Z.pos pi * Z.pos ps) (Z.pos pd) ltac:(lia)).
    pose proof (Z.mod_pos_bound (Z.pos pi * Z.pos ps) (Z.pos pd) ltac:(lia)).
    fold F in H. lia. }
  assert (HF0 : 0 ≤ F) by (apply Z.div_pos; lia).
  assert (HFs : F < Z.pos ps).
  { apply Z.div_lt_upper_bound; [lia|]. nia. }
  assert (E128 : 2 ^ 128 = 2 ^ 64 * 2 ^ 64) by done.
  set (U := 2 ^ 64) in *. assert (0 < U) by (by apply pow2_pos).
  set (Sc := Z.pos mc * 2 ^ (ec + 64)) in *.
  set (P := Z.pos m * 2 ^ (e + 128)) in *.
  set (D := Z.pos pd) in *. set (I := Z.pos pi) in *. set (Sr := Z.pos ps) in *.
  assert (0 < Sc) by (unfold Sc; nia).
  assert (HUU : 0 < U * U) by nia.
  (* upper bound: P * D * 2^46 ≤ I * Sr * U^2 * (2^23 + 1)^2 *)
  assert (K1 : P * 8388608 * (D * 8388608)
               ≤ I * U * Sc * (8388608 + 1) * (D * 8388608))
    by (apply Z.mul_le_mono_nonneg_r; lia).
  assert (K2 : I * U * (8388608 + 1) * (Sc * D * 8388608)
               ≤ I * U * (8388608 + 1) * (Sr * U * (8388608 + 1)))
    by (apply Z.mul_le_mono_nonneg_l; nia).
  assert (K3 : P * D * 70368744177664 ≤ (I * Sr) * 70368760954881 * (U * U)) by lia.
  assert (K4 : (I * Sr) * 70368760954881 < (F + 2) * D * 70368744177664).
  { assert (A1 : (F + 1) * 70368760954881 ≤ (F + 2) * 70368744177664) by lia.
    assert (A2 : (F + 1) * 70368760954881 * D ≤ (F + 2) * 70368744177664 * D)
      by (apply Z.mul_le_mono_nonneg_r; lia).
    assert (A3 : (I * Sr) * 70368760954881 < (F + 1) * D * 70368760954881)
      by (apply Z.mul_lt_mono_pos_r; lia).
    lia. }
  assert (K5 : (I * Sr) * 70368760954881 * (U * U)
               < (F + 2) * D * 70368744177664 * (U * U))
    by (apply Z.mul_lt_mono_pos_r; lia).
  assert (K6 : P * (D * 70368744177664) < (F + 2) * (U * U) * (D * 70368744177664))
    by lia.
  apply Z.mul_lt_mono_pos_r in K6; [|lia].
  (* lower bound: I * Sr * U^2 * (2^23 - 1)^2 ≤ P * D * 2^23 * (2^23 + 1) *)
  assert (L1 : I * U * Sc * (8388608 - 1) * (D * (8388608 + 1))
               ≤ P * 8388608 * (D * (8388608 + 1)))
    by (apply Z.mul_le_mono_nonneg_r; lia).
  assert (L2 : I * U * (8388608 - 1) * (Sr * U * (8388608 - 1))
               ≤ I * U * (8388608 - 1) * (Sc * D * (8388608 + 1)))
    by (apply Z.mul_le_mono_nonneg_l; nia).
  assert (L3 : (I * Sr) * 70368727400449 * (U * U) ≤ P * D * 70368752566272) by lia.
  assert (L4 : (F - 1) * D * 70368752566272 ≤ (I * Sr) * 70368727400449).
  { assert (A1 : (F - 1) * 70368752566272 ≤ F * 70368727400449) by lia.
    assert (A2 : (F - 1) * 70368752566272 * D ≤ F * 70368727400449 * D)
      by (apply Z.mul_le_mono_nonneg_r; lia).
    assert (A3 : (F * D) * 70368727400449 ≤ (I * Sr) * 70368727400449)
      by (apply Z.mul_le_mono_nonneg_r; lia).
    lia. }
  assert (L5 : (F - 1) * D * 70368752566272 * (U * U)
               ≤ (I * Sr) * 70368727400449 * (U * U))
    by (apply Z.mul_le_mono_nonneg_r; lia).
  assert (L6 : (F - 1) * (U * U) * (D * 70368752566272) ≤ P * (D * 70368752566272))
    by lia.
  apply Z.mul_le_mono_pos_r in L6; [|lia].
  rewrite to_int_floor; [|lia|].
  - fold P. rewrite E128. split.
    + apply Z.div_le_lower_bound; lia.
    + assert (P `div` (U * U) < F + 2); [|lia].
      apply Z.div_lt_upper_bound; lia.
  - fold P. rewrite E128. unfold Int.INT_MAX.
    assert (A1 : (F + 2) * (U * U) ≤ (2 ^ 31 - 1 + 1) * (U * U))
      by (apply Z.mul_le_mono_nonneg_r; lia).
    lia.
Qed.

(** X23.  [Resize] of a loaded image with 3 or 4 channels, for source and
    destination sizes of at most 2^21: every destination pixel (ix, iy) is a
    copy of a source pixel whose column and row are at most one away from
    the exact ones, floor(ix * srcWidth / destWidth) and
    floor(iy * srcHeight / destHeight), and inside the source image. *)
Theorem Resize_near_floor w b cells dW dH :
  image w b cells →
  channelCount_ (self w) = 3 ∨ channelCount_ (self w) = 4 →
  0 < width_ (self w) ≤ 2 ^ 21 → 0 < height_ (self w) ≤ 2 ^ 21 →
  0 ≤ dW ≤ 2 ^ 21 → 0 ≤ dH ≤ 2 ^ 21 →
  dW * dH * channelCount_ (self w) ≤ Int.INT_MAX →
  ∃ w', Resize dW dH w = Done tt w' ∧
        ∀ ix iy, 0 ≤ ix < dW → 0 ≤ iy < dH →
          ∃ px py,
            floor_coordinate (width_ (self w)) dW ix - 1 ≤ px
              ≤ floor_coordinate (width_ (self w)) dW ix + 1 ∧
            floor_coordinate (height_ (self w)) dH iy - 1 ≤ py
              ≤ floor_coordinate (height_ (self w)) dH iy + 1 ∧
            0 ≤ px < width_ (self w) ∧ 0 ≤ py < height_ (self w) ∧
            ∀ i, 0 ≤ i < channelCount_ (self w) →
              byte_at (pixels_of w') dW (channelCount_ (self w)) iy ix i
              = byte_at cells (width_ (self w)) (channelCount_ (self w)) py px i.
Proof.
  intros Himg HC HW HH HdW HdH Hsize.
  change (2 ^ 21) with 2097152 in *.
  assert (Hnear : ∀ ix iy, 0 ≤ ix < dW → 0 ≤ iy < dH →
            0 ≤ nearest (width_ (self w)) dW ix < width_ (self w) ∧
            0 ≤ nearest (height_ (self w)) dH iy < height_ (self w)).
  { intros ix iy Hix Hiy.
    split; apply nearest_in_range;
      change (2 ^ 24) with 16777216; change (2 ^ 21) with 2097152; lia. }
  destruct (Resize_spec w b cells dW dH Himg HC) as
    (w' & Hrun & _ & _ & _ & _ & _ & _ & _ & Hpix);
    [unfold Int.INT_MAX; lia..|done|done|].
  exists w'. split; [done|]. intros ix iy Hix Hiy.
  exists (nearest (width_ (self w)) dW ix), (nearest (height_ (self w)) dH iy).
  destruct (Hnear ix iy Hix Hiy) as [Hx Hy].
  split_and!; try lia.
  - apply nearest_near_floor; change (2 ^ 21) with 2097152; lia.
  - apply nearest_near_floor; change (2 ^ 21) with 2097152; lia.
  - apply nearest_near_floor; change (2 ^ 21) with 2097152; lia.
  - apply nearest_near_floor; change (2 ^ 21) with 2097152; lia.
  - intros i Hi. by apply Hpix.
Qed.

Lemma Resize_near_floor_witness :
  ∃ w', Resize 82 1 pair_world = Done tt w' ∧
        ∀ ix iy, 0 ≤ ix < 82 → 0 ≤ iy < 1 →
          ∃ px py,
            floor_coordinate (width_ (self pair_world)) 82 ix - 1 ≤ px
              ≤ floor_coordinate (width_ (self pair_world)) 82 ix + 1 ∧
            floor_coordinate (height_ (self pair_world)) 1 iy - 1 ≤ py
              ≤ floor_coordinate (height_ (self pair_world)) 1 iy + 1 ∧
            0 ≤ px < width_ (self pair_world) ∧ 0 ≤ py < height_ (self pair_world) ∧
            ∀ i, 0 ≤ i < channelCount_ (self pair_world) →
              byte_at (pixels_of w') 82 (channelCount_ (self pair_world)) iy ix i
              = byte_at pair_cells (width_ (self pair_world))
                  (channelCount_ (self pair_world)) py px i.
Proof.
  apply (Resize_near_floor pair_world 1%positive pair_cells 82 1).
  - constructor; simpl; try reflexivity; unfold Int.INT_MAX; lia.
  - left. reflexivity.
  - simpl. lia.
  - simpl. lia.
  - lia.
  - lia.
  - simpl. unfold Int.INT_MAX. lia.
Defined.
